(** * Hazelcast Go client: lifecycle, near cache, CP names, framing

    A shallow embedding of the parts of the client that its specification
    makes checkable statements about, with the statements proved (or
    refuted) against the embedded code. *)

From Stdlib Require Import ZArith NArith List Bool Lia String Ascii.
From Stdlib Require Import PrimFloat Uint63.
From Stdlib Require DecimalString DecimalZ.
Import ListNotations.

Local Open Scope Z_scope.

(** ** Errors

    The error values the embedded functions return.  [OtherError] stands
    for the errors of collaborators that lie outside the embedded files
    (the connection manager, the remote call, the serialization
    service). *)
Inductive error : Type :=
| ErrClientCannotStart
| ErrClientNotReady
| ErrContextIsNil
| IllegalArgumentError (msg : string)
| OtherError (msg : string).

(** Update of a list cell, used for thread pools. *)
Fixpoint update {A : Type} (i : nat) (x : A) (l : list A) : list A :=
  match l, i with
  | [], _ => []
  | _ :: t, O => x :: t
  | h :: t, S j => h :: update j x t
  end.

(** ** Package hazelcast: the client and its lifecycle *)

Module Lifecycle.

(** [const ( created int32 = iota; starting; ready; stopping; stopped )] *)
Definition created : Z := 0.
Definition starting : Z := 1.
Definition ready : Z := 2.
Definition stopping : Z := 3.
Definition stopped : Z := 4.

Inductive LifecycleState : Type :=
| LifecycleStateStarting
| LifecycleStateStarted
| LifecycleStateShuttingDown
| LifecycleStateShutDown
| LifecycleStateClientConnected
| LifecycleStateClientDisconnected.

(** What [start] and [Shutdown] do to the client's components, in the
    order the calls appear in the source. *)
Inductive effect : Type :=
| Publish (e : LifecycleState)
| ClusterServiceStart
| ClusterServiceStop
| ConnectionManagerStart
| ConnectionManagerStop
| InvocationServiceStop
| Sleep1ms
| EventDispatcherStop
| UserEventDispatcherStop.

Inductive kind : Type := KMap | KReplicatedMap | KQueue | KTopic | KList.

Section WithProxyManager.

(** The proxy manager is not among the embedded files: its state [PM],
    the proxies it hands out and its five getters are parameters. *)
Context {PM Proxy : Type}.

Record proxyManagerOps : Type := {
  getMap : string -> PM -> (Proxy + error) * PM;
  getReplicatedMap : string -> PM -> (Proxy + error) * PM;
  getQueue : string -> PM -> (Proxy + error) * PM;
  getTopic : string -> PM -> (Proxy + error) * PM;
  getList : string -> PM -> (Proxy + error) * PM
}.

Variable ops : proxyManagerOps.

(** [type Client struct]: the [state] field, the proxy manager, and the
    log of what has been done to the other components (oldest first). *)
Record Client : Type := mkClient {
  state : Z;
  proxyManager : PM;
  effects : list effect
}.

Definition set_state (v : Z) (c : Client) : Client :=
  mkClient v (proxyManager c) (effects c).

Definition set_proxyManager (pm : PM) (c : Client) : Client :=
  mkClient (state c) pm (effects c).

Definition perform (es : list effect) (c : Client) : Client :=
  mkClient (state c) (proxyManager c) (effects c ++ es).

(** [sync/atomic] on [c.state]. *)
Definition LoadInt32 (c : Client) : Z := state c.

Definition StoreInt32 (v : Z) (c : Client) : Client := set_state v c.

Definition CompareAndSwapInt32 (old new : Z) (c : Client) : bool * Client :=
  if state c =? old then (true, set_state new c) else (false, c).

(** [func (c *Client) start() error].  [connStart] is what
    [c.connectionManager.Start(1 * time.Minute)] returns. *)
Definition start (connStart : option error) (c : Client)
  : option error * Client :=
  let (swapped, c) := CompareAndSwapInt32 created starting c in
  if negb swapped then (Some ErrClientCannotStart, c)
  else
    let c := perform [Publish LifecycleStateStarting] c in
    let c := perform [ClusterServiceStart] c in
    let c := perform [ConnectionManagerStart] c in
    match connStart with
    | Some err =>
        let c := perform [ClusterServiceStop] c in
        let c := perform [EventDispatcherStop] c in
        let c := perform [UserEventDispatcherStop] c in
        (Some err, c)
    | None =>
        let c := StoreInt32 ready c in
        let c := perform [Publish LifecycleStateStarted] c in
        (None, c)
    end.

(** [func (c *Client) Shutdown() error] *)
Definition Shutdown (c : Client) : option error * Client :=
  let (swapped, c) := CompareAndSwapInt32 ready stopping c in
  if negb swapped then (Some ErrClientNotReady, c)
  else
    let c := perform [Publish LifecycleStateShuttingDown] c in
    let c := perform [InvocationServiceStop] c in
    let c := perform [ClusterServiceStop] c in
    let c := perform [ConnectionManagerStop] c in
    let c := StoreInt32 stopped c in
    let c := perform [Publish LifecycleStateShutDown] c in
    let c := perform [Sleep1ms] c in
    let c := perform [EventDispatcherStop] c in
    let c := perform [UserEventDispatcherStop] c in
    (None, c).

(** [func (c *Client) Running() bool] *)
Definition Running (c : Client) : bool := LoadInt32 c =? ready.

Definition delegate (get : string -> PM -> (Proxy + error) * PM)
    (name : string) (c : Client) : (Proxy + error) * Client :=
  let (r, pm) := get name (proxyManager c) in (r, set_proxyManager pm c).

(** [func (c *Client) GetMap(name string)] *)
Definition GetMap (name : string) (c : Client) : (Proxy + error) * Client :=
  if negb (LoadInt32 c =? ready) then (inr ErrClientNotReady, c)
  else delegate (getMap ops) name c.

(** [func (c *Client) GetReplicatedMap(name string)] *)
Definition GetReplicatedMap (name : string) (c : Client)
  : (Proxy + error) * Client :=
  if negb (LoadInt32 c =? ready) then (inr ErrClientNotReady, c)
  else delegate (getReplicatedMap ops) name c.

(** [func (c *Client) GetQueue(name string)] *)
Definition GetQueue (name : string) (c : Client) : (Proxy + error) * Client :=
  if negb (LoadInt32 c =? ready) then (inr ErrClientNotReady, c)
  else delegate (getQueue ops) name c.

(** [func (c *Client) GetTopic(name string)] *)
Definition GetTopic (name : string) (c : Client) : (Proxy + error) * Client :=
  if negb (LoadInt32 c =? ready) then (inr ErrClientNotReady, c)
  else delegate (getTopic ops) name c.

(** [func (c *Client) GetList(name string)] *)
Definition GetList (name : string) (c : Client) : (Proxy + error) * Client :=
  if negb (LoadInt32 c =? ready) then (inr ErrClientNotReady, c)
  else delegate (getList ops) name c.

Definition accessor (k : kind) : string -> Client -> (Proxy + error) * Client :=
  match k with
  | KMap => GetMap
  | KReplicatedMap => GetReplicatedMap
  | KQueue => GetQueue
  | KTopic => GetTopic
  | KList => GetList
  end.

Definition getter (k : kind) : string -> PM -> (Proxy + error) * PM :=
  match k with
  | KMap => getMap ops
  | KReplicatedMap => getReplicatedMap ops
  | KQueue => getQueue ops
  | KTopic => getTopic ops
  | KList => getList ops
  end.

(** *** Calls made one after the other *)

Inductive call : Type :=
| CallStart (connStart : option error)
| CallShutdown
| CallGet (k : kind) (name : string)
| CallRunning.

Inductive outcome : Type :=
| RetError (e : option error)
| RetProxy (r : Proxy + error)
| RetBool (b : bool).

Definition do_call (cl : call) (c : Client) : outcome * Client :=
  match cl with
  | CallStart connStart => let (e, c) := start connStart c in (RetError e, c)
  | CallShutdown => let (e, c) := Shutdown c in (RetError e, c)
  | CallGet k name => let (r, c) := accessor k name c in (RetProxy r, c)
  | CallRunning => (RetBool (Running c), c)
  end.

Fixpoint do_calls (cls : list call) (c : Client) : list outcome * Client :=
  match cls with
  | [] => ([], c)
  | cl :: rest =>
      let (o, c) := do_call cl c in
      let (os, c) := do_calls rest c in
      (o :: os, c)
  end.

(** *** Callers running concurrently

    Each caller is a thread with a program point.  A step of a thread is
    one atomic access to [c.state] (the compare-and-swap or the store) or
    the block of component calls between two such accesses. *)
Inductive pc : Type :=
| AtStart (connStart : option error)
| Starting1 (connStart : option error)
| Starting2
| Starting3
| AtShutdown
| Stopping1
| Stopping2
| Stopping3
| Returned (e : option error).

Definition thread_step (p : pc) (c : Client) : pc * Client :=
  match p with
  | AtStart connStart =>
      let (swapped, c) := CompareAndSwapInt32 created starting c in
      if negb swapped then (Returned (Some ErrClientCannotStart), c)
      else (Starting1 connStart, c)
  | Starting1 connStart =>
      let c := perform [Publish LifecycleStateStarting] c in
      let c := perform [ClusterServiceStart] c in
      let c := perform [ConnectionManagerStart] c in
      match connStart with
      | Some err =>
          let c := perform [ClusterServiceStop] c in
          let c := perform [EventDispatcherStop] c in
          let c := perform [UserEventDispatcherStop] c in
          (Returned (Some err), c)
      | None => (Starting2, c)
      end
  | Starting2 => (Starting3, StoreInt32 ready c)
  | Starting3 => (Returned None, perform [Publish LifecycleStateStarted] c)
  | AtShutdown =>
      let (swapped, c) := CompareAndSwapInt32 ready stopping c in
      if negb swapped then (Returned (Some ErrClientNotReady), c)
      else (Stopping1, c)
  | Stopping1 =>
      let c := perform [Publish LifecycleStateShuttingDown] c in
      let c := perform [InvocationServiceStop] c in
      let c := perform [ClusterServiceStop] c in
      let c := perform [ConnectionManagerStop] c in
      (Stopping2, c)
  | Stopping2 => (Stopping3, StoreInt32 stopped c)
  | Stopping3 =>
      let c := perform [Publish LifecycleStateShutDown] c in
      let c := perform [Sleep1ms] c in
      let c := perform [EventDispatcherStop] c in
      let c := perform [UserEventDispatcherStop] c in
      (Returned None, c)
  | Returned e => (Returned e, c)
  end.

Definition config : Type := Client * list pc.

(** Thread [i] takes its next step; an index outside the pool does
    nothing. *)
Definition sched_step (i : nat) (cfg : config) : config :=
  let (c, ts) := cfg in
  match nth_error ts i with
  | None => cfg
  | Some p => let (p', c') := thread_step p c in (c', update i p' ts)
  end.

Fixpoint run (sch : list nat) (cfg : config) : config :=
  match sch with
  | [] => cfg
  | i :: rest => run rest (sched_step i cfg)
  end.

(** The value of [c.state] after each step of a schedule. *)
Fixpoint states_seen (sch : list nat) (cfg : config) : list Z :=
  match sch with
  | [] => []
  | i :: rest =>
      let cfg' := sched_step i cfg in
      state (fst cfg') :: states_seen rest cfg'
  end.

Definition entry (p : pc) : Prop :=
  (exists connStart, p = AtStart connStart) \/ p = AtShutdown.

Definition is_returned (p : pc) : bool :=
  match p with Returned _ => true | _ => false end.

(** The value a thread has put into [c.state] and not yet replaced:
    between its successful compare-and-swap and its store no other
    thread can move the state. *)
Definition owns (p : pc) : option Z :=
  match p with
  | Starting1 _ | Starting2 => Some starting
  | Stopping1 | Stopping2 => Some stopping
  | _ => None
  end.

(** Steps a thread still has to take before it returns. *)
Definition remaining (p : pc) : nat :=
  match p with
  | AtStart _ | AtShutdown => 4
  | Starting1 _ | Stopping1 => 3
  | Starting2 | Stopping2 => 2
  | Starting3 | Stopping3 => 1
  | Returned _ => 0
  end.

(** At most one thread is between a compare-and-swap it won and the
    store that follows, and [c.state] is what that thread put there. *)
Definition owner_inv (cfg : config) : Prop :=
  forall i p s,
    nth_error (snd cfg) i = Some p -> owns p = Some s ->
    state (fst cfg) = s /\
    forall j q, nth_error (snd cfg) j = Some q -> owns q <> None -> j = i.

(** Program points of the one caller whose [Shutdown] won the
    compare-and-swap, with the state that goes with each. *)
Definition winner (w : pc) (s : Z) : Prop :=
  (w = Stopping1 /\ s = stopping) \/ (w = Stopping2 /\ s = stopping) \/
  (w = Stopping3 /\ s = stopped) \/ (w = Returned None /\ s = stopped).

(** A pool of [Shutdown] callers on a client that was ready: either
    nobody has moved, or one caller is the winner and the others are
    still at the entry or have been turned away. *)
Definition shutdown_inv (cfg : config) : Prop :=
  (state (fst cfg) = ready /\ Forall (eq AtShutdown) (snd cfg)) \/
  (exists i w,
      nth_error (snd cfg) i = Some w /\ winner w (state (fst cfg)) /\
      forall j q, j <> i -> nth_error (snd cfg) j = Some q ->
                  q = AtShutdown \/ q = Returned (Some ErrClientNotReady)).

(** What a call gets on a client that can no longer serve it. *)
Definition refused (cl : call) (o : outcome) : Prop :=
  match cl with
  | CallStart _ => o = RetError (Some ErrClientCannotStart)
  | CallShutdown => o = RetError (Some ErrClientNotReady)
  | CallGet _ _ => o = RetProxy (inr ErrClientNotReady)
  | CallRunning => o = RetBool false
  end.

End WithProxyManager.

Arguments Client : clear implicits.
Arguments config : clear implicits.

(** A small proxy manager to run the client on: it records the names it
    was asked for and hands the name back as the proxy. *)
Definition recording_ops : @proxyManagerOps (list string) string :=
  let get := fun (name : string) (pm : list string) =>
               (@inl string error name, name :: pm) in
  {| getMap := get; getReplicatedMap := get; getQueue := get;
     getTopic := get; getList := get |}.

Definition new_client : Client (list string) := mkClient created [] [].

(** The one-way chain of the lifecycle. *)
Inductive chain : Z -> Z -> Prop :=
| chain_created : chain created starting
| chain_starting : chain starting ready
| chain_ready : chain ready stopping
| chain_stopping : chain stopping stopped.

(** Every two neighbours of a list of observed states are equal or one
    link of the chain apart. *)
Fixpoint along_chain (s : Z) (l : list Z) : Prop :=
  match l with
  | [] => True
  | s' :: rest => (s' = s \/ chain s s') /\ along_chain s' rest
  end.

End Lifecycle.

(** ** Package hazelcast: the near-cached map *)

Module NearCacheMap.

(** User values and serialized data are opaque here. *)
Abbreviation Obj := string (only parsing).
Abbreviation Data := string (only parsing).
Abbreviation UUID := Z (only parsing).

(** A near-cache key is the user's key itself or its serialized form. *)
Inductive nckey : Type :=
| RawKey (k : Obj)
| DataKey (d : Data).

(** What [handleInvalidationMsg] hands to [lg.Trace]: the arguments of
    its format string. *)
Record trace_entry : Type := mkTrace {
  traceKey : Data;
  traceSource : UUID;
  tracePartition : UUID;
  traceSeq : Z
}.

Section WithCollaborators.

(** Everything the near-cached map calls lies outside the embedded
    files: the near cache ([ncm.nc]), the logger ([ncm.lg]), the
    serialization service ([ncm.ss]) and the remote calls of [*Map].
    They act on one world [W], so that the order of two calls shows in
    the world they leave. *)
Context {W : Type}.

Definition M (A : Type) : Type := W -> A * W.

Definition ret {A : Type} (a : A) : M A := fun w => (a, w).

(** Go's [defer d] in a function whose body is [body]: [d] runs when
    the body has returned, and the body's results are what is
    returned. *)
Definition defer_ {A : Type} (d : W -> W) (body : M A) : M A :=
  fun w => let (r, w') := body w in (r, d w').

Record collaborators : Type := {
  Invalidate : nckey -> W -> W;
  Trace : trace_entry -> W -> W;
  ToData : Obj -> Data + error;
  deleteFromRemote : nckey -> M (option error);
  putWithTTLFromRemote : nckey -> Obj -> Z -> M (Obj + error);
  putWithMaxIdleFromRemote : nckey -> Obj -> Z -> Z -> M (Obj + error);
  removeFromRemote : nckey -> M (Obj + error);
  removeIfSameFromRemote : nckey -> Obj -> M (bool + error);
  setFromRemote : nckey -> Obj -> Z -> M (option error);
  setWithTTLAndMaxIdleFromRemote : nckey -> Obj -> Z -> Z -> M (option error);
  tryRemoveFromRemote : nckey -> Z -> M (Obj + error);
  tryPutFromRemote : nckey -> Obj -> Z -> M (bool + error)
}.

Variable env : collaborators.

(** [ncc.SerializeKeys] *)
Variable SerializeKeys : bool.

(** [ncm.toNearCacheKey], as [newNearCacheMap] sets it. *)
Definition toNearCacheKey (key : Obj) : nckey + error :=
  if SerializeKeys then
    match ToData env key with
    | inr err => inr err
    | inl data => inl (DataKey data)
    end
  else inl (RawKey key).

(** [func (ncm *nearCacheMap) Delete(ctx, m, key) error] *)
Definition Delete (key : Obj) : M (option error) :=
  match toNearCacheKey key with
  | inr err => ret (Some err)
  | inl key => defer_ (Invalidate env key) (deleteFromRemote env key)
  end.

(** [func (ncm *nearCacheMap) Put(ctx, m, key, value, ttl)] *)
Definition Put (key value : Obj) (ttl : Z) : M (Obj + error) :=
  match toNearCacheKey key with
  | inr err => ret (inr err)
  | inl key =>
      defer_ (Invalidate env key) (putWithTTLFromRemote env key value ttl)
  end.

(** [func (ncm *nearCacheMap) PutWithMaxIdle(ctx, m, key, value, ttl, maxIdle)] *)
Definition PutWithMaxIdle (key value : Obj) (ttl maxIdle : Z)
  : M (Obj + error) :=
  match toNearCacheKey key with
  | inr err => ret (inr err)
  | inl key =>
      defer_ (Invalidate env key)
             (putWithMaxIdleFromRemote env key value ttl maxIdle)
  end.

(** [func (ncm *nearCacheMap) Remove(ctx, m, key)] *)
Definition Remove (key : Obj) : M (Obj + error) :=
  match toNearCacheKey key with
  | inr err => ret (inr err)
  | inl key => defer_ (Invalidate env key) (removeFromRemote env key)
  end.

(** [func (ncm *nearCacheMap) RemoveIfSame(ctx, m, key, value)] *)
Definition RemoveIfSame (key value : Obj) : M (bool + error) :=
  match toNearCacheKey key with
  | inr err => ret (inr err)
  | inl key =>
      defer_ (Invalidate env key) (removeIfSameFromRemote env key value)
  end.

(** [func (ncm *nearCacheMap) Set(ctx, m, key, value, ttl) error] *)
Definition Set_ (key value : Obj) (ttl : Z) : M (option error) :=
  match toNearCacheKey key with
  | inr err => ret (Some err)
  | inl key => defer_ (Invalidate env key) (setFromRemote env key value ttl)
  end.

(** [func (ncm *nearCacheMap) SetWithTTLAndMaxIdle(ctx, m, key, value, ttl, maxIdle) error] *)
Definition SetWithTTLAndMaxIdle (key value : Obj) (ttl maxIdle : Z)
  : M (option error) :=
  match toNearCacheKey key with
  | inr err => ret (Some err)
  | inl key =>
      defer_ (Invalidate env key)
             (setWithTTLAndMaxIdleFromRemote env key value ttl maxIdle)
  end.

(** [func (ncm *nearCacheMap) TryRemove(ctx, m, key, timeout)] *)
Definition TryRemove (key : Obj) (timeout : Z) : M (Obj + error) :=
  match toNearCacheKey key with
  | inr err => ret (inr err)
  | inl key =>
      defer_ (Invalidate env key) (tryRemoveFromRemote env key timeout)
  end.

(** [func (ncm *nearCacheMap) TryPut(ctx, m, key, value, timeout)] *)
Definition TryPut (key value : Obj) (timeout : Z) : M (bool + error) :=
  match toNearCacheKey key with
  | inr err => ret (inr err)
  | inl key =>
      defer_ (Invalidate env key) (tryPutFromRemote env key value timeout)
  end.

(** [func (ncm *nearCacheMap) handleInvalidationMsg(key, source, partition, seq)]:
    the body is the one call of [ncm.lg.Trace]. *)
Definition handleInvalidationMsg
    (key : Data) (source partition : UUID) (seq : Z) (w : W) : W :=
  Trace env (mkTrace key source partition seq) w.

(** *** The mutating operations as one family *)

Inductive mutation : Type :=
| MPut (key value : Obj) (ttl : Z)
| MPutWithMaxIdle (key value : Obj) (ttl maxIdle : Z)
| MSet (key value : Obj) (ttl : Z)
| MSetWithTTLAndMaxIdle (key value : Obj) (ttl maxIdle : Z)
| MRemove (key : Obj)
| MRemoveIfSame (key value : Obj)
| MTryPut (key value : Obj) (timeout : Z)
| MTryRemove (key : Obj) (timeout : Z)
| MDelete (key : Obj).

Inductive result : Type :=
| ResObj (r : Obj + error)
| ResBool (r : bool + error)
| ResErr (r : option error).

Definition lift {A : Type} (f : A -> result) (m : M A) : M result :=
  fun w => let (a, w') := m w in (f a, w').

Definition key_of (mu : mutation) : Obj :=
  match mu with
  | MPut key _ _ | MPutWithMaxIdle key _ _ _ | MSet key _ _
  | MSetWithTTLAndMaxIdle key _ _ _ | MRemove key | MRemoveIfSame key _
  | MTryPut key _ _ | MTryRemove key _ | MDelete key => key
  end.

(** The operation of the near-cached map. *)
Definition perform (mu : mutation) : M result :=
  match mu with
  | MPut key value ttl => lift ResObj (Put key value ttl)
  | MPutWithMaxIdle key value ttl maxIdle =>
      lift ResObj (PutWithMaxIdle key value ttl maxIdle)
  | MSet key value ttl => lift ResErr (Set_ key value ttl)
  | MSetWithTTLAndMaxIdle key value ttl maxIdle =>
      lift ResErr (SetWithTTLAndMaxIdle key value ttl maxIdle)
  | MRemove key => lift ResObj (Remove key)
  | MRemoveIfSame key value => lift ResBool (RemoveIfSame key value)
  | MTryPut key value timeout => lift ResBool (TryPut key value timeout)
  | MTryRemove key timeout => lift ResObj (TryRemove key timeout)
  | MDelete key => lift ResErr (Delete key)
  end.

(** The remote call that the operation makes, on near-cache key [k]. *)
Definition remote (mu : mutation) (k : nckey) : M result :=
  match mu with
  | MPut _ value ttl => lift ResObj (putWithTTLFromRemote env k value ttl)
  | MPutWithMaxIdle _ value ttl maxIdle =>
      lift ResObj (putWithMaxIdleFromRemote env k value ttl maxIdle)
  | MSet _ value ttl => lift ResErr (setFromRemote env k value ttl)
  | MSetWithTTLAndMaxIdle _ value ttl maxIdle =>
      lift ResErr (setWithTTLAndMaxIdleFromRemote env k value ttl maxIdle)
  | MRemove _ => lift ResObj (removeFromRemote env k)
  | MRemoveIfSame _ value => lift ResBool (removeIfSameFromRemote env k value)
  | MTryPut _ value timeout =>
      lift ResBool (tryPutFromRemote env k value timeout)
  | MTryRemove _ timeout => lift ResObj (tryRemoveFromRemote env k timeout)
  | MDelete _ => lift ResErr (deleteFromRemote env k)
  end.

(** The result with which the operation gives up when the key cannot be
    turned into a near-cache key. *)
Definition key_failure (mu : mutation) (err : error) : result :=
  match mu with
  | MPut _ _ _ | MPutWithMaxIdle _ _ _ _ | MRemove _ | MTryRemove _ _ =>
      ResObj (inr err)
  | MRemoveIfSame _ _ | MTryPut _ _ _ => ResBool (inr err)
  | MSet _ _ _ | MSetWithTTLAndMaxIdle _ _ _ _ | MDelete _ => ResErr (Some err)
  end.

End WithCollaborators.

Arguments M : clear implicits.
Arguments collaborators : clear implicits.

(** *** A near cache to run the map on *)

Definition nckey_eqb (a b : nckey) : bool :=
  match a, b with
  | RawKey x, RawKey y => String.eqb x y
  | DataKey x, DataKey y => String.eqb x y
  | _, _ => false
  end.

(** Modelled from the spec: the near-cache record of section 3 (key,
    value, owning partition, invalidation sequence) and the
    per-partition sequence store of section 4.7; the package
    internal/nearcache that implements them is not among the embedded
    files. *)
Record cache_record : Type := mkRecord {
  recKey : nckey;
  recValue : Data;
  recPartition : UUID;
  recSequence : Z
}.

Inductive event : Type :=
| EvRemote (operation : string) (k : nckey)
| EvInvalidate (k : nckey).

Record world : Type := mkWorld {
  records : list cache_record;
  lastSeen : list (UUID * Z);
  traceEnabled : bool;
  traced : list trace_entry;
  journal : list event
}.

Fixpoint lookup_seq (p : UUID) (l : list (UUID * Z)) : Z :=
  match l with
  | [] => 0
  | (q, n) :: rest => if q =? p then n else lookup_seq p rest
  end.

Definition last_seen (w : world) (partition : UUID) : Z :=
  lookup_seq partition (lastSeen w).

Definition records_in (w : world) (partition : UUID) : list cache_record :=
  filter (fun r => recPartition r =? partition) (records w).

(** Modelled from the spec: invalidating a key removes its record. *)
Definition model_Invalidate (k : nckey) (w : world) : world :=
  mkWorld (filter (fun r => negb (nckey_eqb (recKey r) k)) (records w))
          (lastSeen w) (traceEnabled w) (traced w)
          (journal w ++ [EvInvalidate k]).

(** The log adaptor evaluates and writes the message only when the
    trace level is on. *)
Definition model_Trace (e : trace_entry) (w : world) : world :=
  if traceEnabled w
  then mkWorld (records w) (lastSeen w) (traceEnabled w) (traced w ++ [e])
               (journal w)
  else w.

Definition model_remote {A : Type} (operation : string) (answer : A)
    (k : nckey) : M world A :=
  fun w =>
    (answer,
     mkWorld (records w) (lastSeen w) (traceEnabled w) (traced w)
             (journal w ++ [EvRemote operation k])).

(** Collaborators whose remote calls all succeed, or all fail with
    [err], and whose serialization refuses the empty key. *)
Definition model_env (failure : option error) : collaborators world :=
  let obj := match failure with
             | Some err => @inr Obj error err
             | None => inl "old"%string
             end in
  let flag := match failure with
              | Some err => @inr bool error err
              | None => inl true
              end in
  {| Invalidate := model_Invalidate;
     Trace := model_Trace;
     ToData := fun key =>
                 if String.eqb key "" then inr (OtherError "cannot serialize")
                 else inl key;
     deleteFromRemote := model_remote "delete" failure;
     putWithTTLFromRemote := fun k _ _ => model_remote "put" obj k;
     putWithMaxIdleFromRemote := fun k _ _ _ => model_remote "put" obj k;
     removeFromRemote := model_remote "remove" obj;
     removeIfSameFromRemote := fun k _ => model_remote "removeIfSame" flag k;
     setFromRemote := fun k _ _ => model_remote "set" failure k;
     setWithTTLAndMaxIdleFromRemote :=
       fun k _ _ _ => model_remote "set" failure k;
     tryRemoveFromRemote := fun k _ => model_remote "tryRemove" obj k;
     tryPutFromRemote := fun k _ _ => model_remote "tryPut" flag k |}.

(** A cache holding key "a" of partition 7, whose last seen sequence
    is 1. *)
Definition sample_world : world :=
  mkWorld [mkRecord (RawKey "a") "v1" 7 1; mkRecord (RawKey "b") "v2" 8 1]
          [(7, 1); (8, 1)] true [] [].

(** Modelled from the spec: the sequence discipline that section 4.7
    asks of an invalidation handler [handle]: the store's entry for the
    event's partition advances monotonically to the event's sequence,
    and an event that skips a sequence flushes the partition's
    records. *)
Definition sequence_discipline
    (handle : Data -> UUID -> UUID -> Z -> world -> world) : Prop :=
  forall w key source partition seq,
    let w' := handle key source partition seq w in
    last_seen w' partition = Z.max (last_seen w partition) seq /\
    (last_seen w partition + 1 < seq -> records_in w' partition = []).

(** Modelled from the spec: the write path as section 4.7 words it.
    Every mutating operation, on every key, invalidates the key after
    its remote call has returned: the world the operation leaves is
    the world its remote call left with one key [k] invalidated. *)
Definition write_path_as_stated {W : Type} (env : collaborators W)
    (SerializeKeys : bool) : Prop :=
  forall (mu : mutation) (w : W),
  exists k : nckey,
    snd (perform env SerializeKeys mu w) =
    Invalidate env k (snd (remote env mu k w)).

End NearCacheMap.

(** ** internal/connection.go: the reader of a connection *)

Module Connection.

Definition len {A : Type} (l : list A) : Z := Z.of_nat (List.length l).

Definition byte_val (b : Byte.byte) : Z := Z.of_N (Byte.to_N b).

(** Modelled from the spec: [common.Int32SizeInBytes], whose declaring
    file is not among the embedded ones; the length field of a frame is
    four bytes. *)
Definition Int32SizeInBytes : Z := 4.

(** [binary.LittleEndian.Uint32(b)], on the four bytes it is given. *)
Definition Uint32 (b : list Byte.byte) : Z :=
  match b with
  | b0 :: b1 :: b2 :: b3 :: _ =>
      Z.lor (byte_val b0)
        (Z.lor (Z.shiftl (byte_val b1) 8)
           (Z.lor (Z.shiftl (byte_val b2) 16) (Z.shiftl (byte_val b3) 24)))
  | _ => 0
  end.

(** The conversion [uint32(n)] of an [int]. *)
Definition uint32 (n : Z) : Z := n mod 2 ^ 32.

(** Go's slices [b[:n]] and [b[n:]]. *)
Definition slice_to {A : Type} (b : list A) (n : Z) : list A :=
  firstn (Z.to_nat n) b.

Definition slice_from {A : Type} (b : list A) (n : Z) : list A :=
  skipn (Z.to_nat n) b.

(** [type Connection struct]: the read buffer, the time of the last
    read, and the messages handed to [clientMessageBuilder.onMessage],
    oldest first. *)
Record Connection : Type := mkConnection {
  readBuffer : list Byte.byte;
  lastRead : Z;
  onMessage : list (list Byte.byte)
}.

(** The [for] loop of [receiveMessage]; [None] when [fuel] iterations
    did not reach its end. *)
Fixpoint receiveLoop (fuel : nat) (connection : Connection)
  : option Connection :=
  match fuel with
  | O => None
  | S fuel =>
      if len (readBuffer connection) >? Int32SizeInBytes then
        let frameLength := Uint32 (slice_to (readBuffer connection) 4) in
        if frameLength >? uint32 (len (readBuffer connection)) then
          Some connection
        else
          let resp := slice_to (readBuffer connection) frameLength in
          receiveLoop fuel
            (mkConnection (slice_from (readBuffer connection) frameLength)
                          (lastRead connection)
                          (onMessage connection ++ [resp]))
      else Some connection
  end.

(** [func (connection *Connection) receiveMessage()], called at time
    [now]. *)
Definition receiveMessage (fuel : nat) (now : Z) (connection : Connection)
  : option Connection :=
  receiveLoop fuel
    (mkConnection (readBuffer connection) now (onMessage connection)).

(** A frame as it travels: its first four bytes announce its whole
    length, which is more than those four bytes. *)
Definition framed (f : list Byte.byte) : Prop :=
  4 < len f /\ Uint32 (slice_to f 4) = len f.

(** What stays in the buffer: at most the length field, or a frame
    whose announced length has not all arrived. *)
Definition incomplete (rest : list Byte.byte) : Prop :=
  len rest <= 4 \/ len rest < Uint32 (slice_to rest 4).

(** Modelled from the spec: frame reassembly as section 4.2 words it,
    for a reader [receive] that returns the frames it handed over and
    the buffer it kept: with at least four bytes buffered and as many
    bytes buffered as the first four announce, the announced prefix is
    handed over and removed. *)
Definition reassembly_as_stated
    (receive : list Byte.byte ->
               option (list (list Byte.byte) * list Byte.byte)) : Prop :=
  forall buf,
    let frameLength := Uint32 (slice_to buf 4) in
    4 <= len buf -> frameLength <= len buf ->
    exists more rest,
      receive buf = Some (slice_to buf frameLength :: more, rest).

(** The reader of the source as such a [receive], on a connection that
    has handed over nothing yet. *)
Definition receive_with (fuel : nat) (buf : list Byte.byte)
  : option (list (list Byte.byte) * list Byte.byte) :=
  match receiveMessage fuel 0 (mkConnection buf 0 []) with
  | Some connection => Some (onMessage connection, readBuffer connection)
  | None => None
  end.

Definition length_field_only : list Byte.byte :=
  [Byte.x04; Byte.x00; Byte.x00; Byte.x00].

(** Two frames of six and five bytes and the first three bytes of a
    third. *)
Definition sample_frames : list (list Byte.byte) :=
  [[Byte.x06; Byte.x00; Byte.x00; Byte.x00; Byte.xaa; Byte.xbb];
   [Byte.x05; Byte.x00; Byte.x00; Byte.x00; Byte.xcc]].

Definition sample_rest : list Byte.byte := [Byte.x09; Byte.x00; Byte.x00].

End Connection.

(** ** Go strings

    A Go string is a sequence of bytes.  [strings.TrimSpace] removes the
    white space of Unicode at both ends: the six ASCII characters and
    the UTF-8 encodings of U+0085, U+00A0, U+1680, U+2000 to U+200A,
    U+2028, U+2029, U+202F, U+205F and U+3000.  [strings.ToLower] is
    modelled on the ASCII letters; the callers only compare its result
    with the words "metadata" and "default", whose letters no character
    outside ASCII lowers to, so the comparisons come out as in Go. *)

Module GoStrings.

Definition code (a : ascii) : N := N_of_ascii a.

Definition isSpace1 (a : ascii) : bool :=
  ((9 <=? code a) && (code a <=? 13) || (code a =? 32))%N.

Definition isSpace2 (a b : ascii) : bool :=
  ((code a =? 194) && ((code b =? 133) || (code b =? 160)))%N.

Definition isSpace3 (a b c : ascii) : bool :=
  ((code a =? 225) && (code b =? 154) && (code c =? 128)
   || (code a =? 226) && (code b =? 128)
      && ((128 <=? code c) && (code c <=? 138)
          || (code c =? 168) || (code c =? 169) || (code c =? 175))
   || (code a =? 226) && (code b =? 129) && (code c =? 159)
   || (code a =? 227) && (code b =? 128) && (code c =? 128))%N.

Fixpoint trimLeft (s : string) : string :=
  match s with
  | EmptyString => EmptyString
  | String a r1 =>
      if isSpace1 a then trimLeft r1
      else
        match r1 with
        | EmptyString => s
        | String b r2 =>
            if isSpace2 a b then trimLeft r2
            else
              match r2 with
              | EmptyString => s
              | String c r3 => if isSpace3 a b c then trimLeft r3 else s
              end
        end
  end.

Definition isEmpty (s : string) : bool :=
  match s with EmptyString => true | _ => false end.

Fixpoint trimRight (s : string) : string :=
  match s with
  | EmptyString => EmptyString
  | String a r => if isEmpty (trimLeft s) then EmptyString
                  else String a (trimRight r)
  end.

Definition TrimSpace (s : string) : string := trimRight (trimLeft s).

Definition lower (a : ascii) : ascii :=
  if ((65 <=? code a) && (code a <=? 90))%N then ascii_of_N (code a + 32)
  else a.

Fixpoint ToLower (s : string) : string :=
  match s with
  | EmptyString => EmptyString
  | String a r => String (lower a) (ToLower r)
  end.

Fixpoint Index (s substr : string) : Z :=
  if String.prefix substr s then 0
  else
    match s with
    | EmptyString => -1
    | String _ r => let i := Index r substr in if i =? -1 then -1 else i + 1
    end.

Fixpoint drop (n : nat) (s : string) : string :=
  match n, s with
  | S m, String _ r => drop m r
  | _, _ => s
  end.

Fixpoint take (n : nat) (s : string) : string :=
  match n, s with
  | S m, String a r => String a (take m r)
  | _, _ => EmptyString
  end.

Definition slice_from (s : string) (i : Z) : string := drop (Z.to_nat i) s.
Definition slice_to (s : string) (i : Z) : string := take (Z.to_nat i) s.

Fixpoint count_at (s : string) : nat :=
  match s with
  | EmptyString => 0
  | String a r => if Ascii.eqb a "@" then S (count_at r) else count_at r
  end.

End GoStrings.

(** ** internal/cp/proxy_factory.go: names of CP proxies *)

Module ProxyFactory.
Import GoStrings.
Local Open Scope string_scope.

Definition atomicLongService : string := "hz:raft:atomicLongService".
Definition defaultGroupName : string := "default".
Definition metadataCpGroupName : string := "metadata".

(** [func objectNameForProxy(name string) (string, error)] *)
Definition objectNameForProxy (name : string) : string + error :=
  let idx := Index name "@" in
  if (idx =? -1)%Z then inl name
  else
    let group := TrimSpace (slice_from name (idx + 1)) in
    if String.eqb group "" then
      inr (IllegalArgumentError "custom CP group name cannot be empty string")
    else
      let obj := TrimSpace (slice_to name idx) in
      if String.eqb obj "" then
        inr (IllegalArgumentError "object name cannot be empty string")
      else inl obj.

(** [func withoutDefaultGroupName(proxyName string) (string, error)] *)
Definition withoutDefaultGroupName (proxyName : string) : string + error :=
  let name := TrimSpace proxyName in
  let idx := Index name "@" in
  if (idx =? -1)%Z then inl name
  else
    let ci := Index (slice_from name (idx + 1)) "@" in
    if negb (ci =? -1)%Z then
      inr (IllegalArgumentError
             "custom group name must be specified at most once")
    else
      let group := TrimSpace (slice_from name (idx + 1)) in
      let n := ToLower group in
      if String.eqb n metadataCpGroupName then
        inr (IllegalArgumentError
               "cp data structures cannot run on the METADATA CP group!")
      else if String.eqb (ToLower group) defaultGroupName then
        inl (slice_to name idx)
      else inl name.

Record proxy : Type := mkProxy {
  groupID : Z;
  serviceName : string;
  proxyName : string;
  objectName : string
}.

(** [func (m *proxyFactory) getOrCreateProxy(ctx, service, name)];
    [createGroupID] is the answer of the cluster to the group request
    for a name. *)
Definition getOrCreateProxy (createGroupID : string -> Z + error)
    (service name : string) : proxy + error :=
  match withoutDefaultGroupName name with
  | inr err => inr err
  | inl pxy =>
      match objectNameForProxy name with
      | inr err => inr err
      | inl obj =>
          match createGroupID name with
          | inr err => inr err
          | inl gid =>
              if String.eqb service atomicLongService then
                inl (mkProxy gid service pxy obj)
              else
                inr (IllegalArgumentError
                       "requested data structure is supported by Go Client CP Subsystem")
          end
      end
  end.

End ProxyFactory.

(** ** cp/proxy_manager.go: the exported proxy manager *)

Module ProxyManager.
Import GoStrings.
Local Open Scope string_scope.

(** A call returns or panics. *)
Inductive go_result (A : Type) : Type :=
| Returns (a : A)
| Panics (msg : string).
Arguments Returns {A} a.
Arguments Panics {A} msg.

Definition defaultGroupName : string := "default".
Definition metadataCpGroupName : string := "metadata".

(** The double quote that the message of one panic carries at both
    ends. *)
Definition quote : string := String (ascii_of_N 34) "".

(** [func (m *ProxyManager) objectNameForProxy(ctx, name string) string] *)
Definition objectNameForProxy (name : string) : go_result string :=
  let idx := Index name "@" in
  if (idx =? -1)%Z then Returns name
  else
    let groupName := TrimSpace (slice_from name (idx + 1)) in
    if (Z.of_nat (String.length groupName) <=? 0)%Z then
      Panics "Custom CP group name cannot be empty string"
    else
      let objectName := TrimSpace (slice_to name idx) in
      if (Z.of_nat (String.length objectName) <=? 0)%Z then
        Panics "Object name cannot be empty string"
      else Returns objectName.

(** [func (m *ProxyManager) withoutDefaultGroupName(ctx, proxyName string) string] *)
Definition withoutDefaultGroupName (proxyName : string) : go_result string :=
  let name := TrimSpace proxyName in
  let idx := Index name "@" in
  if (idx =? -1)%Z then Returns name
  else
    let ci := Index (slice_from name (idx + 1)) "@" in
    if negb (ci =? -1)%Z then
      Panics "Custom group name must be specified at most once"
    else
      let groupName := TrimSpace (slice_from name (idx + 1)) in
      let lgn := ToLower groupName in
      if String.eqb lgn metadataCpGroupName then
        Panics (quote ++ "CP data structures cannot run on the METADATA CP group!"
                  ++ quote)
      else if String.eqb (ToLower groupName) defaultGroupName then
        Returns (slice_to name idx)
      else Returns name.

(** The first two lines of [getOrCreateProxy]: the proxy name and the
    object name under which the proxy is looked up and created. *)
Definition proxy_and_object_name (proxyName : string)
  : go_result (string * string) :=
  match withoutDefaultGroupName proxyName with
  | Panics msg => Panics msg
  | Returns proxyName =>
      match objectNameForProxy proxyName with
      | Panics msg => Panics msg
      | Returns objectName => Returns (proxyName, objectName)
      end
  end.

End ProxyManager.

(** ** The names a CP proxy is made with, in both packages *)

Module CPNames.
Import GoStrings.
Local Open Scope string_scope.

(** The first lines of [proxyFactory.getOrCreateProxy]: the proxy name
    is parsed out of the name, and the object name out of the name as
    it was given; the first error is returned. *)
Definition factory_names (name : string) : (string * string) + error :=
  match ProxyFactory.withoutDefaultGroupName name with
  | inr err => inr err
  | inl pxy =>
      match ProxyFactory.objectNameForProxy name with
      | inr err => inr err
      | inl obj => inl (pxy, obj)
      end
  end.

(** The proxy name and the object name that [getOrCreateProxy] comes
    to work with, in internal/cp and in cp.ProxyManager; [None] when
    the call has failed before. *)
Definition factory_pipeline (name : string) : option (string * string) :=
  match factory_names name with
  | inl names => Some names
  | inr _ => None
  end.

Definition manager_pipeline (name : string) : option (string * string) :=
  match ProxyManager.proxy_and_object_name name with
  | ProxyManager.Returns names => Some names
  | ProxyManager.Panics _ => None
  end.

(** Modelled from the spec: group-name parsing as section 8 words it,
    for a parser [names] that gives a name its proxy name and its
    object name.  The object name of a name without '@' is the trimmed
    name, the object name of "counter@custom" is "counter", a name
    with the group "default", in any case of letters, is parsed like
    the bare name, and the proxy name of "counter@default" is
    "counter". *)
Definition parsing_as_stated (names : string -> option (string * string))
  : Prop :=
  (forall name,
      count_at name = 0%nat ->
      exists pxy, names name = Some (pxy, TrimSpace name)) /\
  (exists pxy, names "counter@custom" = Some (pxy, "counter")) /\
  (forall obj grp,
      count_at obj = 0%nat -> ToLower grp = "default" ->
      names (obj ++ "@" ++ grp) = names obj) /\
  (exists obj, names "counter@default" = Some ("counter", obj)).

(** How the parsing of a name ends in [getOrCreateProxy]: with the
    proxy name and the object name, with an error that is returned,
    or with a panic. *)
Inductive outcome : Type :=
| Parsed (proxyName objectName : string)
| Fails (err : error)
| Panic (msg : string).

Definition factory_outcome (name : string) : outcome :=
  match factory_names name with
  | inl (pxy, obj) => Parsed pxy obj
  | inr err => Fails err
  end.

Definition manager_outcome (name : string) : outcome :=
  match ProxyManager.proxy_and_object_name name with
  | ProxyManager.Returns (pxy, obj) => Parsed pxy obj
  | ProxyManager.Panics msg => Panic msg
  end.

(** The names that section 8 wants refused: a name with more than one
    '@', a name whose group is "metadata" in any case of letters, and
    a name with an '@' that has nothing but white space before it or
    behind it. *)
Definition malformed (name : string) : Prop :=
  (2 <= count_at name)%nat \/
  (exists obj grp,
      TrimSpace name = obj ++ "@" ++ grp /\ count_at obj = 0%nat /\
      ToLower (TrimSpace grp) = "metadata") \/
  (exists obj grp,
      name = obj ++ "@" ++ grp /\ count_at obj = 0%nat /\
      (TrimSpace obj = "" \/ TrimSpace grp = "")).

(** Modelled from the spec: group-name validation as section 8 words
    it, for a parser [parse]: parsing a malformed name fails with an
    invalid-argument error. *)
Definition validation_as_stated (parse : string -> outcome) : Prop :=
  forall name,
    malformed name ->
    exists msg, parse name = Fails (IllegalArgumentError msg).

End CPNames.


(** ** nearcache/types.go: statistics *)

Module NearCacheStats.

(** The counters of [nearcache.Stats] that [Ratio] reads, and the two
    neighbours that the statistics section of the spec names.  All are
    Go [int64]. *)
Record Stats := mkStats {
  OwnedEntryCount : Z;
  Hits : Z;
  Misses : Z;
  Evictions : Z;
  Expirations : Z;
  Invalidations : Z
}.

Definition int64_min : Z := - 2 ^ 63.

(** Go's conversion [float64(x)] of an [int64]: the nearest binary64
    value, ties to even.  [PrimFloat.of_uint63] is that rounding on the
    non-negative range; the rounding is symmetric, so a negative value
    is the negation of its magnitude's image, and [-2^63] is exact. *)
Definition float64_of_int64 (z : Z) : float :=
  if z =? int64_min then PrimFloat.opp 0x1p63%float
  else if z <? 0 then PrimFloat.opp (PrimFloat.of_uint63 (Uint63.of_Z (- z)))
  else PrimFloat.of_uint63 (Uint63.of_Z z).

Definition hundred : float := PrimFloat.of_uint63 100%uint63.

(** [func (s Stats) Ratio() float64] *)
Definition Ratio (s : Stats) : float :=
  if Misses s =? 0 then
    if Hits s =? 0 then PrimFloat.nan
    else PrimFloat.infinity
  else
    PrimFloat.mul
      (PrimFloat.div (float64_of_int64 (Hits s)) (float64_of_int64 (Misses s)))
      hundred.

Definition stats_of (hits misses : Z) : Stats :=
  mkStats 0 hits misses 0 0 0.

End NearCacheStats.

(** ** internal/connection.go: writing, reading and closing *)

Module ConnectionIO.
Import Connection.

(** [const BufferSize = 8192 * 2] *)
Definition BufferSize : Z := 8192 * 2.

(** The rest of [type Connection struct] that [write], [read] and
    [close] touch, around the reader state [core]: the [status] word,
    whether the [closed] channel has been closed, [closedTime], and what
    the connection did to its collaborators: the bytes its socket
    accepted and the calls of [connectionManager.connectionClosed]. *)
Record Link : Type := mkLink {
  core : Connection;
  status : Z;
  closedChannel : bool;
  closedTime : option Z;
  socketAccepted : list Byte.byte;
  socketWrites : nat;
  connectionClosed : list error
}.

Definition set_core (c : Connection) (l : Link) : Link :=
  mkLink c (status l) (closedChannel l) (closedTime l) (socketAccepted l)
         (socketWrites l) (connectionClosed l).

(** The connection before its socket has been used. *)
Definition fresh_link : Link :=
  mkLink (mkConnection [] 0 []) 0 false None [] 0 [].

Inductive outcome (A : Type) : Type :=
| Done (a : A)
| Panic (msg : string).
Arguments Done {A} a.
Arguments Panic {A} msg.

(** [func (connection *Connection) isAlive() bool] *)
Definition isAlive (l : Link) : bool := status l =? 0.

(** [func (connection *Connection) close(err error)], called at time
    [now].  Closing a channel that is closed already panics in Go. *)
Definition close (err : error) (now : Z) (l : Link) : outcome Link :=
  if negb (status l =? 0) then Done l
  else
    if closedChannel l then Panic "close of closed channel"
    else
      Done (mkLink (core l) 1 true (Some now) (socketAccepted l)
                   (socketWrites l) (connectionClosed l ++ [err])).

Fixpoint close_all (calls : list (error * Z)) (l : Link) : outcome Link :=
  match calls with
  | [] => Done l
  | (err, now) :: rest =>
      match close err now l with
      | Done l' => close_all rest l'
      | Panic msg => Panic msg
      end
  end.

(** The socket: what the [k]-th call of [socket.Write], offered [m]
    bytes, answers: how many bytes it took and its error.  A
    [net.Conn] never reports more bytes than it was offered. *)
Definition socket : Type := nat -> nat -> nat * option error.

Definition socket_Write (sock : socket) (p : list Byte.byte) (l : Link)
  : (Z * option error) * Link :=
  let (n, err) := sock (socketWrites l) (List.length p) in
  let n := Nat.min n (List.length p) in
  ((Z.of_nat n, err),
   mkLink (core l) (status l) (closedChannel l) (closedTime l)
          (socketAccepted l ++ firstn n p) (S (socketWrites l))
          (connectionClosed l)).

(** The protocol preamble, the bytes of "CB2". *)
Definition preamble : list Byte.byte := [Byte.x43; Byte.x42; Byte.x32].

(** [func newConnection(...)], after a successful dial at time [now]:
    the preamble goes to the socket in one [socket.Write] whose answer
    is not looked at. *)
Definition newConnection (sock : socket) (now : Z) : Link :=
  let l := mkLink (mkConnection [] now []) 0 false None [] 0 [] in
  snd (socket_Write sock preamble l).

(** The [for] loop of [write], with its two counters; [None] when
    [fuel] iterations did not end it. *)
Fixpoint writeLoop (fuel : nat) (sock : socket) (buffer : list Byte.byte)
    (remainingLen writeIndex : Z) (l : Link) : option (option error * Link) :=
  match fuel with
  | O => None
  | S fuel =>
      if remainingLen >? 0 then
        let '((writtenLen, err), l) :=
          socket_Write sock (slice_from buffer writeIndex) l in
        match err with
        | Some e => Some (Some e, l)
        | None =>
            writeLoop fuel sock buffer (remainingLen - writtenLen)
                      (writeIndex + writtenLen) l
        end
      else Some (None, l)
  end.

(** [func (connection *Connection) write(clientMessage) error], on the
    message's [Buffer]. *)
Definition write (fuel : nat) (sock : socket) (buffer : list Byte.byte)
    (l : Link) : option (option error * Link) :=
  writeLoop fuel sock buffer (len buffer) 0 l.

(** One answer of [socket.Read]: the bytes it put into the buffer, its
    error, and the time. *)
Record read_answer : Type := mkRead {
  readBytes : list Byte.byte;
  readErr : option error;
  readTime : Z
}.

(** [func (connection *Connection) read()], on the answers the socket
    gives one after the other; when they run out the loop waits in
    [socket.Read].  [None] when a [receiveMessage] did not end within
    [fuel] iterations. *)
Fixpoint read (fuel : nat) (answers : list read_answer) (l : Link)
  : option (outcome Link) :=
  match answers with
  | [] => Some (Done l)
  | a :: rest =>
      let n := len (readBytes a) in
      let c := mkConnection (readBuffer (core l) ++ readBytes a)
                            (lastRead (core l)) (onMessage (core l)) in
      let l := set_core c l in
      match readErr a with
      | Some err => Some (close err (readTime a) l)
      | None =>
          if n =? 0 then read fuel rest l
          else
            match receiveMessage fuel (readTime a) c with
            | None => None
            | Some c' => read fuel rest (set_core c' l)
            end
      end
  end.

Definition quiet (a : read_answer) : Prop := readErr a = None.

Definition chunks (answers : list read_answer) : list Byte.byte :=
  List.concat (map readBytes answers).

(** A socket that takes at most three bytes at a time. *)
Definition three_at_a_time : socket := fun _ _ => (3%nat, None).

(** A socket that takes two bytes, then fails. *)
Definition fails_second : socket :=
  fun k _ => match k with
             | O => (2%nat, None)
             | _ => (0%nat, Some (OtherError "broken pipe"))
             end.

End ConnectionIO.

(** ** cp/proxy_manager.go: the proxies the manager keeps *)

Module ProxyCache.
Import GoStrings ProxyManager.

(** [const ( AtomicLongService = ... )] *)
Definition AtomicLongService : string := "hz:raft:atomicLongService".
Definition AtomicReferenceService : string := "hz:raft:atomicRefService".
Definition CountDownLatchService : string := "hz:raft:countDownLatchService".
Definition LockService : string := "hz:raft:lockService".
Definition SemaphoreService : string := "hz:raft:semaphoreService".

Section WithCluster.

(** The group ids, the proxies and their wrappers are declared in
    files that are not embedded, and so are the three functions that
    make them: the group request to the cluster ([m.createGroupId]),
    [newProxy] and the caller's [wrapProxyFn]. *)
Context {GroupId Proxy Wrapper : Type}.
Variable createGroupId : string -> GroupId + error.
Variable newProxy :
  option GroupId -> string -> string -> string -> Proxy + error.
Variable wrapProxyFn : Proxy -> Wrapper + error.

(** [type ProxyManager struct]: the map [proxies], and the names with
    which [m.createGroupId] has been called, oldest first. *)
Record manager : Type := mkManager {
  proxies : list (string * Wrapper);
  groupRequests : list string
}.

(** [m.proxies[proxyName]] *)
Fixpoint lookup (proxyName : string) (m : list (string * Wrapper))
  : option Wrapper :=
  match m with
  | [] => None
  | (k, w) :: rest => if String.eqb k proxyName then Some w
                      else lookup proxyName rest
  end.

(** [m.proxies[proxyName] = wrapper] *)
Definition store (proxyName : string) (wrapper : Wrapper)
    (m : list (string * Wrapper)) : list (string * Wrapper) :=
  (proxyName, wrapper)
  :: filter (fun kw => negb (String.eqb (fst kw) proxyName)) m.

(** [func (m *ProxyManager) getOrCreateProxy(ctx, serviceName, proxyName, wrapProxyFn)].
    The error of the group request is dropped and leaves a nil group
    id. *)
Definition getOrCreateProxy (serviceName proxyName : string) (m : manager)
  : go_result ((Wrapper + error) * manager) :=
  match withoutDefaultGroupName proxyName with
  | Panics msg => Panics msg
  | Returns proxyName =>
      match objectNameForProxy proxyName with
      | Panics msg => Panics msg
      | Returns objectName =>
          let groupId := match createGroupId proxyName with
                         | inl gid => Some gid
                         | inr _ => None
                         end in
          let m := mkManager (proxies m) (groupRequests m ++ [proxyName]) in
          match lookup proxyName (proxies m) with
          | Some wrapper => Returns (inl wrapper, m)
          | None =>
              match lookup proxyName (proxies m) with
              | Some wrapper => Returns (inl wrapper, m)
              | None =>
                  match newProxy groupId serviceName proxyName objectName with
                  | inr err => Returns (inr err, m)
                  | inl p =>
                      match wrapProxyFn p with
                      | inr err => Returns (inr err, m)
                      | inl wrapper =>
                          Returns
                            (inl wrapper,
                             mkManager (store proxyName wrapper (proxies m))
                                       (groupRequests m))
                      end
                  end
              end
          end
      end
  end.

(** [func (m *ProxyManager) GetAtomicLong(ctx, name)]; [wrapProxyFn] is
    then [newAtomicLong]. *)
Definition GetAtomicLong (name : string) (m : manager)
  : go_result ((Wrapper + error) * manager) :=
  getOrCreateProxy AtomicLongService name m.

End WithCluster.

Arguments manager : clear implicits.

(** A cluster that answers every group request with group 1, and
    proxies that are the triple of their names. *)
Definition sample_getOrCreateProxy :=
  @getOrCreateProxy Z (string * string * string) (string * string * string)
    (fun _ => inl 1)
    (fun _ service proxyName objectName =>
       inl (service, proxyName, objectName))
    (fun p => inl p).

End ProxyCache.

(** ** Package hazelcast: creating a client, and its listeners *)

Module ClientAPI.
Import Lifecycle.

(** The events of the user dispatcher that listeners subscribe to. *)
Inductive eventName : Type :=
| eventLifecycleEventStateChanged
| EventMembersAdded
| EventMembersRemoved.

Definition eventName_eqb (a b : eventName) : bool :=
  match a, b with
  | eventLifecycleEventStateChanged, eventLifecycleEventStateChanged
  | EventMembersAdded, EventMembersAdded
  | EventMembersRemoved, EventMembersRemoved => true
  | _, _ => false
  end.

(** Go's [m[k] = v], [delete(m, k)] and [m[k]] on a map with integer
    keys, kept as a list without repeated keys. *)
Definition store {V : Type} (k : Z) (v : V) (m : list (Z * V))
  : list (Z * V) :=
  (k, v) :: filter (fun kv => negb (fst kv =? k)) m.

Definition delete {V : Type} (k : Z) (m : list (Z * V)) : list (Z * V) :=
  filter (fun kv => negb (fst kv =? k)) m.

Fixpoint lookup {V : Type} (k : Z) (m : list (Z * V)) : option V :=
  match m with
  | [] => None
  | (k', v) :: rest => if k' =? k then Some v else lookup k rest
  end.

Section WithComponents.

(** Outside the embedded files: the proxy manager ([PM], as before),
    the handlers the user passes in, and the generator of reference
    ids with its [NextID]. *)
Context {PM LifecycleHandler MembershipHandler RefIDGen : Type}.
Variable NextID : RefIDGen -> Z * RefIDGen.

Inductive handler : Type :=
| OnLifecycle (h : LifecycleHandler)
| OnMembersAdded (h : MembershipHandler)
| OnMembersRemoved (h : MembershipHandler).

(** Modelled from the spec: the dispatcher of section 4.1 keeps, for
    every event, the handlers subscribed under a subscription id;
    [SubscribeSync] adds one and [Unsubscribe] removes what is
    subscribed to the event under the id.  The package internal/event
    is not among the embedded files. *)
Record subscription : Type := mkSubscription {
  subEvent : eventName;
  subID : Z;
  subHandler : handler
}.

Definition SubscribeSync (event : eventName) (subscriptionID : Z)
    (h : handler) (d : list subscription) : list subscription :=
  d ++ [mkSubscription event subscriptionID h].

Definition Unsubscribe (event : eventName) (subscriptionID : Z)
    (d : list subscription) : list subscription :=
  filter (fun s => negb (eventName_eqb (subEvent s) event
                         && (subID s =? subscriptionID))) d.


(** [type Client struct], with the fields of the listeners and the
    name around the lifecycle state of [Lifecycle.Client]. *)
Record Handle : Type := mkHandle {
  client : Client PM;
  name : string;
  lifecyleListenerMap : list (Z * Z);
  membershipListenerMap : list (Z * Z);
  refIDGen : RefIDGen;
  userEventDispatcher : list subscription
}.

Definition with_client (f : Client PM -> Client PM) (c : Handle) : Handle :=
  mkHandle (f (client c)) (name c) (lifecyleListenerMap c)
           (membershipListenerMap c) (refIDGen c) (userEventDispatcher c).

(** [func (c *Client) Name() string] *)
Definition Name (c : Handle) : string := name c.

(** [func (c *Client) addLifecycleListener(subscriptionID, handler)] *)
Definition addLifecycleListener (subscriptionID : Z) (h : LifecycleHandler)
    (c : Handle) : Handle :=
  mkHandle (client c) (name c) (lifecyleListenerMap c)
           (membershipListenerMap c) (refIDGen c)
           (SubscribeSync eventLifecycleEventStateChanged subscriptionID
                          (OnLifecycle h) (userEventDispatcher c)).

(** [func (c *Client) addMembershipListener(subscriptionID, handler)] *)
Definition addMembershipListener (subscriptionID : Z) (h : MembershipHandler)
    (c : Handle) : Handle :=
  mkHandle (client c) (name c) (lifecyleListenerMap c)
           (membershipListenerMap c) (refIDGen c)
           (SubscribeSync EventMembersRemoved subscriptionID
              (OnMembersRemoved h)
              (SubscribeSync EventMembersAdded subscriptionID
                 (OnMembersAdded h) (userEventDispatcher c))).

Definition nextSubscriptionID (c : Handle) : Z * Handle :=
  let (subscriptionID, gen) := NextID (refIDGen c) in
  (subscriptionID,
   mkHandle (client c) (name c) (lifecyleListenerMap c)
            (membershipListenerMap c) gen (userEventDispatcher c)).

(** [func (c *Client) AddLifecycleListener(handler) (types.UUID, error)];
    [uuid] is what [types.NewUUID()] returns, and the zero UUID is 0. *)
Definition AddLifecycleListener (uuid : Z) (h : LifecycleHandler)
    (c : Handle) : (Z * option error) * Handle :=
  if LoadInt32 (client c) >=? stopping then ((0, Some ErrClientNotReady), c)
  else
    let (subscriptionID, c) := nextSubscriptionID c in
    let c := addLifecycleListener subscriptionID h c in
    let c := mkHandle (client c) (name c)
                      (store uuid subscriptionID (lifecyleListenerMap c))
                      (membershipListenerMap c) (refIDGen c)
                      (userEventDispatcher c) in
    ((uuid, None), c).

(** [func (c *Client) RemoveLifecycleListener(subscriptionID types.UUID) error] *)
Definition RemoveLifecycleListener (subscriptionID : Z) (c : Handle)
  : option error * Handle :=
  if LoadInt32 (client c) >=? stopping then (Some ErrClientNotReady, c)
  else
    match lookup subscriptionID (lifecyleListenerMap c) with
    | Some intID =>
        (None,
         mkHandle (client c) (name c)
                  (delete subscriptionID (lifecyleListenerMap c))
                  (membershipListenerMap c) (refIDGen c)
                  (Unsubscribe eventLifecycleEventStateChanged intID
                               (userEventDispatcher c)))
    | None => (None, c)
    end.

(** [func (c *Client) AddMembershipListener(handler) (types.UUID, error)] *)
Definition AddMembershipListener (uuid : Z) (h : MembershipHandler)
    (c : Handle) : (Z * option error) * Handle :=
  if LoadInt32 (client c) >=? stopping then ((0, Some ErrClientNotReady), c)
  else
    let (subscriptionID, c) := nextSubscriptionID c in
    let c := addMembershipListener subscriptionID h c in
    let c := mkHandle (client c) (name c) (lifecyleListenerMap c)
                      (store uuid subscriptionID (membershipListenerMap c))
                      (refIDGen c) (userEventDispatcher c) in
    ((uuid, None), c).

(** [func (c *Client) RemoveMembershipListener(subscriptionID types.UUID) error] *)
Definition RemoveMembershipListener (subscriptionID : Z) (c : Handle)
  : option error * Handle :=
  if LoadInt32 (client c) >=? stopping then (Some ErrClientNotReady, c)
  else
    match lookup subscriptionID (membershipListenerMap c) with
    | Some intID =>
        (None,
         mkHandle (client c) (name c) (lifecyleListenerMap c)
                  (delete subscriptionID (membershipListenerMap c))
                  (refIDGen c)
                  (Unsubscribe EventMembersRemoved intID
                     (Unsubscribe EventMembersAdded intID
                                  (userEventDispatcher c))))
    | None => (None, c)
    end.

(** [config Config], as far as [newClient] looks at it: what
    [config.Validate()], [ilogger.GetLogLevel] and
    [serialization.NewService] answer, the client name, and the
    listeners in the order in which the two [range] loops of
    [addConfigEvents] meet them. *)
Record Config : Type := mkConfig {
  Validate : option error;
  ClientName : string;
  GetLogLevel : option error;
  NewService : option error;
  lifecycleListeners : list (Z * LifecycleHandler);
  membershipListeners : list (Z * MembershipHandler)
}.

(** [func (c *Client) addConfigEvents(config *Config)] *)
Definition addConfigEvents (config : Config) (c : Handle) : Handle :=
  let c :=
    fold_left
      (fun c (entry : Z * LifecycleHandler) =>
         let (uuid, h) := entry in
         let (subscriptionID, c) := nextSubscriptionID c in
         let c := addLifecycleListener subscriptionID h c in
         mkHandle (client c) (name c)
                  (store uuid subscriptionID (lifecyleListenerMap c))
                  (membershipListenerMap c) (refIDGen c)
                  (userEventDispatcher c))
      (lifecycleListeners config) c in
  fold_left
    (fun c (entry : Z * MembershipHandler) =>
       let (uuid, h) := entry in
       let (subscriptionID, c) := nextSubscriptionID c in
       let c := addMembershipListener subscriptionID h c in
       mkHandle (client c) (name c) (lifecyleListenerMap c)
                (store uuid subscriptionID (membershipListenerMap c))
                (refIDGen c) (userEventDispatcher c))
    (membershipListeners config) c.

(** [atomic.AddInt32(&nextId, 1)]: the new value, wrapped to 32 bits. *)
Definition AddInt32 (v delta : Z) : Z :=
  (v + delta + 2 ^ 31) mod 2 ^ 32 - 2 ^ 31.

(** [fmt.Sprintf("hz.client_%d", id)] *)
Definition client_name (id : Z) : string :=
  ("hz.client_" ++ DecimalString.NilEmpty.string_of_int (Z.to_int id))%string.

(** [func newClient(config Config)], with the value of
    the package variable [nextId] before and after, the generator
    [iproxy.NewReferenceIDGenerator()] and the proxy manager that
    [createComponents] builds. *)
Definition newClient (config : Config) (gen : RefIDGen) (pm : PM)
    (nextId : Z) : (Handle + error) * Z :=
  match Validate config with
  | Some err => (inr err, nextId)
  | None =>
      let id := AddInt32 nextId 1 in
      let name := ""%string in
      let name := if negb (String.eqb (ClientName config) "")
                  then ClientName config else name in
      let name := if String.eqb name "" then client_name id else name in
      match GetLogLevel config with
      | Some err => (inr err, id)
      | None =>
          match NewService config with
          | Some err => (inr err, id)
          | None =>
              let c := mkHandle (mkClient created pm []) name [] [] gen [] in
              (inl (addConfigEvents config c), id)
          end
      end
  end.

(** [func StartNewClientWithConfig(config Config)];
    [connStart] is what the connection manager answers to [start]. *)
Definition StartNewClientWithConfig (config : Config) (gen : RefIDGen)
    (pm : PM) (connStart : option error) (nextId : Z)
  : (option Handle * option error) * Z :=
  match newClient config gen pm nextId with
  | (inr err, nextId) => ((None, Some err), nextId)
  | (inl c, nextId) =>
      match start connStart (client c) with
      | (Some err, _) => ((None, Some err), nextId)
      | (None, started) =>
          ((Some (with_client (fun _ => started) c), None), nextId)
      end
  end.

End WithComponents.

(** A client to run the listener calls on: its reference ids count
    up from 1. *)
Definition counting : Z -> Z * Z := fun n => (n, n + 1).

Definition sample_handle : @Handle unit string string Z :=
  mkHandle (mkClient ready tt []) "hz.client_1" [] [] 1 [].

Arguments Handle : clear implicits.
Arguments Config : clear implicits.
Arguments handler : clear implicits.
Arguments subscription : clear implicits.

End ClientAPI.

(** ** Package hazelcast: reading through the near cache *)

Module NearCacheReads.
Import NearCacheMap.

(** A Go [interface{}] as the near cache holds and returns it: nil,
    serialized data, or an object. *)
Inductive value : Type :=
| Nil
| IsData (d : string)
| IsObject (o : string).

Definition is_nil (v : value) : bool :=
  match v with Nil => true | _ => false end.

Section WithCollaborators.

Context {W : Type}.

(** What the reading functions call outside the embedded files:
    [ncm.nc.Get], [ncm.ss.ToObject], [m.validateAndSerialize],
    [ncm.nc.TryReserveForUpdate], [m.getFromRemote],
    [ncm.nc.TryPublishReserved], [m.containsKeyFromRemote], the
    constant [inearcache.RecordNotReserved], and, for
    [newNearCacheMap], [p.listenerBinder.Add]. *)
Record readers : Type := {
  ncGet : nckey -> M W (value * bool + error);
  ToObject : string -> value + error;
  validateAndSerialize : nckey -> string + error;
  TryReserveForUpdate : nckey -> string -> M W (Z + error);
  mapGetFromRemote : string -> M W (value + error);
  TryPublishReserved : nckey -> value -> Z -> M W (value + error);
  containsKeyFromRemote : nckey -> M W (bool + error);
  RecordNotReserved : Z;
  listenerBinderAdd : string -> bool -> M W (option error)
}.

Variable env : collaborators W.
Variable rd : readers.
Variable SerializeKeys : bool.

(** [func (ncm *nearCacheMap) getCachedValue(key, deserialize)]: the
    value and [found], or the error. *)
Definition getCachedValue (key : nckey) (deserialize : bool)
  : M W (value * bool + error) :=
  fun w =>
    let (r, w) := ncGet rd key w in
    match r with
    | inr err => (inr err, w)
    | inl (v, found) =>
        if negb found then (inl (Nil, false), w)
        else if is_nil v then (inl (Nil, true), w)
        else if deserialize then
          match v with
          | IsData data =>
              match ToObject rd data with
              | inr err => (inr err, w)
              | inl v => (inl (v, true), w)
              end
          | _ => (inl (v, true), w)
          end
        else (inl (v, true), w)
    end.

(** What a hit hands to the caller of [Get]: nil stays nil, data are
    turned into an object, an object is returned as it is. *)
Definition hit_value (v : value) : value + error :=
  match v with
  | Nil => inl Nil
  | IsData data => ToObject rd data
  | IsObject o => inl (IsObject o)
  end.

(** [func (ncm *nearCacheMap) getFromRemote(ctx, m, key)] *)
Definition getFromRemote (key : nckey) : M W (value + error) :=
  fun w =>
    match validateAndSerialize rd key with
    | inr err => (inr err, w)
    | inl keyData =>
        let (r, w) := TryReserveForUpdate rd key keyData w in
        match r with
        | inr err => (inr err, w)
        | inl rid =>
            let (r, w) := mapGetFromRemote rd keyData w in
            match r with
            | inr err => (inr err, w)
            | inl v =>
                if negb (rid =? RecordNotReserved rd) then
                  let (r, w) := TryPublishReserved rd key v rid w in
                  match r with
                  | inr err => (inr err, w)
                  | inl v => (inl v, w)
                  end
                else (inl v, w)
            end
        end
    end.

(** [func (ncm *nearCacheMap) Get(ctx, m, key)] *)
Definition Get (key : string) : M W (value + error) :=
  fun w =>
    match toNearCacheKey env SerializeKeys key with
    | inr err => (inr err, w)
    | inl key =>
        let (r, w) := getCachedValue key true w in
        match r with
        | inr err => (inr err, w)
        | inl (cached, found) =>
            if found then (inl cached, w)
            else
              let (r, w) := getFromRemote key w in
              match r with
              | inr err => (inr err, Invalidate env key w)
              | inl v => (inl v, w)
              end
        end
    end.

(** [func (ncm *nearCacheMap) ContainsKey(ctx, key, m)] *)
Definition ContainsKey (key : string) : M W (bool + error) :=
  fun w =>
    match toNearCacheKey env SerializeKeys key with
    | inr err => (inr err, w)
    | inl key =>
        let (r, w) := getCachedValue key false w in
        match r with
        | inr err => (inr err, w)
        | inl (cached, ok) =>
            if ok then (inl (negb (is_nil cached)), w)
            else containsKeyFromRemote rd key w
        end
    end.

(** A call returns or panics. *)
Inductive go_result (A : Type) : Type :=
| Returns (a : A)
| Panics (msg : string).

(** [func (ncm *nearCacheMap) preload() error] *)
Definition preload : go_result (option error) :=
  Panics (option error) "implement me!".

(** [fmt.Errorf(format, err)] with a format that ends in [%w], and
    [lg.Debug] with the message it is to write. *)
Variable Errorf : string -> error -> error.
Variable Debug : string -> W -> W.

(** [fmt.Sprintf("registering invalidation listener: name: %s, local: %t", name, local)] *)
Definition registering_message (name : string) (local : bool) : string :=
  ("registering invalidation listener: name: " ++ name ++ ", local: "
   ++ (if local then "true" else "false"))%string.

(** [func newNearCacheMap(ctx, nc, ncc, ss, lg, name, p, local)]:
    [InvalidateOnChange] and [PreloaderEnabled] are the two settings
    of [ncc] it looks at besides [SerializeKeys]; the result is the
    map's key function. *)
Definition newNearCacheMap (InvalidateOnChange PreloaderEnabled : bool)
    (name : string) (local : bool) (w : W)
  : go_result ((string -> nckey + error) + error) * W :=
  let (registered, w) :=
    if InvalidateOnChange then
      listenerBinderAdd rd name local
                        (Debug (registering_message name local) w)
    else (None, w) in
  match registered with
  | Some err =>
      (Returns _
         (inr (Errorf "hazelcast.newNearCacheMap: preloading near cache: %w"
                      err)), w)
  | None =>
      if PreloaderEnabled then
        match preload with
        | Panics _ msg => (Panics _ msg, w)
        | Returns _ (Some err) =>
            (Returns _ (inr (Errorf "preloading near cache: %w" err)), w)
        | Returns _ None =>
            (Returns _ (inl (toNearCacheKey env SerializeKeys)), w)
        end
      else (Returns _ (inl (toNearCacheKey env SerializeKeys)), w)
  end.

End WithCollaborators.

Arguments readers : clear implicits.
Arguments Returns {A} a.
Arguments Panics {A} msg.

(** Readers on the sample world: the near cache is looked up in its
    records, reserving always answers 5 and publishing returns the
    value; the remote map holds "remote" under every key, or fails. *)
Definition model_readers (failure : option error) : readers world :=
  {| ncGet := fun k w =>
       match filter (fun r => nckey_eqb (recKey r) k) (records w) with
       | r :: _ => (inl (IsData (recValue r), true), w)
       | [] => (inl (Nil, false), w)
       end;
     ToObject := fun data => inl (IsObject data);
     validateAndSerialize := fun k =>
       match k with RawKey s => inl s | DataKey d => inl d end;
     TryReserveForUpdate := fun _ _ w => (inl 5, w);
     mapGetFromRemote := fun _ =>
       model_remote "get"
         (match failure with
          | Some err => inr err
          | None => inl (IsObject "remote")
          end) (RawKey "");
     TryPublishReserved := fun _ v _ w => (inl v, w);
     containsKeyFromRemote := model_remote "containsKey" (inl true);
     RecordNotReserved := -1;
     listenerBinderAdd := fun _ _ w => (None, w) |}.

End NearCacheReads.

(** ** Package driver: the result of an SQL query *)

Module SQLDriver.

(** [const ( open int32 = 0; closed int32 = 1 )] *)
Definition open : Z := 0.
Definition closed : Z := 1.

(** The conversion [int32(n)] and the increment of an [int32]. *)
Definition int32 (n : Z) : Z := (n + 2 ^ 31) mod 2 ^ 32 - 2 ^ 31.

Definition len {A : Type} (l : list A) : Z := Z.of_nat (List.length l).

Section WithService.

(** [driver.Value] is opaque.  The SQL service is outside the embedded
    file: [fetch k] is what the [k]-th call of [r.ss.fetch] answers,
    [closeQuery k] what the [k]-th call of [r.ss.closeQuery] answers,
    and [Errorf] is [fmt.Errorf("fetching the next page: %w", err)]. *)
Context {Value : Type}.

(** [sql.Page]: the columns, each with one value per row, and whether
    the page is the last one. *)
Record Page : Type := mkPage {
  Columns : list (list Value);
  Last : bool
}.

Variable fetch : nat -> Page + error.
Variable closeQuery : nat -> option error.
Variable Errorf : error -> error.

(** [type QueryResult struct], with the names of [metadata.Columns]
    and the numbers of calls made to the service so far. *)
Record QueryResult : Type := mkQueryResult {
  err : option error;
  page : Page;
  columnNames : list string;
  cursorBufferSize : Z;
  index : Z;
  state : Z;
  fetches : nat;
  closeQueries : nat
}.

(** [func NewQueryResult(qid, md, page, ss, conn, cbs)] *)
Definition NewQueryResult (names : list string) (p : Page) (cbs : Z)
  : QueryResult :=
  mkQueryResult None p names cbs 0 0 0 0.

(** [func (r *QueryResult) Columns() []string] *)
Definition ColumnNames (r : QueryResult) : list string := columnNames r.

(** [func (r *QueryResult) Close() error] *)
Definition Close (r : QueryResult) : option error * QueryResult :=
  if state r =? open then
    let answer := closeQuery (closeQueries r) in
    let r := mkQueryResult (err r) (page r) (columnNames r)
                           (cursorBufferSize r) (index r) closed
                           (fetches r) (S (closeQueries r)) in
    match answer with
    | Some e => (Some e, r)
    | None => (None, r)
    end
  else (None, r).

(** [func (r *QueryResult) fetchNextPage() error] *)
Definition fetchNextPage (r : QueryResult) : option error * QueryResult :=
  let answer := fetch (fetches r) in
  let r := mkQueryResult (err r) (page r) (columnNames r)
                         (cursorBufferSize r) (index r) (state r)
                         (S (fetches r)) (closeQueries r) in
  match answer with
  | inr e => (Some (Errorf e), r)
  | inl p =>
      (None,
       mkQueryResult None p (columnNames r) (cursorBufferSize r) 0 (state r)
                     (fetches r) (closeQueries r))
  end.

(** What a call of [Next] ends with: nil and the filled [dest], an
    error ([io.EOF] apart), [io.EOF], or an index-out-of-range panic. *)
Inductive next_result : Type :=
| NextRow (dest : list Value)
| NextError (e : error)
| NextEOF
| NextPanic.

(** The loop [for i := 0; i < len(cols); i++ { dest[i] = cols[i][r.index] }],
    from column [i] on; [None] when an index is out of range. *)
Fixpoint fill (cols : list (list Value)) (i : nat) (index : Z)
    (dest : list Value) : option (list Value) :=
  match cols with
  | [] => Some dest
  | col :: rest =>
      if (index <? 0) || (len col <=? index) then None
      else if (List.length dest <=? i)%nat then None
      else
        match nth_error col (Z.to_nat index) with
        | None => None
        | Some v => fill rest (S i) index (update i v dest)
        end
  end.

Definition set_index (i : Z) (r : QueryResult) : QueryResult :=
  mkQueryResult (err r) (page r) (columnNames r) (cursorBufferSize r) i
                (state r) (fetches r) (closeQueries r).

Definition set_state (s : Z) (r : QueryResult) : QueryResult :=
  mkQueryResult (err r) (page r) (columnNames r) (cursorBufferSize r)
                (index r) s (fetches r) (closeQueries r).

(** The end of [Next]: the copy into [dest] and [r.index++]. *)
Definition copy_row (cols : list (list Value)) (dest : list Value)
    (r : QueryResult) : next_result * QueryResult :=
  match fill cols 0 (index r) dest with
  | None => (NextPanic, r)
  | Some dest => (NextRow dest, set_index (int32 (index r + 1)) r)
  end.

(** [func (r *QueryResult) Next(dest []driver.Value) error] *)
Definition Next (dest : list Value) (r : QueryResult)
  : next_result * QueryResult :=
  let cols := Columns (page r) in
  if len cols =? 0 then (NextEOF, r)
  else
    let rowCount := int32 (len (hd [] cols)) in
    if index r >=? rowCount then
      if Last (page r) then (NextEOF, set_state closed r)
      else
        match fetchNextPage r with
        | (Some e, r) => (NextError e, r)
        | (None, r) => copy_row (Columns (page r)) dest r
        end
    else copy_row cols dest r.

(** [Next] called again and again, as [database/sql] does, until it
    returns something else than nil or [fuel] calls are made; the rows
    are the contents of [dest] after each call. *)
Fixpoint drain (fuel : nat) (dest : list Value) (r : QueryResult)
  : list (list Value) * option next_result * QueryResult :=
  match fuel with
  | O => ([], None, r)
  | S fuel =>
      match Next dest r with
      | (NextRow row, r) =>
          let '(rows, last, r) := drain fuel row r in
          (row :: rows, last, r)
      | (other, r) => ([], Some other, r)
      end
  end.

(** [Close] called [n] times in a row, with what each call returns. *)
Fixpoint closes (n : nat) (r : QueryResult)
  : list (option error) * QueryResult :=
  match n with
  | O => ([], r)
  | S n =>
      let (e, r) := Close r in
      let (es, r) := closes n r in
      (e :: es, r)
  end.

(** Row [j] of a page: the [j]-th value of every column. *)
Definition row (cols : list (list Value)) (j : nat) : list Value :=
  flat_map (fun col => match nth_error col j with
                       | Some v => [v]
                       | None => []
                       end) cols.

Definition rows (p : Page) : list (list Value) :=
  map (row (Columns p)) (seq 0 (List.length (hd [] (Columns p)))).

(** A page of [c] columns that all have the same number of rows. *)
Definition shaped (c : nat) (p : Page) : Prop :=
  List.length (Columns p) = c /\
  Forall (fun col => List.length col = List.length (hd [] (Columns p)))
         (Columns p) /\
  len (hd [] (Columns p)) < 2 ^ 31.

(** The number of rows of a page, and the pages of a result: only the
    last one says that it is the last. *)
Definition rowCount (p : Page) : nat := List.length (hd [] (Columns p)).

Fixpoint last_only (p : Page) (ps : list Page) : bool :=
  match ps with
  | [] => Last p
  | q :: qs => negb (Last p) && last_only q qs
  end.

End WithService.

Arguments Page : clear implicits.
Arguments QueryResult : clear implicits.
Arguments next_result : clear implicits.

(** A result of three rows in two pages, and a service that has the
    second page and closes queries without an error. *)
Definition sample_page0 : Page Z := mkPage [[1; 2]; [10; 20]] false.
Definition sample_page1 : Page Z := mkPage [[3]; [30]] true.
Definition sample_empty_page : Page Z := mkPage [[]; []] true.

Definition sample_fetch (k : nat) : Page Z + error :=
  match k with
  | O => inl sample_page1
  | S _ => inr (OtherError "no more pages")
  end.

Definition failing_fetch (k : nat) : Page Z + error :=
  match k with
  | O => inr (OtherError "connection lost")
  | S _ => inl sample_page1
  end.

Definition empty_fetch (k : nat) : Page Z + error := inl sample_empty_page.

Definition sample_closeQuery (k : nat) : option error :=
  Some (OtherError "member is gone").

Definition sample_Errorf (e : error) : error :=
  match e with
  | OtherError msg => OtherError ("fetching the next page: " ++ msg)
  | e => e
  end.

End SQLDriver.

(** ** Package compatibility: the byte-array serializer of the
    reference objects *)

Module Compatibility.

(** [const CustomByteArraySerializableId = 2] *)
Definition CustomByteArraySerializableId : Z := 2.

(** The conversions [byte(v)], [int32(u)] of a [uint32] and [uint32(i)]
    of an [int32]. *)
Definition byte_of (v : Z) : Byte.byte :=
  match Byte.of_N (Z.to_N (v mod 256)) with
  | Some b => b
  | None => Byte.x00
  end.

Definition int32 (u : Z) : Z := if u <? 2 ^ 31 then u else u - 2 ^ 32.

(** [binary.LittleEndian.PutUint32], as the four bytes it writes. *)
Definition PutUint32 (v : Z) : list Byte.byte :=
  [byte_of v; byte_of (Z.shiftr v 8); byte_of (Z.shiftr v 16);
   byte_of (Z.shiftr v 24)].

(** [binary.Write(buf, binary.LittleEndian, v)] for a value of four
    bytes, given as a [uint32], on a [bytes.Buffer]: the bytes are put
    behind the contents, and no error comes back. *)
Definition binary_Write (buf : list Byte.byte) (v : Z)
  : option error * list Byte.byte :=
  (None, (buf ++ PutUint32 v)%list).

(** [binary.Read(buf, binary.LittleEndian, &v)] for a value of four
    bytes: an error when the buffer has fewer than four bytes left. *)
Definition binary_Read (buf : list Byte.byte)
  : (error + Z) * list Byte.byte :=
  if (List.length buf <? 4)%nat
  then (inl (OtherError (if (List.length buf =? 0)%nat
                         then "EOF" else "unexpected EOF")), [])
  else (inr (Connection.Uint32 buf), skipn 4 buf).

(** How [Write] ends: with the byte array handed to
    [output.WriteByteArray], with [panic] of a string or with [panic]
    of an error. *)
Inductive write_result : Type :=
| Written (b : list Byte.byte)
| PanicString (msg : string)
| PanicError (e : error).

(** [make([]byte, n)] *)
Definition make (n : nat) : list Byte.byte := repeat Byte.x00 n.

Section WithFloat32.

(** [float32] with [math.Float32bits] and [math.Float32frombits]. *)
Variable float32 : Type.
Variable Float32bits : float32 -> Z.
Variable Float32frombits : Z -> float32.

(** [type CustomByteArraySerializable struct { i int32; f float32 }] *)
Record CustomByteArraySerializable : Type := mkCBA {
  i : Z;
  f : float32
}.

(** The values of [interface{}] that the serializer meets: nil, a
    [CustomByteArraySerializable], a pointer to one, or something else. *)
Inductive object : Type :=
| Nil
| Value (x : CustomByteArraySerializable)
| Pointer (x : CustomByteArraySerializable)
| Other.

(** [func (e CustomByteArraySerializer) ID() (id int32)] *)
Definition ID : Z := CustomByteArraySerializableId.

(** [func (e CustomByteArraySerializer) Read(input serialization.DataInput) interface{}],
    on the byte array that [input.ReadByteArray()] returns. *)
Definition Read (input : list Byte.byte) : object :=
  let buf := input in
  match binary_Read buf with
  | (inl _, _) => Nil
  | (inr i, buf) =>
      match binary_Read buf with
      | (inl _, _) => Nil
      | (inr f, _) => Value (mkCBA (int32 i) (Float32frombits f))
      end
  end.

(** [func (e CustomByteArraySerializer) Write(output serialization.DataOutput, object interface{})] *)
Definition Write (o : object) : write_result :=
  match o with
  | Pointer cba =>
      let buf := make 10 in
      match binary_Write buf (Connection.uint32 (i cba)) with
      | (Some e, _) => PanicError e
      | (None, buf) =>
          match binary_Write buf (Float32bits (f cba)) with
          | (Some e, _) => PanicError e
          | (None, buf) => Written buf
          end
      end
  | _ => PanicString "can serialize only CustomByteArraySerializable"
  end.

End WithFloat32.

Arguments i {float32} _.
Arguments f {float32} _.
Arguments mkCBA {float32} _ _.
Arguments Nil {float32}.
Arguments Value {float32} _.
Arguments Pointer {float32} _.
Arguments Other {float32}.

(** A [float32] given by its 32 bits. *)
Definition bits32 : Type := Z.
Definition bits_of (x : bits32) : Z := x mod 2 ^ 32.
Definition of_bits (z : Z) : bits32 := z.

End Compatibility.

(** * Properties *)

Module NearCacheStatsFacts.
Import NearCacheStats.

Example Ratio_1_2 : Ratio (stats_of 1 2) = 50%float.
Proof. vm_compute. reflexivity. Qed.

Example Ratio_3_4 : Ratio (stats_of 3 4) = 75%float.
Proof. vm_compute. reflexivity. Qed.

Example Ratio_0_0_is_nan : PrimFloat.is_nan (Ratio (stats_of 0 0)) = true.
Proof. vm_compute. reflexivity. Qed.

Example Ratio_5_0_is_inf :
  Ratio (stats_of 5 0) = PrimFloat.infinity.
Proof. reflexivity. Qed.

(** C9. For every Stats value, Ratio() is the binary64 quotient of the
    converted hit and miss counters, times 100, when misses > 0; it is
    +infinity when misses = 0 and hits > 0; it is NaN when both counters
    are zero. *)
Theorem Ratio_spec (s : Stats) :
  (Misses s > 0 ->
     Ratio s =
     PrimFloat.mul
       (PrimFloat.div (float64_of_int64 (Hits s))
                      (float64_of_int64 (Misses s)))
       hundred) /\
  (Misses s = 0 -> Hits s > 0 -> Ratio s = PrimFloat.infinity) /\
  (Misses s = 0 -> Hits s = 0 ->
     Ratio s = PrimFloat.nan /\ PrimFloat.is_nan (Ratio s) = true).
Proof.
  unfold Ratio. split; [| split].
  - intros Hm. destruct (Z.eqb_spec (Misses s) 0); [lia | reflexivity].
  - intros Hm Hh. rewrite Hm. simpl.
    destruct (Z.eqb_spec (Hits s) 0); [lia | reflexivity].
  - intros Hm Hh. rewrite Hm, Hh. split; reflexivity.
Qed.

Lemma Ratio_spec_witness :
  (Misses (stats_of 1 2) > 0 /\ Ratio (stats_of 1 2) = 50%float) /\
  (Misses (stats_of 5 0) = 0 /\ Hits (stats_of 5 0) > 0 /\
   Ratio (stats_of 5 0) = PrimFloat.infinity) /\
  (Misses (stats_of 0 0) = 0 /\ Hits (stats_of 0 0) = 0 /\
   PrimFloat.is_nan (Ratio (stats_of 0 0)) = true).
Proof.
  pose proof (Ratio_spec (stats_of 1 2)) as [H1 _].
  pose proof (Ratio_spec (stats_of 5 0)) as [_ [H2 _]].
  pose proof (Ratio_spec (stats_of 0 0)) as [_ [_ H3]].
  split; [| split].
  - split; [simpl; lia |].
    rewrite H1 by (simpl; lia). vm_compute. reflexivity.
  - split; [reflexivity | split; [simpl; lia |]].
    apply H2; simpl; [reflexivity | lia].
  - split; [reflexivity | split; [reflexivity |]].
    apply H3; reflexivity.
Defined.

End NearCacheStatsFacts.

Module LifecycleFacts.
Import Lifecycle.

Lemma nth_error_update {A : Type} (l : list A) (i j : nat) (x : A) :
  nth_error (update i x l) j =
  if Nat.eqb i j
  then match nth_error l i with Some _ => Some x | None => None end
  else nth_error l j.
Proof.
  revert i j; induction l as [| h t IH]; intros [| i] [| j]; simpl;
    try reflexivity.
  - destruct (Nat.eqb i j); reflexivity.
  - apply IH.
Qed.

Lemma length_update {A : Type} (l : list A) (i : nat) (x : A) :
  List.length (update i x l) = List.length l.
Proof.
  revert i; induction l as [| h t IH]; intros [| i]; simpl; congruence.
Qed.

Lemma chain_succ (s s' : Z) : chain s s' -> s' = s + 1.
Proof. destruct 1; reflexivity. Qed.

Section Facts.

Context {PM Proxy : Type}.
Variable ops : @proxyManagerOps PM Proxy.

Implicit Types (c : Client PM) (p q : pc) (ts : list pc).

(** *** One call at a time *)

Lemma start_not_created connStart c :
  state c <> created -> start connStart c = (Some ErrClientCannotStart, c).
Proof.
  intros H. unfold start, CompareAndSwapInt32.
  destruct (Z.eqb_spec (state c) created); [contradiction | reflexivity].
Qed.

Lemma start_created_fails err c :
  state c = created ->
  fst (start (Some err) c) = Some err /\
  state (snd (start (Some err) c)) = starting.
Proof.
  intros H. unfold start, CompareAndSwapInt32. rewrite H. simpl. auto.
Qed.

Lemma start_created_succeeds c :
  state c = created ->
  fst (start None c) = None /\ state (snd (start None c)) = ready.
Proof.
  intros H. unfold start, CompareAndSwapInt32. rewrite H. simpl. auto.
Qed.

Lemma Shutdown_not_ready c :
  state c <> ready -> Shutdown c = (Some ErrClientNotReady, c).
Proof.
  intros H. unfold Shutdown, CompareAndSwapInt32.
  destruct (Z.eqb_spec (state c) ready); [contradiction | reflexivity].
Qed.

Lemma Shutdown_ready c :
  state c = ready ->
  fst (Shutdown c) = None /\ state (snd (Shutdown c)) = stopped.
Proof.
  intros H. unfold Shutdown, CompareAndSwapInt32. rewrite H. simpl. auto.
Qed.

Lemma accessor_not_ready k name c :
  state c <> ready -> accessor ops k name c = (inr ErrClientNotReady, c).
Proof.
  intros H.
  destruct k; simpl;
    unfold GetMap, GetReplicatedMap, GetQueue, GetTopic, GetList, LoadInt32;
    destruct (Z.eqb_spec (state c) ready); try contradiction; reflexivity.
Qed.

Lemma accessor_ready k name c :
  state c = ready ->
  accessor ops k name c = delegate (getter ops k) name c.
Proof.
  intros H.
  destruct k; simpl;
    unfold GetMap, GetReplicatedMap, GetQueue, GetTopic, GetList, LoadInt32;
    rewrite H; reflexivity.
Qed.

(** *** A thread run alone is the call *)

Lemma start_is_four_steps connStart c :
  run [0; 0; 0; 0]%nat (c, [AtStart connStart]) =
  (snd (start connStart c), [Returned (fst (start connStart c))]).
Proof.
  unfold start, CompareAndSwapInt32. simpl. unfold CompareAndSwapInt32.
  destruct (state c =? created); simpl; [| reflexivity].
  destruct connStart; reflexivity.
Qed.

Lemma Shutdown_is_four_steps c :
  run [0; 0; 0; 0]%nat (c, [AtShutdown]) =
  (snd (Shutdown c), [Returned (fst (Shutdown c))]).
Proof.
  unfold Shutdown, CompareAndSwapInt32. simpl. unfold CompareAndSwapInt32.
  destruct (state c =? ready); reflexivity.
Qed.

(** *** Interleaved callers *)

Lemma run_app sch1 sch2 (cfg : config PM) :
  run (sch1 ++ sch2) cfg = run sch2 (run sch1 cfg).
Proof.
  revert cfg; induction sch1 as [| i sch1 IH]; intros cfg; simpl;
    [reflexivity | apply IH].
Qed.

Lemma owns_values p s : owns p = Some s -> s = starting \/ s = stopping.
Proof. destruct p; simpl; intros H; inversion H; auto. Qed.

(** What one step of a thread does to the state and to its ownership. *)
Inductive step_kind (p : pc) (c : Client PM) (p' : pc) (c' : Client PM)
  : Prop :=
| SkQuiet :
    state c' = state c -> owns p' = owns p \/ owns p' = None ->
    step_kind p c p' c'
| SkAcquire :
    owns p = None -> owns p' = Some (state c') -> chain (state c) (state c') ->
    step_kind p c p' c'
| SkRelease s :
    owns p = Some s -> owns p' = None -> chain s (state c') ->
    step_kind p c p' c'.

Lemma thread_step_kind p c :
  step_kind p c (fst (thread_step p c)) (snd (thread_step p c)).
Proof.
  destruct p; simpl; unfold CompareAndSwapInt32.
  - destruct (Z.eqb_spec (state c) created) as [E | E]; simpl.
    + apply SkAcquire; simpl; auto. rewrite E. constructor.
    + apply SkQuiet; simpl; auto.
  - destruct connStart; simpl; apply SkQuiet; simpl; auto.
  - apply SkRelease with starting; simpl; auto. constructor.
  - apply SkQuiet; simpl; auto.
  - destruct (Z.eqb_spec (state c) ready) as [E | E]; simpl.
    + apply SkAcquire; simpl; auto. rewrite E. constructor.
    + apply SkQuiet; simpl; auto.
  - apply SkQuiet; simpl; auto.
  - apply SkRelease with stopping; simpl; auto. constructor.
  - apply SkQuiet; simpl; auto.
  - apply SkQuiet; simpl; auto.
Qed.

Lemma sched_step_unfold i c ts p :
  nth_error ts i = Some p ->
  sched_step i (c, ts) =
  (snd (thread_step p c), update i (fst (thread_step p c)) ts).
Proof.
  intros H. unfold sched_step. rewrite H.
  destruct (thread_step p c); reflexivity.
Qed.

Lemma sched_step_outside i c ts :
  nth_error ts i = None -> sched_step i (c, ts) = (c, ts).
Proof. intros H. unfold sched_step. rewrite H. reflexivity. Qed.

Lemma nth_error_update_same ts i p p' :
  nth_error ts i = Some p -> nth_error (update i p' ts) i = Some p'.
Proof.
  intros H. rewrite nth_error_update, Nat.eqb_refl, H. reflexivity.
Qed.

Lemma nth_error_update_other ts i j p' :
  i <> j -> nth_error (update i p' ts) j = nth_error ts j.
Proof.
  intros H. rewrite nth_error_update.
  destruct (Nat.eqb_spec i j); [contradiction | reflexivity].
Qed.

Lemma owner_inv_step i (cfg : config PM) :
  owner_inv cfg ->
  owner_inv (sched_step i cfg) /\
  (state (fst (sched_step i cfg)) = state (fst cfg) \/
   chain (state (fst cfg)) (state (fst (sched_step i cfg)))).
Proof.
  destruct cfg as [c ts]. intros Inv.
  destruct (nth_error ts i) as [p |] eqn:Hi.
  2:{ rewrite sched_step_outside by assumption. auto. }
  rewrite (sched_step_unfold _ _ _ _ Hi).
  pose proof (thread_step_kind p c) as K.
  destruct (thread_step p c) as [p' c']; simpl in *.
  unfold owner_inv in *; simpl in *.
  assert (Hsame : nth_error (update i p' ts) i = Some p')
    by (eapply nth_error_update_same; eassumption).
  destruct K as [Hst Hown | Hnone Hown Hch | s Hs Hown Hch].
  - split; [| left; assumption].
    intros a pa sa Ha Hoa.
    destruct (Nat.eq_dec i a) as [-> | Hne].
    + rewrite Hsame in Ha. inversion Ha; subst pa.
      destruct Hown as [Hown | Hown]; [| congruence].
      rewrite Hown in Hoa.
      destruct (Inv a p sa Hi Hoa) as [E U].
      split; [congruence |].
      intros j q Hj Hq.
      destruct (Nat.eq_dec a j) as [-> | Hne]; [reflexivity |].
      rewrite nth_error_update_other in Hj by assumption.
      apply (U j q Hj Hq).
    + rewrite nth_error_update_other in Ha by assumption.
      destruct (Inv a pa sa Ha Hoa) as [E U].
      split; [congruence |].
      intros j q Hj Hq.
      destruct (Nat.eq_dec i j) as [-> | Hne'].
      * rewrite Hsame in Hj. inversion Hj; subst q.
        destruct Hown as [Hown | Hown]; [| congruence].
        rewrite Hown in Hq. apply (U j p Hi Hq).
      * rewrite nth_error_update_other in Hj by assumption.
        apply (U j q Hj Hq).
  - assert (Free : forall a pa, nth_error ts a = Some pa -> owns pa = None).
    { intros a pa Ha. destruct (owns pa) as [sa |] eqn:Hoa; [| reflexivity].
      destruct (Inv a pa sa Ha Hoa) as [E _].
      exfalso. apply chain_succ in Hch.
      destruct (owns_values _ _ Hoa) as [E1 | E1];
        destruct (owns_values _ _ Hown) as [E2 | E2];
        unfold starting, stopping in *; lia. }
    split; [| right; assumption].
    intros a pa sa Ha Hoa.
    destruct (Nat.eq_dec i a) as [-> | Hne].
    + rewrite Hsame in Ha. inversion Ha; subst pa.
      split; [congruence |].
      intros j q Hj Hq.
      destruct (Nat.eq_dec a j) as [-> | Hne]; [reflexivity |].
      rewrite nth_error_update_other in Hj by assumption.
      apply Free in Hj. contradiction.
    + rewrite nth_error_update_other in Ha by assumption.
      apply Free in Ha. congruence.
  - destruct (Inv i p s Hi Hs) as [E U].
    split; [| right; rewrite E; assumption].
    intros a pa sa Ha Hoa.
    destruct (Nat.eq_dec i a) as [-> | Hne].
    + rewrite Hsame in Ha. inversion Ha; subst pa. congruence.
    + rewrite nth_error_update_other in Ha by assumption.
      exfalso. apply Hne. symmetry. apply (U a pa Ha). congruence.
Qed.

Lemma owner_inv_run sch (cfg : config PM) :
  owner_inv cfg -> owner_inv (run sch cfg).
Proof.
  revert cfg; induction sch as [| i sch IH]; intros cfg Inv; simpl;
    [assumption |].
  apply IH. apply owner_inv_step. assumption.
Qed.

Lemma owner_inv_entry c ts : Forall entry ts -> owner_inv (c, ts).
Proof.
  intros H i p s Hi Ho. simpl in Hi.
  apply nth_error_In in Hi. rewrite Forall_forall in H.
  destruct (H p Hi) as [[cs ->] | ->]; discriminate.
Qed.

Lemma along_chain_states sch (cfg : config PM) :
  owner_inv cfg -> along_chain (state (fst cfg)) (states_seen sch cfg).
Proof.
  revert cfg; induction sch as [| i sch IH]; intros cfg Inv; simpl;
    [exact I |].
  destruct (owner_inv_step i cfg Inv) as [Inv' Hst].
  split; [assumption | apply IH; assumption].
Qed.

Lemma state_never_goes_back sch (cfg : config PM) :
  owner_inv cfg -> state (fst cfg) <= state (fst (run sch cfg)).
Proof.
  revert cfg; induction sch as [| i sch IH]; intros cfg Inv; simpl;
    [lia |].
  destruct (owner_inv_step i cfg Inv) as [Inv' Hst].
  specialize (IH _ Inv').
  destruct Hst as [E | Hc]; [lia | apply chain_succ in Hc; lia].
Qed.

Lemma update_update {A : Type} (l : list A) (i : nat) (x y : A) :
  update i x (update i y l) = update i x l.
Proof.
  revert i; induction l as [| h t IH]; intros [| i]; simpl;
    try reflexivity.
  rewrite IH. reflexivity.
Qed.

Local Arguments sched_step : simpl never.

(** A caller that is not interrupted is the sequential call, whatever
    the other threads of the pool are doing. *)
Lemma start_uninterrupted i connStart c ts :
  nth_error ts i = Some (AtStart connStart) ->
  run [i; i; i; i] (c, ts) =
  (snd (start connStart c), update i (Returned (fst (start connStart c))) ts).
Proof.
  intros Hi. simpl.
  rewrite (sched_step_unfold _ _ _ _ Hi).
  unfold start. simpl. unfold CompareAndSwapInt32.
  destruct (state c =? created); simpl.
  - repeat (erewrite sched_step_unfold
              by (eapply nth_error_update_same; eassumption);
            simpl; rewrite ?update_update).
    destruct connStart; simpl.
    + repeat (erewrite sched_step_unfold
                by (eapply nth_error_update_same; eassumption);
              simpl; rewrite ?update_update).
      reflexivity.
    + repeat (erewrite sched_step_unfold
                by (eapply nth_error_update_same; eassumption);
              simpl; rewrite ?update_update).
      reflexivity.
  - repeat (erewrite sched_step_unfold
              by (eapply nth_error_update_same; eassumption);
            simpl; rewrite ?update_update).
    reflexivity.
Qed.

Lemma Shutdown_uninterrupted i c ts :
  nth_error ts i = Some AtShutdown ->
  run [i; i; i; i] (c, ts) =
  (snd (Shutdown c), update i (Returned (fst (Shutdown c))) ts).
Proof.
  intros Hi. simpl.
  rewrite (sched_step_unfold _ _ _ _ Hi).
  unfold Shutdown. simpl. unfold CompareAndSwapInt32.
  destruct (state c =? ready); simpl;
    repeat (erewrite sched_step_unfold
              by (eapply nth_error_update_same; eassumption);
            simpl; rewrite ?update_update);
    reflexivity.
Qed.

(** *** Every scheduled caller returns *)

Lemma thread_step_remaining p c :
  (remaining (fst (thread_step p c)) <= remaining p - 1)%nat.
Proof.
  destruct p; simpl; unfold CompareAndSwapInt32;
    try (destruct (state c =? created)); try (destruct (state c =? ready));
    try destruct connStart; simpl; lia.
Qed.

Lemma remaining_run sch (cfg : config PM) i p :
  nth_error (snd cfg) i = Some p ->
  exists p',
    nth_error (snd (run sch cfg)) i = Some p' /\
    (remaining p' <= remaining p - count_occ Nat.eq_dec sch i)%nat.
Proof.
  revert cfg p; induction sch as [| j sch IH]; intros [c ts] p Hi;
    simpl in Hi.
  - exists p. simpl. split; [assumption | lia].
  - cbn [run count_occ].
    destruct (nth_error ts j) as [q |] eqn:Hj.
    + rewrite (sched_step_unfold _ _ _ _ Hj).
      destruct (Nat.eq_dec j i) as [-> | Hne].
      * assert (q = p) by congruence. subst q.
        destruct (IH (snd (thread_step p c),
                      update i (fst (thread_step p c)) ts)
                     (fst (thread_step p c))) as [p' [H1 H2]].
        { simpl. eapply nth_error_update_same; eassumption. }
        exists p'. split; [assumption |].
        pose proof (thread_step_remaining p c). lia.
      * destruct (IH (snd (thread_step q c),
                      update j (fst (thread_step q c)) ts) p)
          as [p' [H1 H2]].
        { simpl. rewrite nth_error_update_other by assumption. assumption. }
        exists p'. split; assumption.
    + rewrite sched_step_outside by assumption.
      destruct (Nat.eq_dec j i) as [-> | Hne]; [congruence |].
      apply (IH (c, ts) p Hi).
Qed.

Lemma remaining_zero p : remaining p = 0%nat -> exists e, p = Returned e.
Proof. destruct p; simpl; try discriminate. eauto. Qed.

Lemma scheduled_four_times_returns sch (cfg : config PM) i p :
  nth_error (snd cfg) i = Some p ->
  (4 <= count_occ Nat.eq_dec sch i)%nat ->
  exists e, nth_error (snd (run sch cfg)) i = Some (Returned e).
Proof.
  intros Hi Hc.
  destruct (remaining_run sch cfg i p Hi) as [p' [H1 H2]].
  assert (Hr : (remaining p <= 4)%nat) by (destruct p; simpl; lia).
  destruct (remaining_zero p') as [e ->]; [lia | eauto].
Qed.

(** *** Concurrent Shutdown callers *)

Lemma winner_not_ready w s : winner w s -> s <> ready.
Proof.
  unfold winner, ready, stopping, stopped. intuition lia.
Qed.

Lemma shutdown_inv_step i (cfg : config PM) :
  shutdown_inv cfg -> shutdown_inv (sched_step i cfg).
Proof.
  destruct cfg as [c ts]. intros Inv.
  destruct (nth_error ts i) as [p |] eqn:Hi.
  2:{ rewrite sched_step_outside by assumption. assumption. }
  rewrite (sched_step_unfold _ _ _ _ Hi).
  destruct Inv as [[Hst Hall] | [k [w [Hk [Hw Hothers]]]]]; simpl in *.
  - right. exists i, Stopping1.
    assert (p = AtShutdown).
    { rewrite Forall_forall in Hall. symmetry. apply Hall.
      eapply nth_error_In; eassumption. }
    subst p. simpl. unfold CompareAndSwapInt32. rewrite Hst. simpl.
    split; [eapply nth_error_update_same; eassumption |].
    split; [left; auto |].
    intros j q Hne Hj. rewrite nth_error_update_other in Hj by auto.
    left. rewrite Forall_forall in Hall. symmetry. apply Hall.
    eapply nth_error_In; eassumption.
  - right. destruct (Nat.eq_dec i k) as [-> | Hne].
    + assert (p = w) by congruence. subst p.
      exists k, (fst (thread_step w c)).
      split; [eapply nth_error_update_same; eassumption |].
      split.
      * unfold winner in *.
        destruct Hw as [[-> E] | [[-> E] | [[-> E] | [-> E]]]]; simpl; auto.
      * simpl. intros j q Hj Hq.
        rewrite nth_error_update_other in Hq by auto.
        eapply Hothers; eassumption.
    + exists k, w.
      pose proof (winner_not_ready _ _ Hw) as Hnr.
      assert (Hstep : thread_step p c =
                      (match p with
                       | AtShutdown => Returned (Some ErrClientNotReady)
                       | _ => p
                       end, c)).
      { destruct (Hothers i p Hne Hi) as [-> | ->]; simpl;
          [| reflexivity].
        unfold CompareAndSwapInt32.
        destruct (Z.eqb_spec (state c) ready); [contradiction | reflexivity]. }
      rewrite Hstep. simpl.
      split; [rewrite nth_error_update_other by auto; assumption |].
      split; [assumption |].
      simpl. intros j q Hj Hq.
      destruct (Nat.eq_dec i j) as [-> | Hne'].
      * erewrite nth_error_update_same in Hq by eassumption.
        inversion Hq; subst q.
        destruct (Hothers j p Hne Hi) as [-> | ->]; auto.
      * rewrite nth_error_update_other in Hq by auto.
        eapply Hothers; eassumption.
Qed.

Lemma shutdown_inv_run sch (cfg : config PM) :
  shutdown_inv cfg -> shutdown_inv (run sch cfg).
Proof.
  revert cfg; induction sch as [| i sch IH]; intros cfg Inv; simpl;
    [assumption |].
  apply IH. apply shutdown_inv_step. assumption.
Qed.

Lemma shutdown_inv_init c n :
  state c = ready -> shutdown_inv (c, repeat AtShutdown n).
Proof.
  intros H. left. simpl. split; [assumption |].
  apply Forall_forall. intros x Hx. symmetry.
  eapply repeat_spec; eassumption.
Qed.

Lemma length_run sch (cfg : config PM) :
  List.length (snd (run sch cfg)) = List.length (snd cfg).
Proof.
  revert cfg; induction sch as [| i sch IH]; intros [c ts]; simpl;
    [reflexivity |].
  rewrite IH. unfold sched_step.
  destruct (nth_error ts i); [| reflexivity].
  destruct (thread_step p c). simpl. apply length_update.
Qed.

(** *** Repeated Shutdown callers *)

Lemma do_calls_Shutdown_not_ready n c :
  state c <> ready ->
  do_calls ops (repeat CallShutdown n) c =
  (repeat (RetError (Some ErrClientNotReady)) n, c).
Proof.
  intros H. induction n as [| n IH]; simpl; [reflexivity |].
  rewrite Shutdown_not_ready by assumption. rewrite IH. reflexivity.
Qed.

Lemma do_calls_refused cls c :
  state c = starting ->
  snd (do_calls ops cls c) = c /\
  Forall2 refused cls (fst (do_calls ops cls c)).
Proof.
  intros H. induction cls as [| cl cls [IH1 IH2]]; simpl.
  - split; [reflexivity | constructor].
  - assert (Hc : state c <> created) by (rewrite H; discriminate).
    assert (Hr : state c <> ready) by (rewrite H; discriminate).
    assert (Hstep : snd (do_call ops cl c) = c /\
                    refused cl (fst (do_call ops cl c))).
    { destruct cl; simpl.
      - rewrite start_not_created by assumption. simpl. auto.
      - rewrite Shutdown_not_ready by assumption. simpl. auto.
      - rewrite accessor_not_ready by assumption. simpl. auto.
      - split; [reflexivity |]. unfold Running, LoadInt32. rewrite H.
        reflexivity. }
    destruct (do_call ops cl c) as [o c1]. simpl in Hstep.
    destruct Hstep as [-> Ho].
    destruct (do_calls ops cls c) as [os c2]. simpl in *.
    split; [assumption | constructor; assumption].
Qed.

(** *** The claims about the lifecycle *)

(** C3. Whatever start and Shutdown callers there are and however their
    steps interleave, each value of the lifecycle state that can be
    observed is the previous one or its successor in
    created -> starting -> ready -> stopping -> stopped, and the state
    never returns to an earlier value; a start on a state other than
    created, and a Shutdown on a state other than ready, fail and leave
    the client as it was. *)
Theorem lifecycle_moves_along_chain
    (c : Client PM) (ts : list pc) (sch later : list nat) :
  Forall entry ts ->
  along_chain (state c) (states_seen sch (c, ts)) /\
  state c <= state (fst (run sch (c, ts))) /\
  state (fst (run sch (c, ts))) <= state (fst (run (sch ++ later) (c, ts))) /\
  (forall connStart c0,
      state c0 <> created ->
      start connStart c0 = (Some ErrClientCannotStart, c0)) /\
  (forall c0,
      state c0 <> ready -> Shutdown c0 = (Some ErrClientNotReady, c0)).
Proof.
  intros Hentry.
  pose proof (owner_inv_entry c ts Hentry) as Inv.
  split; [apply (along_chain_states sch (c, ts) Inv) |].
  split; [apply (state_never_goes_back sch (c, ts) Inv) |].
  split.
  - rewrite run_app. apply state_never_goes_back.
    apply owner_inv_run. assumption.
  - split; intros; [apply start_not_created | apply Shutdown_not_ready];
      assumption.
Qed.

(** C4. On a ready client, Shutdown called n >= 2 times, one call after
    the other or concurrently, succeeds for exactly one caller; every
    other caller gets the not-ready error, and the client stays as the
    first caller left it, in state stopped. *)
Theorem Shutdown_only_one_succeeds
    (c : Client PM) (n : nat) (sch : list nat) :
  state c = ready -> (2 <= n)%nat ->
  (do_calls ops (repeat CallShutdown n) c =
     (RetError None :: repeat (RetError (Some ErrClientNotReady)) (n - 1),
      snd (Shutdown c)) /\
   state (snd (Shutdown c)) = stopped) /\
  let cfg := run sch (c, repeat AtShutdown n) in
  (forall i j,
      nth_error (snd cfg) i = Some (Returned None) ->
      nth_error (snd cfg) j = Some (Returned None) -> i = j) /\
  (forall j e,
      nth_error (snd cfg) j = Some (Returned e) ->
      e = None \/ e = Some ErrClientNotReady) /\
  (forallb is_returned (snd cfg) = true ->
   exists i,
     nth_error (snd cfg) i = Some (Returned None) /\
     (forall j, j <> i -> (j < n)%nat ->
                nth_error (snd cfg) j =
                Some (Returned (Some ErrClientNotReady))) /\
     state (fst cfg) = stopped) /\
  (forall i, (i < n)%nat -> (4 <= count_occ Nat.eq_dec sch i)%nat ->
             exists e, nth_error (snd cfg) i = Some (Returned e)).
Proof.
  intros Hready Hn. split.
  - destruct (Shutdown_ready c Hready) as [Hfst Hstopped].
    split; [| assumption].
    destruct n as [| n]; [lia |]. simpl.
    destruct (Shutdown c) as [e c1] eqn:Hs. simpl in *. subst e.
    rewrite do_calls_Shutdown_not_ready
      by (rewrite Hstopped; discriminate).
    rewrite Nat.sub_0_r. reflexivity.
  - intros cfg.
    pose proof (shutdown_inv_run sch _ (shutdown_inv_init c n Hready)) as Inv.
    fold cfg in Inv.
    assert (Hlen : List.length (snd cfg) = n).
    { unfold cfg. rewrite length_run. simpl. apply repeat_length. }
    split; [| split; [| split]].
    + intros i j Hi Hj.
      destruct Inv as [[_ Hall] | [k [w [Hk [Hw Hothers]]]]].
      * rewrite Forall_forall in Hall.
        apply nth_error_In in Hi. apply Hall in Hi. discriminate.
      * destruct (Nat.eq_dec i k) as [-> | Hik].
        -- destruct (Nat.eq_dec j k) as [-> | Hjk]; [reflexivity |].
           destruct (Hothers j _ Hjk Hj); discriminate.
        -- destruct (Hothers i _ Hik Hi); discriminate.
    + intros j e Hj.
      destruct Inv as [[_ Hall] | [k [w [Hk [Hw Hothers]]]]].
      * rewrite Forall_forall in Hall.
        apply nth_error_In in Hj. apply Hall in Hj. discriminate.
      * destruct (Nat.eq_dec j k) as [-> | Hjk].
        -- rewrite Hk in Hj. inversion Hj; subst w.
           destruct Hw as [[E _] | [[E _] | [[E _] | [E _]]]];
             inversion E; auto.
        -- destruct (Hothers j _ Hjk Hj) as [E | E]; inversion E; auto.
    + intros Hall. rewrite forallb_forall in Hall.
      destruct Inv as [[_ Hat] | [k [w [Hk [Hw Hothers]]]]].
      * exfalso. rewrite Forall_forall in Hat.
        destruct (nth_error (snd cfg) 0) as [q |] eqn:H0.
        -- apply nth_error_In in H0. pose proof (Hat _ H0) as E. subst q.
           apply Hall in H0. discriminate.
        -- apply nth_error_None in H0. lia.
      * exists k.
        pose proof (Hall _ (nth_error_In _ _ Hk)) as Hret.
        destruct Hw as [[-> E] | [[-> E] | [[-> E] | [-> E]]]];
          try discriminate.
        split; [assumption |]. split; [| assumption].
        intros j Hjk Hj.
        destruct (nth_error (snd cfg) j) as [q |] eqn:Hq.
        -- destruct (Hothers j q Hjk Hq) as [-> | ->]; [| reflexivity].
           apply nth_error_In in Hq. apply Hall in Hq. discriminate.
        -- apply nth_error_None in Hq. lia.
    + intros i Hi Hc.
      apply (scheduled_four_times_returns sch (c, repeat AtShutdown n) i
                                          AtShutdown); [| assumption].
      simpl. apply nth_error_repeat. assumption.
Qed.

(** C5. Each of GetMap, GetReplicatedMap, GetQueue, GetTopic and GetList
    returns the not-ready error, without touching the proxy manager,
    when the state is not ready, and is the proxy manager's getter when
    the state is ready; Running() is true exactly when the state is
    ready. *)
Theorem accessors_require_ready (k : kind) (name : string) (c : Client PM) :
  (state c <> ready -> accessor ops k name c = (inr ErrClientNotReady, c)) /\
  (state c = ready ->
     accessor ops k name c =
     (fst (getter ops k name (proxyManager c)),
      set_proxyManager (snd (getter ops k name (proxyManager c))) c)) /\
  (Running c = true <-> state c = ready).
Proof.
  split; [apply accessor_not_ready |].
  split.
  - intros H. rewrite accessor_ready by assumption. unfold delegate.
    destruct (getter ops k name (proxyManager c)); reflexivity.
  - unfold Running, LoadInt32. apply Z.eqb_eq.
Qed.

(** C10. A start that fails because the connection manager could not
    connect leaves the state at starting; from then on every start
    returns the cannot-start error, every Shutdown and every accessor
    the not-ready error, Running() is false, and the client does not
    change any more. *)
Theorem failed_start_is_final
    (err : error) (c : Client PM) (later : list call) :
  state c = created ->
  let c1 := snd (start (Some err) c) in
  fst (start (Some err) c) = Some err /\
  state c1 = starting /\
  snd (do_calls ops later c1) = c1 /\
  Forall2 refused later (fst (do_calls ops later c1)).
Proof.
  intros H c1.
  destruct (start_created_fails err c H) as [H1 H2].
  split; [assumption |]. split; [assumption |].
  apply do_calls_refused. assumption.
Qed.

End Facts.

(** *** The claims at concrete clients *)

Definition demo_pool : list pc :=
  [AtShutdown; AtStart None; AtStart None; AtShutdown].

Definition demo_schedule : list nat :=
  [0; 1; 2; 1; 1; 3; 1; 3; 3; 3]%nat.

Example demo_states :
  states_seen demo_schedule (new_client, demo_pool) =
  [created; starting; starting; starting; ready; stopping; stopping;
   stopping; stopped; stopped].
Proof. reflexivity. Qed.

Example demo_results :
  snd (run demo_schedule (new_client, demo_pool)) =
  [Returned (Some ErrClientNotReady); Returned None;
   Returned (Some ErrClientCannotStart); Returned None].
Proof. reflexivity. Qed.

Lemma lifecycle_moves_along_chain_witness :
  along_chain created (states_seen demo_schedule (new_client, demo_pool)) /\
  created <= state (fst (run demo_schedule (new_client, demo_pool))).
Proof.
  assert (He : Forall entry demo_pool).
  { unfold demo_pool.
    repeat apply Forall_cons; try apply Forall_nil; unfold entry;
      first [right; reflexivity | left; eexists; reflexivity]. }
  destruct (lifecycle_moves_along_chain new_client demo_pool demo_schedule
                                        [] He) as [H1 [H2 _]].
  split; assumption.
Defined.

Definition ready_client : Client (list string) :=
  snd (start None new_client).

Lemma Shutdown_only_one_succeeds_witness :
  state ready_client = ready /\
  exists i,
    nth_error (snd (run [0; 1; 2; 1; 1; 1; 2; 0; 2; 2; 0; 0]%nat
                        (ready_client, repeat AtShutdown 3))) i =
    Some (Returned None).
Proof.
  split; [reflexivity |].
  destruct (Shutdown_only_one_succeeds recording_ops ready_client 3
              [0; 1; 2; 1; 1; 1; 2; 0; 2; 2; 0; 0]%nat)
    as [_ [_ [_ [H _]]]].
  - reflexivity.
  - lia.
  - destruct (H eq_refl) as [i [Hi _]]. exists i. exact Hi.
Defined.

Lemma accessors_require_ready_witness :
  accessor recording_ops KQueue "q" new_client
  = (inr ErrClientNotReady, new_client) /\
  fst (accessor recording_ops KMap "m" ready_client) = inl "m"%string /\
  Running ready_client = true.
Proof.
  destruct (accessors_require_ready recording_ops KQueue "q" new_client)
    as [H1 _].
  destruct (accessors_require_ready recording_ops KMap "m" ready_client)
    as [_ [H2 H3]].
  split; [apply H1; discriminate |].
  split; [rewrite H2 by reflexivity; reflexivity |].
  apply H3. reflexivity.
Defined.

Lemma failed_start_is_final_witness :
  let c1 := snd (start (Some (OtherError "no connection")) new_client) in
  state c1 = starting /\
  fst (do_calls recording_ops
         [CallStart None; CallShutdown; CallGet KMap "m"; CallRunning] c1) =
  [RetError (Some ErrClientCannotStart); RetError (Some ErrClientNotReady);
   RetProxy (inr ErrClientNotReady); RetBool false].
Proof.
  destruct (failed_start_is_final recording_ops
              (OtherError "no connection") new_client
              [CallStart None; CallShutdown; CallGet KMap "m"; CallRunning]
              eq_refl) as [_ [H [_ _]]].
  split; [exact H | reflexivity].
Defined.

End LifecycleFacts.

Module NearCacheMapFacts.
Import NearCacheMap.

Section Facts.

Context {W : Type}.
Variable env : collaborators W.
Variable SerializeKeys : bool.

Lemma defer_runs_after {A : Type} (d : W -> W) (body : M W A) (w : W) :
  defer_ d body w = (fst (body w), d (snd (body w))).
Proof. unfold defer_. destruct (body w); reflexivity. Qed.

Lemma lift_defer {A : Type} (f : A -> result) d (body : M W A) (w : W) :
  lift f (defer_ d body) w = (fst (lift f body w), d (snd (lift f body w))).
Proof. unfold lift, defer_. destruct (body w); reflexivity. Qed.

(** Each operation, by what the key function of the map answers for
    its key. *)
Lemma perform_by_key (mu : mutation) (w : W) :
  match toNearCacheKey env SerializeKeys (key_of mu) with
  | inl k =>
      perform env SerializeKeys mu w =
      (fst (remote env mu k w), Invalidate env k (snd (remote env mu k w)))
  | inr err => perform env SerializeKeys mu w = (key_failure mu err, w)
  end.
Proof.
  destruct mu; simpl;
    unfold Put, PutWithMaxIdle, Set_, SetWithTTLAndMaxIdle, Remove,
      RemoveIfSame, TryPut, TryRemove, Delete;
    destruct (toNearCacheKey env SerializeKeys key) as [k | err];
    first [apply lift_defer | reflexivity].
Qed.

(** C2 (as amended). Each of Put, PutWithMaxIdle, Set,
    SetWithTTLAndMaxIdle, Remove, RemoveIfSame, TryPut, TryRemove and
    Delete makes its remote call on the near-cache key of its key, then
    invalidates that near-cache key in the world the remote call left,
    and returns what the remote call returned, be it a value or an
    error.  The near-cache key is the key itself when keys are not
    serialized, and the serialized key when they are.  When keys are
    serialized and the key cannot be serialized, the operation, Delete
    included, returns the error of the serialization and makes neither
    a remote call nor an invalidation: the world is left as it was. *)
Theorem mutation_invalidates_after_remote (mu : mutation) (w : W) :
  (SerializeKeys = false ->
   perform env SerializeKeys mu w =
   (fst (remote env mu (RawKey (key_of mu)) w),
    Invalidate env (RawKey (key_of mu))
               (snd (remote env mu (RawKey (key_of mu)) w)))) /\
  (forall data,
      SerializeKeys = true -> ToData env (key_of mu) = inl data ->
      perform env SerializeKeys mu w =
      (fst (remote env mu (DataKey data) w),
       Invalidate env (DataKey data)
                  (snd (remote env mu (DataKey data) w)))) /\
  (forall err,
      SerializeKeys = true -> ToData env (key_of mu) = inr err ->
      perform env SerializeKeys mu w = (key_failure mu err, w)).
Proof.
  pose proof (perform_by_key mu w) as H. unfold toNearCacheKey in H.
  split; [| split].
  - intros Hs. rewrite Hs in H |- *. exact H.
  - intros data Hs Hd. rewrite Hs in H |- *. rewrite Hd in H. exact H.
  - intros err Hs Hd. rewrite Hs in H |- *. rewrite Hd in H. exact H.
Qed.

(** C1 (as amended). handleInvalidationMsg does nothing but write one
    trace entry carrying (key, source, partition, sequence): whatever
    the logger leaves alone, such as the records and the sequence
    store of the near cache, is the same after the handler as
    before. *)
Theorem handleInvalidationMsg_only_traces
    {X : Type} (observe : W -> X)
    (key : Data) (source partition : UUID) (seq : Z) (w : W) :
  (forall e w0, observe (Trace env e w0) = observe w0) ->
  handleInvalidationMsg env key source partition seq w =
    Trace env (mkTrace key source partition seq) w /\
  observe (handleInvalidationMsg env key source partition seq w) = observe w.
Proof.
  intros H. unfold handleInvalidationMsg. split; [reflexivity | apply H].
Qed.

End Facts.

(** *** On the sample near cache *)

Example Put_remote_fails :
  Put (model_env (Some (OtherError "io"))) false "a" "v" 0 sample_world =
  (inr (OtherError "io"),
   mkWorld [mkRecord (RawKey "b") "v2" 8 1] [(7, 1); (8, 1)] true []
           [EvRemote "put" (RawKey "a"); EvInvalidate (RawKey "a")]).
Proof. reflexivity. Qed.

Example Delete_remote_succeeds :
  Delete (model_env None) false "a" sample_world =
  (None,
   mkWorld [mkRecord (RawKey "b") "v2" 8 1] [(7, 1); (8, 1)] true []
           [EvRemote "delete" (RawKey "a"); EvInvalidate (RawKey "a")]).
Proof. reflexivity. Qed.

Example Delete_key_not_serializable :
  Delete (model_env None) true "" sample_world =
  (Some (OtherError "cannot serialize"), sample_world).
Proof. reflexivity. Qed.

Example handler_on_gap :
  handleInvalidationMsg (model_env None) "a" 3 7 5 sample_world =
  mkWorld (records sample_world) (lastSeen sample_world) true
          [mkTrace "a" 3 7 5] [].
Proof. reflexivity. Qed.

(** C1 (counterexample). The handler does not keep the sequence
    discipline: on the sample cache, whose partition 7 has last seen
    sequence 1, the event with sequence 5 leaves the store at 1 and the
    partition's record in place. *)
Lemma handleInvalidationMsg_breaks_discipline :
  ~ sequence_discipline (handleInvalidationMsg (model_env None)).
Proof.
  intros H.
  destruct (H sample_world "a"%string 3 7 5) as [Hseq _].
  vm_compute in Hseq. discriminate.
Qed.

(** C2 (counterexample). The write path is not as the spec words it:
    with serialized keys, Delete of the key that cannot be serialized
    returns the error and leaves the sample cache as it is, with no
    remote call and no invalidation in its journal. *)
Lemma Delete_does_not_always_invalidate :
  perform (model_env None) true (MDelete "") sample_world =
  (ResErr (Some (OtherError "cannot serialize")), sample_world) /\
  ~ write_path_as_stated (model_env None) true.
Proof.
  split; [reflexivity |].
  intros H. destruct (H (MDelete ""%string) sample_world) as [k Hk].
  apply (f_equal journal) in Hk. cbn in Hk.
  destruct k; discriminate.
Qed.

Lemma mutation_invalidates_after_remote_witness :
  perform (model_env (Some (OtherError "io"))) false (MPut "a" "v" 0)
          sample_world =
  (ResObj (inr (OtherError "io")),
   mkWorld [mkRecord (RawKey "b") "v2" 8 1] [(7, 1); (8, 1)] true []
           [EvRemote "put" (RawKey "a"); EvInvalidate (RawKey "a")]) /\
  perform (model_env None) true (MDelete "a") sample_world =
  (ResErr None,
   mkWorld (records sample_world) [(7, 1); (8, 1)] true []
           [EvRemote "delete" (DataKey "a"); EvInvalidate (DataKey "a")]) /\
  perform (model_env None) true (MDelete "") sample_world =
  (ResErr (Some (OtherError "cannot serialize")), sample_world).
Proof.
  split; [| split].
  - apply (mutation_invalidates_after_remote
             (model_env (Some (OtherError "io"))) false
             (MPut "a" "v" 0) sample_world).
    reflexivity.
  - apply (mutation_invalidates_after_remote (model_env None) true
             (MDelete "a") sample_world); reflexivity.
  - apply (mutation_invalidates_after_remote (model_env None) true
             (MDelete "") sample_world); reflexivity.
Defined.

Lemma handleInvalidationMsg_only_traces_witness :
  (records (handleInvalidationMsg (model_env None) "a" 3 7 5 sample_world),
   lastSeen (handleInvalidationMsg (model_env None) "a" 3 7 5 sample_world))
  = (records sample_world, lastSeen sample_world).
Proof.
  apply (handleInvalidationMsg_only_traces (model_env None)
           (fun w => (records w, lastSeen w)) "a"%string 3 7 5 sample_world).
  intros e w0. simpl. unfold model_Trace.
  destruct (traceEnabled w0); reflexivity.
Defined.

End NearCacheMapFacts.

Module ConnectionFacts.
Import Connection.

Example receive_sample :
  receive_with 3 (List.concat sample_frames ++ sample_rest) =
  Some (sample_frames, sample_rest).
Proof. reflexivity. Qed.

Example receive_length_field_only :
  receive_with 1 length_field_only = Some ([], length_field_only).
Proof. reflexivity. Qed.

Lemma len_app {A : Type} (a b : list A) : len (a ++ b) = len a + len b.
Proof. unfold len. rewrite length_app. lia. Qed.

Lemma len_nonneg {A : Type} (a : list A) : 0 <= len a.
Proof. unfold len. lia. Qed.

Lemma slice_to_app_short {A : Type} (a b : list A) (n : Z) :
  n <= len a -> slice_to (a ++ b) n = slice_to a n.
Proof.
  unfold slice_to, len. intros H.
  rewrite firstn_app.
  replace (Z.to_nat n - List.length a)%nat with 0%nat by lia.
  simpl. apply app_nil_r.
Qed.

Lemma slice_to_whole {A : Type} (a b : list A) :
  slice_to (a ++ b) (len a) = a.
Proof.
  unfold slice_to, len. rewrite Nat2Z.id.
  rewrite firstn_app, Nat.sub_diag, firstn_all. simpl. apply app_nil_r.
Qed.

Lemma slice_from_whole {A : Type} (a b : list A) :
  slice_from (a ++ b) (len a) = b.
Proof.
  unfold slice_from, len. rewrite Nat2Z.id.
  rewrite skipn_app, Nat.sub_diag, skipn_all. reflexivity.
Qed.

Lemma receiveLoop_keeps_incomplete fuel rest now handed :
  incomplete rest -> len rest < 2 ^ 32 ->
  receiveLoop (S fuel) (mkConnection rest now handed) =
  Some (mkConnection rest now handed).
Proof.
  intros Hinc Hlen. simpl. unfold Int32SizeInBytes.
  destruct (Z.gtb_spec (len rest) 4) as [Hgt | Hle]; [| reflexivity].
  destruct Hinc as [H | H]; [lia |].
  unfold uint32. rewrite Z.mod_small by (pose proof (len_nonneg rest); lia).
  destruct (Z.gtb_spec (Uint32 (slice_to rest 4)) (len rest)); [reflexivity | lia].
Qed.

Lemma receiveLoop_takes_frame fuel f tail now handed :
  framed f -> len (f ++ tail) < 2 ^ 32 ->
  receiveLoop (S fuel) (mkConnection (f ++ tail) now handed) =
  receiveLoop fuel (mkConnection tail now (handed ++ [f])).
Proof.
  intros [Hlong Hannounce] Hlen.
  cbn [receiveLoop readBuffer lastRead onMessage]. unfold Int32SizeInBytes.
  pose proof (len_nonneg tail) as Ht. rewrite len_app in Hlen.
  destruct (Z.gtb_spec (len (f ++ tail)) 4) as [Hgt | Hle];
    [| rewrite len_app in Hle; lia].
  rewrite slice_to_app_short by lia. rewrite Hannounce.
  unfold uint32. rewrite Z.mod_small by (rewrite len_app; lia).
  destruct (Z.gtb_spec (len f) (len (f ++ tail))) as [Hbig | Hfit];
    [rewrite len_app in Hbig; lia |].
  rewrite slice_to_whole, slice_from_whole. reflexivity.
Qed.

Lemma receiveLoop_reassembles frames : forall rest now handed fuel,
  Forall framed frames -> incomplete rest ->
  len (List.concat frames ++ rest) < 2 ^ 32 ->
  (List.length frames < fuel)%nat ->
  receiveLoop fuel (mkConnection (List.concat frames ++ rest) now handed) =
  Some (mkConnection rest now (handed ++ frames)).
Proof.
  induction frames as [| f frames IH]; intros rest now handed fuel Hf Hinc Hlen Hfuel.
  - destruct fuel as [| fuel]; [simpl in Hfuel; lia |].
    simpl List.concat. simpl app. rewrite app_nil_r.
    apply receiveLoop_keeps_incomplete; assumption.
  - destruct fuel as [| fuel]; [simpl in Hfuel; lia |].
    inversion Hf as [| f' frames' Hframed Hrest]; subst.
    simpl List.concat. rewrite <- app_assoc.
    simpl List.concat in Hlen. rewrite <- app_assoc in Hlen.
    rewrite receiveLoop_takes_frame by assumption.
    rewrite IH; try assumption.
    + rewrite <- app_assoc. reflexivity.
    + rewrite len_app in Hlen. pose proof (len_nonneg f). lia.
    + simpl in Hfuel. lia.
Qed.

Lemma receiveLoop_step fuel connection :
  let buf := readBuffer connection in
  let frameLength := Uint32 (slice_to buf 4) in
  4 < len buf -> len buf < 2 ^ 32 -> frameLength <= len buf ->
  receiveLoop (S fuel) connection =
  receiveLoop fuel
    (mkConnection (slice_from buf frameLength) (lastRead connection)
                  (onMessage connection ++ [slice_to buf frameLength])).
Proof.
  intros buf frameLength Hlong Hlen Hfit. subst buf frameLength.
  cbn [receiveLoop]. unfold Int32SizeInBytes.
  destruct (Z.gtb_spec (len (readBuffer connection)) 4); [| lia].
  unfold uint32. rewrite Z.mod_small by lia.
  destruct (Z.gtb_spec (Uint32 (slice_to (readBuffer connection) 4))
                       (len (readBuffer connection))); [lia | reflexivity].
Qed.

(** C8 (as amended). With more than four bytes buffered, the reader
    takes the first four bytes as the little-endian frame length and,
    when that many bytes are buffered, hands exactly that prefix to the
    correlation layer, removes it from the buffer and goes on with what
    follows; a buffer of at most four bytes, or of fewer bytes than its
    first four announce, is kept as it is.  So a buffer that is a run of
    frames, each longer than its length field and announcing its own
    length, followed by an incomplete rest, yields exactly these
    frames, in order, and keeps exactly the rest. *)
Theorem receiveMessage_reassembles :
  (forall fuel connection,
      let buf := readBuffer connection in
      let frameLength := Uint32 (slice_to buf 4) in
      4 < len buf -> len buf < 2 ^ 32 -> frameLength <= len buf ->
      receiveLoop (S fuel) connection =
      receiveLoop fuel
        (mkConnection (slice_from buf frameLength) (lastRead connection)
                      (onMessage connection ++ [slice_to buf frameLength]))) /\
  (forall fuel now connection,
      incomplete (readBuffer connection) ->
      len (readBuffer connection) < 2 ^ 32 ->
      receiveMessage (S fuel) now connection =
      Some (mkConnection (readBuffer connection) now (onMessage connection))) /\
  (forall frames rest now connection fuel,
      readBuffer connection = List.concat frames ++ rest ->
      Forall framed frames -> incomplete rest ->
      len (readBuffer connection) < 2 ^ 32 ->
      (List.length frames < fuel)%nat ->
      receiveMessage fuel now connection =
      Some (mkConnection rest now (onMessage connection ++ frames))).
Proof.
  split; [exact receiveLoop_step | split].
  - intros fuel now connection Hinc Hlen. unfold receiveMessage.
    apply receiveLoop_keeps_incomplete; assumption.
  - intros frames rest now connection fuel Hbuf Hf Hinc Hlen Hfuel.
    unfold receiveMessage.
    rewrite Hbuf in *. apply receiveLoop_reassembles; assumption.
Qed.

(** C8 (counterexample). With exactly the four bytes 04 00 00 00
    buffered, which announce a frame of four bytes, the reader hands
    over nothing, however long it runs: its loop asks for more than
    four bytes. *)
Lemma four_bytes_are_kept :
  ~ (exists fuel, reassembly_as_stated (receive_with fuel)).
Proof.
  intros [fuel H].
  destruct (H length_field_only) as [more [rest Hr]].
  - vm_compute. discriminate.
  - vm_compute. discriminate.
  - destruct fuel as [| fuel]; vm_compute in Hr; discriminate.
Qed.

Lemma receiveMessage_reassembles_witness :
  receiveMessage 3 12 (mkConnection (List.concat sample_frames ++ sample_rest) 0 [])
  = Some (mkConnection sample_rest 12 sample_frames) /\
  receiveMessage 1 12 (mkConnection length_field_only 0 [])
  = Some (mkConnection length_field_only 12 []).
Proof.
  destruct receiveMessage_reassembles as [_ [H2 H3]].
  split.
  - apply (H3 sample_frames sample_rest 12
              (mkConnection (List.concat sample_frames ++ sample_rest) 0 []) 3%nat).
    + reflexivity.
    + unfold sample_frames, framed.
      repeat apply Forall_cons; try apply Forall_nil;
        (split; [reflexivity | reflexivity]).
    + left. vm_compute. discriminate.
    + reflexivity.
    + simpl. lia.
  - apply (H2 0%nat 12 (mkConnection length_field_only 0 [])).
    + left. vm_compute. discriminate.
    + reflexivity.
Defined.

End ConnectionFacts.

Module GoStringsFacts.
Import GoStrings.
Local Open Scope string_scope.

Lemma count_at_app a b : count_at (a ++ b) = (count_at a + count_at b)%nat.
Proof.
  induction a as [| c a IH]; simpl; [reflexivity |].
  destruct (Ascii.eqb c "@"); simpl; rewrite IH; reflexivity.
Qed.

Lemma append_nil_r s : s ++ "" = s.
Proof. induction s as [| c s IH]; simpl; congruence. Qed.

Lemma append_assoc a b c : (a ++ b) ++ c = a ++ (b ++ c).
Proof. induction a as [| x a IH]; simpl; congruence. Qed.

Lemma isSpace1_not_at a : isSpace1 a = true -> Ascii.eqb a "@" = false.
Proof.
  intros H. destruct (Ascii.eqb_spec a "@") as [-> | _]; [| reflexivity].
  vm_compute in H. discriminate.
Qed.

Lemma isSpace2_not_at a b :
  isSpace2 a b = true -> Ascii.eqb a "@" = false /\ Ascii.eqb b "@" = false.
Proof.
  intros H. unfold isSpace2 in H.
  apply andb_true_iff in H. destruct H as [Ha Hb].
  split.
  - destruct (Ascii.eqb_spec a "@") as [-> | _]; [| reflexivity].
    vm_compute in Ha. discriminate.
  - destruct (Ascii.eqb_spec b "@") as [-> | _]; [| reflexivity].
    vm_compute in Hb. discriminate.
Qed.

Lemma isSpace3_not_at a b c :
  isSpace3 a b c = true ->
  Ascii.eqb a "@" = false /\ Ascii.eqb b "@" = false /\
  Ascii.eqb c "@" = false.
Proof.
  intros H.
  repeat split.
  - destruct (Ascii.eqb_spec a "@") as [-> | _]; [| reflexivity].
    unfold isSpace3 in H. vm_compute in H. discriminate.
  - destruct (Ascii.eqb_spec b "@") as [-> | _]; [| reflexivity].
    unfold isSpace3 in H. change (code "@") with 64%N in H.
    cbn in H. rewrite !andb_false_r in H. discriminate.
  - destruct (Ascii.eqb_spec c "@") as [-> | _]; [| reflexivity].
    unfold isSpace3 in H. change (code "@") with 64%N in H.
    cbn in H. rewrite !andb_false_r in H. discriminate.
Qed.

(** Trimming on the left removes a prefix without '@'. *)
Lemma trimLeft_split_bounded n : forall s,
  (String.length s <= n)%nat ->
  exists a, s = a ++ trimLeft s /\ count_at a = 0%nat.
Proof.
  induction n as [| n IH]; intros s Hlen.
  - destruct s; [| simpl in Hlen; lia]. exists "". auto.
  - destruct s as [| a r1]; [exists ""; auto |].
    simpl in Hlen. simpl trimLeft.
    destruct (isSpace1 a) eqn:H1.
    { destruct (IH r1) as [p [Hp Hc]]; [lia |].
      exists (String a p). simpl. rewrite (isSpace1_not_at _ H1).
      split; [congruence | assumption]. }
    destruct r1 as [| b r2]; [exists ""; auto |].
    simpl in Hlen.
    destruct (isSpace2 a b) eqn:H2.
    { destruct (IH r2) as [p [Hp Hc]]; [lia |].
      destruct (isSpace2_not_at _ _ H2) as [Ea Eb].
      exists (String a (String b p)). simpl. rewrite Ea, Eb.
      split; [congruence | assumption]. }
    destruct r2 as [| c r3]; [exists ""; auto |].
    simpl in Hlen.
    destruct (isSpace3 a b c) eqn:H3.
    { destruct (IH r3) as [p [Hp Hc]]; [lia |].
      destruct (isSpace3_not_at _ _ _ H3) as [Ea [Eb Ec]].
      exists (String a (String b (String c p))). simpl. rewrite Ea, Eb, Ec.
      split; [congruence | assumption]. }
    exists "". auto.
Qed.

Lemma trimLeft_split s :
  exists a, s = a ++ trimLeft s /\ count_at a = 0%nat.
Proof. apply (trimLeft_split_bounded (String.length s)). lia. Qed.

(** Trimming on the right removes a suffix without '@'. *)
Lemma trimRight_split s :
  exists b, s = trimRight s ++ b /\ count_at b = 0%nat.
Proof.
  induction s as [| a r IH].
  - exists "". auto.
  - cbn [trimRight].
    destruct (isEmpty (trimLeft (String a r))) eqn:He.
    + destruct (trimLeft_split (String a r)) as [p [Hp Hc]].
      destruct (trimLeft (String a r)); [| discriminate].
      rewrite append_nil_r in Hp. exists (String a r). simpl append.
      split; [reflexivity | rewrite Hp at 1; assumption].
    + destruct IH as [b [Hb Hc]]. exists b. simpl.
      split; [congruence | assumption].
Qed.

Lemma count_at_TrimSpace s : count_at (TrimSpace s) = count_at s.
Proof.
  unfold TrimSpace.
  destruct (trimLeft_split s) as [a [Ha Hca]].
  destruct (trimRight_split (trimLeft s)) as [b [Hb Hcb]].
  rewrite Ha at 2. rewrite Hb at 2.
  rewrite !count_at_app. lia.
Qed.

Lemma Index_at_cons c s :
  Index (String c s) "@" =
  if Ascii.eqb c "@" then 0
  else if (Index s "@" =? -1)%Z then -1 else Index s "@" + 1.
Proof.
  cbn [Index String.prefix].
  destruct (Ascii.ascii_dec "@" c) as [<- | Hne].
  - simpl. destruct s; reflexivity.
  - destruct (Ascii.eqb_spec c "@"); [congruence | reflexivity].
Qed.

Lemma Index_at_bounds s : -1 <= Index s "@".
Proof.
  induction s as [| c s IH]; [cbn; lia |].
  rewrite Index_at_cons.
  destruct (Ascii.eqb c "@"); [lia |].
  destruct (Z.eqb_spec (Index s "@") (-1)); lia.
Qed.

Lemma Index_at_none s : Index s "@" = -1 <-> count_at s = 0%nat.
Proof.
  induction s as [| c s IH]; [cbn; tauto |].
  rewrite Index_at_cons. simpl.
  pose proof (Index_at_bounds s).
  destruct (Ascii.eqb c "@"); [split; [lia | discriminate] |].
  destruct (Z.eqb_spec (Index s "@") (-1)) as [E | E].
  - tauto.
  - split; [lia |]. intros Hc. apply IH in Hc. contradiction.
Qed.

Lemma Index_at_split obj grp :
  count_at obj = 0%nat ->
  Index (obj ++ "@" ++ grp) "@" = Z.of_nat (String.length obj).
Proof.
  change ("@" ++ grp) with (String "@" grp).
  induction obj as [| c obj IH]; intros Hc.
  - simpl append. rewrite Index_at_cons. reflexivity.
  - simpl append. rewrite Index_at_cons. simpl in Hc.
    destruct (Ascii.eqb c "@"); [discriminate |].
    rewrite (IH Hc).
    destruct (Z.eqb_spec (Z.of_nat (String.length obj)) (-1)); [lia |].
    simpl String.length. lia.
Qed.

(** A string with an '@' splits at the first one. *)
Lemma split_at_first s :
  count_at s <> 0%nat ->
  exists obj grp,
    s = obj ++ "@" ++ grp /\ count_at obj = 0%nat /\
    count_at s = S (count_at grp).
Proof.
  induction s as [| c s IH]; [simpl; congruence |].
  cbn [count_at].
  destruct (Ascii.eqb_spec c "@") as [-> | Hne].
  - intros _. exists "", s. auto.
  - intros Hc. destruct (IH Hc) as [obj [grp [Hs [Ho Hg]]]].
    exists (String c obj), grp.
    split; [simpl; f_equal; exact Hs |].
    split; [| assumption].
    cbn [count_at]. destruct (Ascii.eqb_spec c "@"); [contradiction |].
    assumption.
Qed.

Lemma slice_from_split obj grp :
  slice_from (obj ++ "@" ++ grp) (Z.of_nat (String.length obj) + 1) = grp.
Proof.
  unfold slice_from.
  replace (Z.to_nat (Z.of_nat (String.length obj) + 1))
    with (S (String.length obj)) by lia.
  induction obj as [| c obj IH]; [reflexivity | exact IH].
Qed.

Lemma slice_to_split obj grp :
  slice_to (obj ++ "@" ++ grp) (Z.of_nat (String.length obj)) = obj.
Proof.
  unfold slice_to. rewrite Nat2Z.id.
  induction obj as [| c obj IH]; [reflexivity |].
  simpl. f_equal. exact IH.
Qed.

Lemma length_zero s :
  (Z.of_nat (String.length s) <=? 0)%Z = String.eqb s "".
Proof. destruct s; reflexivity. Qed.

End GoStringsFacts.

Module CPNamesFacts.
Import GoStrings GoStringsFacts.
Local Open Scope string_scope.

Lemma Index_at_eqb s : (Index s "@" =? -1)%Z = (count_at s =? 0)%nat.
Proof.
  destruct (Z.eqb_spec (Index s "@") (-1)) as [E | E];
    destruct (Nat.eqb_spec (count_at s) 0) as [C | C];
    try reflexivity.
  - apply Index_at_none in E. contradiction.
  - apply Index_at_none in C. contradiction.
Qed.

Lemma length_not_minus_one s : (Z.of_nat (String.length s) =? -1)%Z = false.
Proof. apply Z.eqb_neq. lia. Qed.

(** Rewrites the index and the two slices of a name that is known to
    be [obj ++ "@" ++ grp] with no '@' in [obj]. *)
Ltac split_name Hname Hobj :=
  rewrite Hname;
  rewrite (Index_at_split _ _ Hobj), length_not_minus_one,
    ?slice_from_split, ?slice_to_split, ?Index_at_eqb.

Lemma factory_withoutDefaultGroupName_split proxyName obj grp :
  TrimSpace proxyName = obj ++ "@" ++ grp -> count_at obj = 0%nat ->
  ProxyFactory.withoutDefaultGroupName proxyName =
  if negb (count_at grp =? 0)%nat then
    inr (IllegalArgumentError
           "custom group name must be specified at most once")
  else if String.eqb (ToLower (TrimSpace grp)) "metadata" then
    inr (IllegalArgumentError
           "cp data structures cannot run on the METADATA CP group!")
  else if String.eqb (ToLower (TrimSpace grp)) "default" then inl obj
  else inl (obj ++ "@" ++ grp).
Proof.
  intros Hname Hobj. unfold ProxyFactory.withoutDefaultGroupName.
  cbv zeta. split_name Hname Hobj. reflexivity.
Qed.

Lemma manager_withoutDefaultGroupName_split proxyName obj grp :
  TrimSpace proxyName = obj ++ "@" ++ grp -> count_at obj = 0%nat ->
  ProxyManager.withoutDefaultGroupName proxyName =
  if negb (count_at grp =? 0)%nat then
    ProxyManager.Panics "Custom group name must be specified at most once"
  else if String.eqb (ToLower (TrimSpace grp)) "metadata" then
    ProxyManager.Panics
      (ProxyManager.quote
       ++ "CP data structures cannot run on the METADATA CP group!"
       ++ ProxyManager.quote)
  else if String.eqb (ToLower (TrimSpace grp)) "default" then
    ProxyManager.Returns obj
  else ProxyManager.Returns (obj ++ "@" ++ grp).
Proof.
  intros Hname Hobj. unfold ProxyManager.withoutDefaultGroupName.
  cbv zeta. split_name Hname Hobj. reflexivity.
Qed.

Lemma factory_objectNameForProxy_split name obj grp :
  name = obj ++ "@" ++ grp -> count_at obj = 0%nat ->
  ProxyFactory.objectNameForProxy name =
  if String.eqb (TrimSpace grp) "" then
    inr (IllegalArgumentError "custom CP group name cannot be empty string")
  else if String.eqb (TrimSpace obj) "" then
    inr (IllegalArgumentError "object name cannot be empty string")
  else inl (TrimSpace obj).
Proof.
  intros Hname Hobj. unfold ProxyFactory.objectNameForProxy.
  cbv zeta. split_name Hname Hobj. reflexivity.
Qed.

Lemma manager_objectNameForProxy_split name obj grp :
  name = obj ++ "@" ++ grp -> count_at obj = 0%nat ->
  ProxyManager.objectNameForProxy name =
  if String.eqb (TrimSpace grp) "" then
    ProxyManager.Panics "Custom CP group name cannot be empty string"
  else if String.eqb (TrimSpace obj) "" then
    ProxyManager.Panics "Object name cannot be empty string"
  else ProxyManager.Returns (TrimSpace obj).
Proof.
  intros Hname Hobj. unfold ProxyManager.objectNameForProxy.
  cbv zeta. split_name Hname Hobj. rewrite !length_zero. reflexivity.
Qed.

Lemma no_at_names name :
  count_at name = 0%nat ->
  ProxyFactory.objectNameForProxy name = inl name /\
  ProxyFactory.withoutDefaultGroupName name = inl (TrimSpace name) /\
  ProxyManager.objectNameForProxy name = ProxyManager.Returns name /\
  ProxyManager.withoutDefaultGroupName name =
    ProxyManager.Returns (TrimSpace name).
Proof.
  intros H.
  assert (Ht : count_at (TrimSpace name) = 0%nat)
    by (rewrite count_at_TrimSpace; assumption).
  unfold ProxyFactory.objectNameForProxy,
    ProxyFactory.withoutDefaultGroupName,
    ProxyManager.objectNameForProxy, ProxyManager.withoutDefaultGroupName.
  cbv zeta. rewrite !Index_at_eqb, H, Ht. simpl. auto.
Qed.

Lemma factory_errors_are_illegal_argument name e :
  ProxyFactory.withoutDefaultGroupName name = inr e \/
  ProxyFactory.objectNameForProxy name = inr e ->
  exists msg, e = IllegalArgumentError msg.
Proof.
  unfold ProxyFactory.withoutDefaultGroupName,
    ProxyFactory.objectNameForProxy. cbv zeta.
  intros [H | H];
    repeat match type of H with
           | (if ?b then _ else _) = _ => destruct b
           end;
    inversion H; eauto.
Qed.

(** [getOrCreateProxy] of the factory, by the names it parses. *)
Lemma getOrCreateProxy_by_names createGroupID service name :
  ProxyFactory.getOrCreateProxy createGroupID service name =
  match CPNames.factory_names name with
  | inr err => inr err
  | inl (pxy, obj) =>
      match createGroupID name with
      | inr err => inr err
      | inl gid =>
          if String.eqb service ProxyFactory.atomicLongService then
            inl (ProxyFactory.mkProxy gid service pxy obj)
          else
            inr (IllegalArgumentError
                   "requested data structure is supported by Go Client CP Subsystem")
      end
  end.
Proof.
  unfold ProxyFactory.getOrCreateProxy, CPNames.factory_names.
  destruct (ProxyFactory.withoutDefaultGroupName name); [| reflexivity].
  destruct (ProxyFactory.objectNameForProxy name); reflexivity.
Qed.

(** The names of the factory for a name with an '@': the object name
    is parsed out of the name as given. *)
Lemma factory_names_split name obj grp :
  name = obj ++ "@" ++ grp -> count_at obj = 0%nat ->
  CPNames.factory_names name =
  match ProxyFactory.withoutDefaultGroupName name with
  | inr err => inr err
  | inl pxy =>
      if String.eqb (TrimSpace grp) "" then
        inr (IllegalArgumentError
               "custom CP group name cannot be empty string")
      else if String.eqb (TrimSpace obj) "" then
        inr (IllegalArgumentError "object name cannot be empty string")
      else inl (pxy, TrimSpace obj)
  end.
Proof.
  intros Hname Hobj. unfold CPNames.factory_names.
  rewrite (factory_objectNameForProxy_split _ _ _ Hname Hobj).
  destruct (ProxyFactory.withoutDefaultGroupName name); [| reflexivity].
  destruct (String.eqb (TrimSpace grp) ""); [reflexivity |].
  destruct (String.eqb (TrimSpace obj) ""); reflexivity.
Qed.

(** The names of the manager for a name with an '@': the object name
    is parsed out of the proxy name. *)
Lemma manager_names_split proxyName obj grp :
  TrimSpace proxyName = obj ++ "@" ++ grp -> count_at obj = 0%nat ->
  ProxyManager.proxy_and_object_name proxyName =
  if negb (count_at grp =? 0)%nat then
    ProxyManager.Panics "Custom group name must be specified at most once"
  else if String.eqb (ToLower (TrimSpace grp)) "metadata" then
    ProxyManager.Panics
      (ProxyManager.quote
       ++ "CP data structures cannot run on the METADATA CP group!"
       ++ ProxyManager.quote)
  else if String.eqb (ToLower (TrimSpace grp)) "default" then
    ProxyManager.Returns (obj, obj)
  else if String.eqb (TrimSpace grp) "" then
    ProxyManager.Panics "Custom CP group name cannot be empty string"
  else if String.eqb (TrimSpace obj) "" then
    ProxyManager.Panics "Object name cannot be empty string"
  else ProxyManager.Returns (obj ++ "@" ++ grp, TrimSpace obj).
Proof.
  intros Hname Hobj. unfold ProxyManager.proxy_and_object_name.
  rewrite (manager_withoutDefaultGroupName_split _ _ _ Hname Hobj).
  destruct (negb (count_at grp =? 0)%nat); [reflexivity |].
  destruct (String.eqb (ToLower (TrimSpace grp)) "metadata"); [reflexivity |].
  destruct (String.eqb (ToLower (TrimSpace grp)) "default").
  - destruct (no_at_names obj Hobj) as [_ [_ [H3 _]]]. rewrite H3.
    reflexivity.
  - rewrite (manager_objectNameForProxy_split _ obj grp eq_refl Hobj).
    destruct (String.eqb (TrimSpace grp) ""); [reflexivity |].
    destruct (String.eqb (TrimSpace obj) ""); reflexivity.
Qed.

(** The names of both packages for a name without '@'. *)
Lemma names_without_at name :
  count_at name = 0%nat ->
  CPNames.factory_names name = inl (TrimSpace name, name) /\
  ProxyManager.proxy_and_object_name name =
    ProxyManager.Returns (TrimSpace name, TrimSpace name).
Proof.
  intros H.
  destruct (no_at_names name H) as [H1 [H2 [_ H4]]].
  assert (Ht : count_at (TrimSpace name) = 0%nat)
    by (rewrite count_at_TrimSpace; assumption).
  destruct (no_at_names _ Ht) as [_ [_ [H5 _]]].
  unfold CPNames.factory_names, ProxyManager.proxy_and_object_name.
  rewrite H1, H2, H4, H5. auto.
Qed.

(** C6 (as amended). A name without '@' is its own object name, as it
    is given, and its proxy name is the name trimmed; so the exported
    manager, which parses the object name out of the proxy name, has
    the trimmed name for both, while the internal factory, which
    parses it out of the name as given, keeps the white space around
    the object name.  The object name of "counter@custom" is "counter"
    and its proxy name is "counter@custom", in both packages.  When
    the trimmed name is obj@grp with one '@' and grp, trimmed and
    lowered, is "default", the proxy name is obj, the text before the
    '@', which is not trimmed on its right; the manager uses obj, when
    it is not blank, as the object name too; the bare name obj has the
    proxy name obj trimmed, so the two agree when obj has no white
    space at its end.
    With another group that is not the metadata group and with
    non-empty parts, the proxy name is obj@grp and the manager's
    object name is obj trimmed.  The factory's object name is always
    the trimmed text before the first '@' of the name as given.
    "counter@default", in any case of letters, and "counter" have the
    proxy name "counter". *)
Theorem group_name_parsing :
  (forall name,
      count_at name = 0%nat ->
      ProxyFactory.objectNameForProxy name = inl name /\
      ProxyFactory.withoutDefaultGroupName name = inl (TrimSpace name) /\
      ProxyManager.objectNameForProxy name = ProxyManager.Returns name /\
      ProxyManager.withoutDefaultGroupName name =
        ProxyManager.Returns (TrimSpace name) /\
      ProxyManager.proxy_and_object_name name =
        ProxyManager.Returns (TrimSpace name, TrimSpace name) /\
      CPNames.factory_names name = inl (TrimSpace name, name) /\
      (forall createGroupID gid,
          createGroupID name = inl gid ->
          ProxyFactory.getOrCreateProxy createGroupID
            ProxyFactory.atomicLongService name =
          inl (ProxyFactory.mkProxy gid ProxyFactory.atomicLongService
                                    (TrimSpace name) name))) /\
  (ProxyFactory.objectNameForProxy "counter@custom" = inl "counter" /\
   ProxyManager.objectNameForProxy "counter@custom" =
     ProxyManager.Returns "counter" /\
   CPNames.factory_names "counter@custom" =
     inl ("counter@custom", "counter") /\
   ProxyManager.proxy_and_object_name "counter@custom" =
     ProxyManager.Returns ("counter@custom", "counter")) /\
  (forall proxyName obj grp,
      TrimSpace proxyName = obj ++ "@" ++ grp ->
      count_at obj = 0%nat -> count_at grp = 0%nat ->
      ToLower (TrimSpace grp) = "default" ->
      ProxyFactory.withoutDefaultGroupName proxyName = inl obj /\
      ProxyManager.withoutDefaultGroupName proxyName =
        ProxyManager.Returns obj /\
      (TrimSpace obj <> "" ->
       ProxyManager.proxy_and_object_name proxyName =
         ProxyManager.Returns (obj, obj)) /\
      ProxyFactory.withoutDefaultGroupName obj = inl (TrimSpace obj) /\
      ProxyManager.proxy_and_object_name obj =
        ProxyManager.Returns (TrimSpace obj, TrimSpace obj)) /\
  (forall proxyName obj grp,
      TrimSpace proxyName = obj ++ "@" ++ grp ->
      count_at obj = 0%nat -> count_at grp = 0%nat ->
      ToLower (TrimSpace grp) <> "default" ->
      ToLower (TrimSpace grp) <> "metadata" ->
      TrimSpace grp <> "" -> TrimSpace obj <> "" ->
      ProxyFactory.withoutDefaultGroupName proxyName =
        inl (obj ++ "@" ++ grp) /\
      ProxyManager.proxy_and_object_name proxyName =
        ProxyManager.Returns (obj ++ "@" ++ grp, TrimSpace obj)) /\
  (forall name obj grp pxy,
      name = obj ++ "@" ++ grp -> count_at obj = 0%nat ->
      TrimSpace grp <> "" -> TrimSpace obj <> "" ->
      ProxyFactory.withoutDefaultGroupName name = inl pxy ->
      CPNames.factory_names name = inl (pxy, TrimSpace obj)) /\
  (ProxyFactory.withoutDefaultGroupName "counter@default" = inl "counter" /\
   ProxyFactory.withoutDefaultGroupName "counter@DeFault" = inl "counter" /\
   ProxyFactory.withoutDefaultGroupName "counter" = inl "counter" /\
   ProxyManager.withoutDefaultGroupName "counter@default" =
     ProxyManager.Returns "counter" /\
   ProxyManager.withoutDefaultGroupName "counter" =
     ProxyManager.Returns "counter").
Proof.
  split; [| split; [| split; [| split; [| split]]]].
  - intros name H.
    destruct (no_at_names name H) as [H1 [H2 [H3 H4]]].
    destruct (names_without_at name H) as [H5 H6].
    repeat (split; [assumption |]).
    intros createGroupID gid Hg.
    rewrite getOrCreateProxy_by_names, H5, Hg. reflexivity.
  - repeat split; reflexivity.
  - intros proxyName obj grp Hname Hobj Hgrp Hdefault.
    rewrite (factory_withoutDefaultGroupName_split _ _ _ Hname Hobj).
    rewrite (manager_withoutDefaultGroupName_split _ _ _ Hname Hobj).
    rewrite (manager_names_split _ _ _ Hname Hobj).
    rewrite Hgrp, Hdefault.
    destruct (no_at_names obj Hobj) as [_ [H2 _]].
    destruct (names_without_at obj Hobj) as [_ H6].
    simpl. auto.
  - intros proxyName obj grp Hname Hobj Hgrp Hnd Hnm Hg Ho.
    rewrite (factory_withoutDefaultGroupName_split _ _ _ Hname Hobj).
    rewrite (manager_names_split _ _ _ Hname Hobj).
    rewrite Hgrp.
    apply String.eqb_neq in Hnd, Hnm, Hg, Ho.
    rewrite Hnd, Hnm, Hg, Ho. simpl. auto.
  - intros name obj grp pxy Hname Hobj Hg Ho Hp.
    rewrite (factory_names_split _ _ _ Hname Hobj), Hp.
    apply String.eqb_neq in Hg, Ho. rewrite Hg, Ho. reflexivity.
  - repeat split; reflexivity.
Qed.

(** C6 (counterexample). Parsing is not as the spec words it.  The
    factory gives the name " counter " the object name " counter ",
    not the trimmed name; and in both packages "a @default" is not
    parsed like its bare name "a ": the one has the proxy name "a ",
    the other the proxy name "a". *)
Lemma group_name_parsing_not_as_stated :
  CPNames.factory_names " counter " = inl ("counter", " counter ") /\
  CPNames.factory_names "a @default" = inl ("a ", "a") /\
  CPNames.factory_names "a " = inl ("a", "a ") /\
  ProxyManager.proxy_and_object_name "a @default" =
    ProxyManager.Returns ("a ", "a ") /\
  ProxyManager.proxy_and_object_name "a " =
    ProxyManager.Returns ("a", "a") /\
  ~ CPNames.parsing_as_stated CPNames.factory_pipeline /\
  ~ CPNames.parsing_as_stated CPNames.manager_pipeline.
Proof.
  repeat (split; [reflexivity |]).
  split.
  - intros [H _]. destruct (H " counter " eq_refl) as [pxy Hp].
    vm_compute in Hp. discriminate.
  - intros [_ [_ [H _]]]. specialize (H "a " "default" eq_refl eq_refl).
    vm_compute in H. discriminate.
Qed.

(** Every error of the factory's parsing is an invalid-argument
    error. *)
Lemma factory_names_errors name e :
  CPNames.factory_names name = inr e -> exists msg, e = IllegalArgumentError msg.
Proof.
  unfold CPNames.factory_names. intros H.
  destruct (ProxyFactory.withoutDefaultGroupName name) as [pxy | e1] eqn:Hw.
  - destruct (ProxyFactory.objectNameForProxy name) as [obj | e2] eqn:Ho;
      [discriminate |].
    inversion H; subst e2.
    apply (factory_errors_are_illegal_argument name e). right. exact Ho.
  - inversion H; subst e1.
    apply (factory_errors_are_illegal_argument name e). left. exact Hw.
Qed.

(** C7 (as amended). In internal/cp, for every name, parsing fails
    with an invalid-argument error when the name has more than one
    '@', when its group, trimmed and lowered, is "metadata", and when
    the text before or behind its first '@' is empty after trimming;
    [getOrCreateProxy] returns that error whatever the service and the
    cluster, in particular for "counter@metadata" and for
    "counter@a@b".  In cp.ProxyManager parsing does not return an error
    but panics with a string: for a name with more than one '@', for
    a name with the metadata group, and for a name with another group
    than the default group and an empty part. *)
Theorem group_name_validation :
  CPNames.validation_as_stated CPNames.factory_outcome /\
  (forall createGroupID service name e,
      CPNames.factory_outcome name = CPNames.Fails e ->
      ProxyFactory.getOrCreateProxy createGroupID service name = inr e /\
      exists msg, e = IllegalArgumentError msg) /\
  (forall proxyName,
      (2 <= count_at proxyName)%nat ->
      ProxyFactory.withoutDefaultGroupName proxyName =
        inr (IllegalArgumentError
               "custom group name must be specified at most once") /\
      ProxyManager.withoutDefaultGroupName proxyName =
        ProxyManager.Panics
          "Custom group name must be specified at most once" /\
      CPNames.manager_outcome proxyName =
        CPNames.Panic "Custom group name must be specified at most once") /\
  (forall proxyName obj grp,
      TrimSpace proxyName = obj ++ "@" ++ grp ->
      count_at obj = 0%nat -> count_at grp = 0%nat ->
      ToLower (TrimSpace grp) = "metadata" ->
      ProxyFactory.withoutDefaultGroupName proxyName =
        inr (IllegalArgumentError
               "cp data structures cannot run on the METADATA CP group!") /\
      ProxyManager.withoutDefaultGroupName proxyName =
        ProxyManager.Panics
          (ProxyManager.quote
           ++ "CP data structures cannot run on the METADATA CP group!"
           ++ ProxyManager.quote) /\
      CPNames.manager_outcome proxyName =
        CPNames.Panic
          (ProxyManager.quote
           ++ "CP data structures cannot run on the METADATA CP group!"
           ++ ProxyManager.quote)) /\
  (forall name obj grp,
      name = obj ++ "@" ++ grp -> count_at obj = 0%nat ->
      TrimSpace grp = "" \/ TrimSpace obj = "" ->
      (exists msg,
          ProxyFactory.objectNameForProxy name =
          inr (IllegalArgumentError msg)) /\
      (exists msg,
          ProxyManager.objectNameForProxy name = ProxyManager.Panics msg)) /\
  (forall proxyName obj grp,
      TrimSpace proxyName = obj ++ "@" ++ grp -> count_at obj = 0%nat ->
      ToLower (TrimSpace grp) <> "default" ->
      TrimSpace grp = "" \/ TrimSpace obj = "" ->
      exists msg, CPNames.manager_outcome proxyName = CPNames.Panic msg) /\
  (forall createGroupID service,
      ProxyFactory.getOrCreateProxy createGroupID service "counter@metadata" =
        inr (IllegalArgumentError
               "cp data structures cannot run on the METADATA CP group!") /\
      ProxyFactory.getOrCreateProxy createGroupID service "counter@a@b" =
        inr (IllegalArgumentError
               "custom group name must be specified at most once")).
Proof.
  assert (Hmany : forall proxyName,
             (2 <= count_at proxyName)%nat ->
             ProxyFactory.withoutDefaultGroupName proxyName =
               inr (IllegalArgumentError
                      "custom group name must be specified at most once") /\
             ProxyManager.withoutDefaultGroupName proxyName =
               ProxyManager.Panics
                 "Custom group name must be specified at most once" /\
             CPNames.manager_outcome proxyName =
               CPNames.Panic
                 "Custom group name must be specified at most once").
  { intros proxyName Hcount.
    destruct (split_at_first (TrimSpace proxyName))
      as [obj [grp [Hname [Hobj Hgrp]]]].
    { rewrite count_at_TrimSpace. lia. }
    rewrite count_at_TrimSpace in Hgrp.
    unfold CPNames.manager_outcome.
    rewrite (manager_names_split _ _ _ Hname Hobj).
    rewrite (factory_withoutDefaultGroupName_split _ _ _ Hname Hobj).
    rewrite (manager_withoutDefaultGroupName_split _ _ _ Hname Hobj).
    destruct (Nat.eqb_spec (count_at grp) 0); [lia |]. simpl. auto. }
  assert (Hfails : forall name e,
             ProxyFactory.withoutDefaultGroupName name = inr e \/
             ProxyFactory.objectNameForProxy name = inr e ->
             exists msg,
               CPNames.factory_outcome name =
               CPNames.Fails (IllegalArgumentError msg)).
  { intros name e H. unfold CPNames.factory_outcome.
    destruct (CPNames.factory_names name) as [[pxy obj] | e'] eqn:Hn.
    - unfold CPNames.factory_names in Hn.
      destruct (ProxyFactory.withoutDefaultGroupName name);
        [| discriminate].
      destruct (ProxyFactory.objectNameForProxy name); [| discriminate].
      destruct H; discriminate.
    - destruct (factory_names_errors name e' Hn) as [msg ->]. eauto. }
  split; [| split; [| split; [| split; [| split; [| split]]]]].
  - intros name [Hcount | [Hmeta | Hempty]].
    + destruct (Hmany name Hcount) as [Hw _].
      apply (Hfails name _ (or_introl Hw)).
    + destruct Hmeta as [obj [grp [Hname [Hobj Hmeta]]]].
      pose proof (factory_withoutDefaultGroupName_split _ _ _ Hname Hobj)
        as Hw.
      rewrite Hmeta in Hw. simpl in Hw.
      destruct (negb (count_at grp =? 0)%nat);
        apply (Hfails name _ (or_introl Hw)).
    + destruct Hempty as [obj [grp [Hname [Hobj Hempty]]]].
      pose proof (factory_objectNameForProxy_split _ _ _ Hname Hobj) as Ho.
      destruct (String.eqb_spec (TrimSpace grp) "") as [Eg | Ng].
      * apply (Hfails name _ (or_intror Ho)).
      * destruct Hempty as [Eo | Eg]; [| contradiction].
        rewrite Eo in Ho. simpl in Ho.
        apply (Hfails name _ (or_intror Ho)).
  - intros createGroupID service name e H.
    unfold CPNames.factory_outcome in H.
    destruct (CPNames.factory_names name) as [[pxy obj] | e'] eqn:Hn;
      [discriminate |].
    inversion H; subst e'.
    rewrite getOrCreateProxy_by_names, Hn.
    split; [reflexivity | apply (factory_names_errors name e Hn)].
  - exact Hmany.
  - intros proxyName obj grp Hname Hobj Hgrp Hmeta.
    unfold CPNames.manager_outcome.
    rewrite (manager_names_split _ _ _ Hname Hobj).
    rewrite (factory_withoutDefaultGroupName_split _ _ _ Hname Hobj).
    rewrite (manager_withoutDefaultGroupName_split _ _ _ Hname Hobj).
    rewrite Hgrp, Hmeta. simpl. auto.
  - intros name obj grp Hname Hobj Hempty.
    rewrite (factory_objectNameForProxy_split _ _ _ Hname Hobj).
    rewrite (manager_objectNameForProxy_split _ _ _ Hname Hobj).
    destruct (String.eqb_spec (TrimSpace grp) "") as [Eg | Ng];
      [eauto |].
    destruct Hempty as [Eg | Eo]; [contradiction |].
    rewrite Eo. simpl. eauto.
  - intros proxyName obj grp Hname Hobj Hnd Hempty.
    unfold CPNames.manager_outcome.
    rewrite (manager_names_split _ _ _ Hname Hobj).
    apply String.eqb_neq in Hnd. rewrite Hnd.
    destruct (negb (count_at grp =? 0)%nat); [eauto |].
    destruct (String.eqb (ToLower (TrimSpace grp)) "metadata"); [eauto |].
    destruct (String.eqb_spec (TrimSpace grp) "") as [Eg | Ng];
      [eauto |].
    destruct Hempty as [Eg | Eo]; [contradiction |].
    rewrite Eo. simpl. eauto.
  - intros createGroupID service. split; reflexivity.
Qed.

(** C7 (counterexample). Validation is not as the spec words it in
    cp.ProxyManager: for "counter@metadata" its parsing does not fail
    with an invalid-argument error, it panics with a string. *)
Lemma group_name_validation_not_as_stated :
  CPNames.manager_outcome "counter@metadata" =
    CPNames.Panic
      (ProxyManager.quote
       ++ "CP data structures cannot run on the METADATA CP group!"
       ++ ProxyManager.quote) /\
  ~ CPNames.validation_as_stated CPNames.manager_outcome.
Proof.
  split; [reflexivity |].
  intros H.
  destruct (H "counter@metadata") as [msg Hmsg].
  - right. left. exists "counter", "metadata".
    split; [reflexivity | split; reflexivity].
  - vm_compute in Hmsg. discriminate.
Qed.

Lemma group_name_parsing_witness :
  ProxyFactory.objectNameForProxy " counter " = inl " counter " /\
  ProxyFactory.withoutDefaultGroupName " counter@ Default " = inl "counter" /\
  ProxyManager.proxy_and_object_name " a @custom " =
    ProxyManager.Returns ("a @custom", "a") /\
  CPNames.factory_names " a @custom " = inl ("a @custom", "a").
Proof.
  destruct group_name_parsing as [H1 [_ [H3 [H4 [H5 _]]]]].
  split; [| split; [| split]].
  - apply (H1 " counter "). reflexivity.
  - apply (H3 " counter@ Default " "counter" " Default");
      reflexivity.
  - apply (H4 " a @custom " "a " "custom");
      try reflexivity; discriminate.
  - apply (H5 " a @custom " " a " "custom " "a @custom");
      try reflexivity; discriminate.
Defined.

Lemma group_name_validation_witness :
  (exists msg,
      CPNames.factory_outcome " @default" =
      CPNames.Fails (IllegalArgumentError msg)) /\
  ProxyFactory.getOrCreateProxy (fun _ => inl 1)
    ProxyFactory.atomicLongService " @custom" =
    inr (IllegalArgumentError "object name cannot be empty string") /\
  ProxyFactory.withoutDefaultGroupName "a@b@c" =
    inr (IllegalArgumentError
           "custom group name must be specified at most once") /\
  ProxyFactory.withoutDefaultGroupName "counter@ METADATA" =
    inr (IllegalArgumentError
           "cp data structures cannot run on the METADATA CP group!") /\
  (exists msg,
      ProxyFactory.objectNameForProxy "counter@  " =
      inr (IllegalArgumentError msg)) /\
  (exists msg,
      CPNames.manager_outcome " @custom" = CPNames.Panic msg).
Proof.
  destruct group_name_validation as [H1 [H2 [H3 [H4 [H5 [H6 _]]]]]].
  split; [| split; [| split; [| split; [| split]]]].
  - apply (H1 " @default"). right. right. exists " ", "default".
    split; [reflexivity | split; [reflexivity | left; reflexivity]].
  - apply (H2 (fun _ => inl 1) ProxyFactory.atomicLongService " @custom"
              (IllegalArgumentError "object name cannot be empty string")).
    reflexivity.
  - apply (H3 "a@b@c"). simpl. lia.
  - apply (H4 "counter@ METADATA" "counter" " METADATA"); reflexivity.
  - apply (H5 "counter@  " "counter" "  ");
      [reflexivity | reflexivity | left; reflexivity].
  - apply (H6 " @custom" "" "custom");
      [reflexivity | reflexivity | discriminate | right; reflexivity].
Defined.

End CPNamesFacts.

Module ConnectionIOFacts.
Import Connection ConnectionIO ConnectionFacts.

(** *** Closing *)

(** X4. On a connection whose socket is open, [close] called any
    number of times closes it once: the first call stores 1 in the
    status, closes the channel, records its time and reports its error
    to the connection manager; every later call changes nothing, and
    no call panics. *)
Theorem close_is_idempotent
    (err : error) (now : Z) (later : list (error * Z)) (l : Link) :
  status l = 0 -> closedChannel l = false ->
  close_all ((err, now) :: later) l =
  Done (mkLink (core l) 1 true (Some now) (socketAccepted l)
               (socketWrites l) (connectionClosed l ++ [err])) /\
  close_all ((err, now) :: later) l = close err now l.
Proof.
  intros Hs Hc.
  assert (H1 : close err now l =
               Done (mkLink (core l) 1 true (Some now) (socketAccepted l)
                            (socketWrites l) (connectionClosed l ++ [err]))).
  { unfold close. rewrite Hs, Hc. reflexivity. }
  cbn [close_all]. rewrite H1.
  assert (Hl : forall calls l1, status l1 = 1 -> close_all calls l1 = Done l1).
  { induction calls as [| [e t] calls IH]; intros l1 H; [reflexivity |].
    cbn [close_all]. unfold close. rewrite H. simpl. apply IH. assumption. }
  split; apply Hl; reflexivity.
Qed.

(** *** Writing *)

Lemma firstn_plus {A : Type} (a b : nat) (l : list A) :
  firstn (a + b) l = firstn a l ++ firstn b (skipn a l).
Proof.
  revert l; induction a as [| a IH]; intros l; [reflexivity |].
  destruct l as [| x l]; simpl.
  - rewrite firstn_nil. reflexivity.
  - rewrite IH. reflexivity.
Qed.

(** The socket takes at least one byte whenever it is offered some and
    reports no error. *)
Definition makes_progress (sock : socket) : Prop :=
  forall k m, (0 < m)%nat -> snd (sock k m) = None -> (0 < fst (sock k m))%nat.

Lemma writeLoop_sends fuel sock buffer : forall wi l r l',
  (wi <= List.length buffer)%nat ->
  writeLoop fuel sock buffer (len buffer - Z.of_nat wi) (Z.of_nat wi) l =
    Some (r, l') ->
  exists k,
    (wi <= k <= List.length buffer)%nat /\
    socketAccepted l' = socketAccepted l ++ firstn (k - wi) (skipn wi buffer) /\
    (r = None -> k = List.length buffer).
Proof.
  induction fuel as [| fuel IH]; intros wi l r l' Hwi Hrun; [discriminate |].
  cbn [writeLoop] in Hrun.
  destruct (Z.gtb_spec (len buffer - Z.of_nat wi) 0) as [Hgt | Hle].
  - unfold socket_Write in Hrun.
    unfold slice_from in Hrun. rewrite Nat2Z.id in Hrun.
    destruct (sock (socketWrites l) (List.length (skipn wi buffer)))
      as [n err] eqn:Hs.
    set (n' := Nat.min n (List.length (skipn wi buffer))) in *.
    assert (Hn : (n' <= List.length buffer - wi)%nat).
    { subst n'. rewrite length_skipn. lia. }
    destruct err as [e |].
    + inversion Hrun; subst r l'. exists (wi + n')%nat. simpl.
      split; [lia |]. split; [| discriminate].
      replace (wi + n' - wi)%nat with n' by lia. reflexivity.
    + replace (len buffer - Z.of_nat wi - Z.of_nat n')
        with (len buffer - Z.of_nat (wi + n')) in Hrun by lia.
      replace (Z.of_nat wi + Z.of_nat n') with (Z.of_nat (wi + n')) in Hrun
        by lia.
      apply IH in Hrun; [| lia].
      destruct Hrun as [k [Hk [Hacc Hr]]]. exists k.
      split; [lia |]. split; [| assumption].
      rewrite Hacc. simpl. rewrite <- app_assoc. f_equal.
      replace (k - wi)%nat with (n' + (k - (wi + n')))%nat by lia.
      rewrite firstn_plus. f_equal. rewrite skipn_skipn.
      replace (n' + wi)%nat with (wi + n')%nat by lia. reflexivity.
  - inversion Hrun; subst r l'. exists wi.
    split; [lia |]. split.
    + rewrite Nat.sub_diag. simpl. rewrite app_nil_r. reflexivity.
    + intros _. unfold len in Hle. lia.
Qed.

Lemma writeLoop_ends sock buffer : makes_progress sock ->
  forall fuel wi l,
    (wi <= List.length buffer)%nat ->
    (List.length buffer - wi < fuel)%nat ->
    exists r l',
      writeLoop fuel sock buffer (len buffer - Z.of_nat wi) (Z.of_nat wi) l =
      Some (r, l').
Proof.
  intros Hp. induction fuel as [| fuel IH]; intros wi l Hwi Hfuel; [lia |].
  cbn [writeLoop].
  destruct (Z.gtb_spec (len buffer - Z.of_nat wi) 0) as [Hgt | Hle];
    [| eauto].
  unfold socket_Write, slice_from. rewrite Nat2Z.id.
  pose proof (Hp (socketWrites l) (List.length (skipn wi buffer))) as Hp1.
  destruct (sock (socketWrites l) (List.length (skipn wi buffer)))
    as [n err] eqn:Hs.
  simpl in Hp1.
  set (n' := Nat.min n (List.length (skipn wi buffer))) in *.
  assert (Hlen : List.length (skipn wi buffer) = (List.length buffer - wi)%nat)
    by apply length_skipn.
  unfold len in Hgt.
  destruct err as [e |]; [eauto |].
  assert (Hn : (0 < n' <= List.length buffer - wi)%nat).
  { subst n'. specialize (Hp1 ltac:(lia) eq_refl). lia. }
  replace (len buffer - Z.of_nat wi - Z.of_nat n')
    with (len buffer - Z.of_nat (wi + n')) by lia.
  replace (Z.of_nat wi + Z.of_nat n') with (Z.of_nat (wi + n')) by lia.
  apply IH; lia.
Qed.


(** *** Reading *)

Lemma incomplete_prefix_of_frame f b m :
  framed f -> f = b ++ m -> m <> [] -> incomplete b.
Proof.
  intros [Hlong Hannounce] Hf Hm. unfold incomplete.
  destruct (Z_le_gt_dec (len b) 4) as [Hle | Hgt]; [left; assumption |].
  right. subst f. rewrite slice_to_app_short in Hannounce by lia.
  rewrite Hannounce, len_app.
  destruct m; [contradiction |]. unfold len. simpl. lia.
Qed.

Lemma incomplete_prefix rest b m :
  incomplete rest -> rest = b ++ m -> incomplete b.
Proof.
  intros Hinc Hr. unfold incomplete in *. subst rest.
  rewrite len_app in Hinc. pose proof (len_nonneg m) as Hm.
  destruct (Z_le_gt_dec (len b) 4) as [Hle | Hgt]; [left; assumption |].
  right. destruct Hinc as [Hi | Hi]; [lia |].
  rewrite slice_to_app_short in Hi by lia. lia.
Qed.

Lemma complete_not_incomplete f tail :
  framed f -> ~ incomplete (f ++ tail).
Proof.
  intros [Hlong Hannounce] Hinc. pose proof (len_nonneg tail) as Ht.
  destruct Hinc as [Hi | Hi]; rewrite len_app in Hi.
  - lia.
  - rewrite slice_to_app_short in Hi by lia. lia.
Qed.

(** A prefix of a stream of frames is a run of whole frames and an
    incomplete piece. *)
Lemma prefix_decompose frames : forall rest B T,
  Forall framed frames -> incomplete rest ->
  B ++ T = List.concat frames ++ rest ->
  exists j b',
    B = List.concat (firstn j frames) ++ b' /\ incomplete b' /\
    b' ++ T = List.concat (skipn j frames) ++ rest.
Proof.
  induction frames as [| f frames IH]; intros rest B T Hf Hinc Heq.
  - exists 0%nat, B. simpl in *. split; [reflexivity |].
    split; [| assumption].
    eapply incomplete_prefix; [eassumption | symmetry; eassumption].
  - inversion Hf as [| f' frames' Hframed Hrest]; subst.
    simpl List.concat in Heq. rewrite <- app_assoc in Heq.
    apply app_eq_app in Heq. destruct Heq as [m [[HB HT] | [Hfm HT]]].
    + destruct (IH rest m T Hrest Hinc (eq_sym HT)) as [j [b' [Hm [Hb' Hrem]]]].
      exists (S j), b'. simpl. rewrite <- app_assoc.
      split; [congruence | split; assumption].
    + destruct m as [| x m].
      * rewrite app_nil_r in Hfm. simpl in HT. subst B T.
        destruct (IH rest [] (List.concat frames ++ rest) Hrest Hinc eq_refl)
          as [j [b' [Hm [Hb' Hrem]]]].
        exists 1%nat, []. simpl. rewrite !app_nil_r.
        split; [reflexivity |]. split; [left; unfold len; simpl; lia |].
        reflexivity.
      * exists 0%nat, B. simpl. split; [reflexivity |].
        split.
        -- eapply incomplete_prefix_of_frame; [exact Hframed | exact Hfm |].
           discriminate.
        -- rewrite HT, Hfm, <- !app_assoc. reflexivity.
Qed.

Lemma framed_firstn j : forall frames,
  Forall framed frames -> Forall framed (firstn j frames).
Proof.
  induction j as [| j IH]; intros frames H; [constructor |].
  destruct H as [| f frames Hf Hrest]; simpl; constructor; auto.
Qed.

Lemma framed_skipn j : forall frames,
  Forall framed frames -> Forall framed (skipn j frames).
Proof.
  induction j as [| j IH]; intros frames H; [assumption |].
  destruct H as [| f frames Hf Hrest]; simpl; auto.
Qed.

Lemma read_quiet answers : forall frames rest fuel l,
  Forall quiet answers -> Forall framed frames -> incomplete rest ->
  incomplete (readBuffer (core l)) ->
  readBuffer (core l) ++ chunks answers = List.concat frames ++ rest ->
  len (List.concat frames ++ rest) < 2 ^ 32 ->
  (List.length frames < fuel)%nat ->
  exists c',
    read fuel answers l = Some (Done (set_core c' l)) /\
    readBuffer c' = rest /\
    onMessage c' = onMessage (core l) ++ frames.
Proof.
  induction answers as [| a answers IH];
    intros frames rest fuel l Hq Hf Hinc Hbuf Heq Hlen Hfuel.
  - unfold chunks in Heq. simpl in Heq. rewrite app_nil_r in Heq.
    destruct frames as [| f frames].
    + simpl in Heq. exists (core l). simpl.
      split; [destruct l; reflexivity |].
      split; [assumption | rewrite app_nil_r; reflexivity].
    + exfalso. inversion Hf; subst. rewrite Heq in Hbuf.
      simpl in Hbuf. rewrite <- app_assoc in Hbuf.
      eapply complete_not_incomplete; eassumption.
  - inversion Hq as [| a' answers' Ha Hqs]; subst.
    unfold quiet in Ha.
    unfold chunks in Heq. simpl in Heq. fold (chunks answers) in Heq.
    rewrite app_assoc in Heq.
    cbn [read]. rewrite Ha.
    destruct (Z.eqb_spec (len (readBytes a)) 0) as [Hz | Hnz].
    + assert (Hnil : readBytes a = []).
      { destruct (readBytes a); [reflexivity | unfold len in Hz; simpl in Hz; lia]. }
      rewrite Hnil, app_nil_r in *.
      destruct (IH frames rest fuel
                   (set_core (mkConnection (readBuffer (core l))
                                           (lastRead (core l))
                                           (onMessage (core l))) l))
        as [c' [Hr [Hb Hm]]]; try assumption.
      exists c'. split; [| split; assumption].
      rewrite Hr. destruct l; reflexivity.
    + destruct (prefix_decompose frames rest _ _ Hf Hinc Heq)
        as [j [b' [HB [Hb' Hrem]]]].
      assert (Hj : (List.length (firstn j frames) <= List.length frames)%nat)
        by (rewrite length_firstn; lia).
      assert (HlenB : len (readBuffer (core l) ++ readBytes a) < 2 ^ 32).
      { assert (E : len (List.concat frames ++ rest) =
                    len (readBuffer (core l) ++ readBytes a)
                    + len (chunks answers))
          by (rewrite <- Heq, len_app; reflexivity).
        pose proof (len_nonneg (chunks answers)). lia. }
      unfold receiveMessage. cbn [readBuffer onMessage].
      rewrite HB in HlenB |- *.
      rewrite (receiveLoop_reassembles (firstn j frames) b' (readTime a)
                 (onMessage (core l)) fuel);
        [| apply framed_firstn; assumption | assumption | assumption | lia].
      assert (Hlen' : len (List.concat (skipn j frames) ++ rest) < 2 ^ 32).
      { assert (E : List.concat frames =
                    List.concat (firstn j frames)
                    ++ List.concat (skipn j frames))
          by (rewrite <- concat_app, firstn_skipn; reflexivity).
        rewrite E, <- app_assoc, len_app in Hlen.
        pose proof (len_nonneg (List.concat (firstn j frames))). lia. }
      destruct (IH (skipn j frames) rest fuel
                   (set_core (mkConnection b' (readTime a)
                                (onMessage (core l) ++ firstn j frames))
                             (set_core (mkConnection
                                (List.concat (firstn j frames) ++ b')
                                (lastRead (core l)) (onMessage (core l))) l)))
        as [c' [Hr [Hb Hm]]]; try assumption.
      * apply framed_skipn; assumption.
      * rewrite length_skipn. lia.
      * exists c'. split; [| split; [assumption |]].
        -- rewrite Hr. destruct l; reflexivity.
        -- rewrite Hm. simpl. rewrite <- app_assoc, firstn_skipn.
           reflexivity.
Qed.

Lemma read_from_empty answers frames rest fuel l :
  Forall quiet answers -> Forall framed frames -> incomplete rest ->
  readBuffer (core l) = [] ->
  chunks answers = List.concat frames ++ rest ->
  len (chunks answers) < 2 ^ 32 ->
  (List.length frames < fuel)%nat ->
  exists c',
    read fuel answers l = Some (Done (set_core c' l)) /\
    readBuffer c' = rest /\
    onMessage c' = onMessage (core l) ++ frames.
Proof.
  intros Hq Hf Hinc Hempty Heq Hlen Hfuel.
  apply read_quiet; try assumption.
  - rewrite Hempty. left. unfold len. simpl. lia.
  - rewrite Hempty. assumption.
  - rewrite <- Heq. assumption.
Qed.

(** X1. However the socket cuts a stream of frames into reads,
    empty reads included, the reader hands over exactly the frames of
    the stream, in order, and keeps exactly the incomplete rest;
    nothing else of the connection changes. *)
Theorem read_reassembles_any_chunking
    (answers : list read_answer) (frames : list (list Byte.byte))
    (rest : list Byte.byte) (fuel : nat) (l : Link) :
  Forall quiet answers -> Forall framed frames -> incomplete rest ->
  readBuffer (core l) = [] ->
  chunks answers = List.concat frames ++ rest ->
  len (chunks answers) < 2 ^ 32 ->
  (List.length frames < fuel)%nat ->
  exists c',
    read fuel answers l = Some (Done (set_core c' l)) /\
    readBuffer c' = rest /\
    onMessage c' = onMessage (core l) ++ frames.
Proof.
  intros Hq Hf Hinc Hempty Heq Hlen Hfuel.
  apply read_from_empty; assumption.
Qed.

Lemma read_app pre : forall more fuel l,
  Forall quiet pre ->
  read fuel (pre ++ more) l =
  match read fuel pre l with
  | Some (Done l1) => read fuel more l1
  | other => other
  end.
Proof.
  induction pre as [| a pre IH]; intros more fuel l Hq; [reflexivity |].
  inversion Hq as [| a' pre' Ha Hqs]; subst. unfold quiet in Ha.
  cbn [read app]. rewrite Ha.
  destruct (len (readBytes a) =? 0); [apply IH; assumption |].
  destruct (receiveMessage fuel (readTime a) _); [| reflexivity].
  apply IH. assumption.
Qed.

(** X2. When a read reports an error, the reader closes the
    connection with that error and stops: the frames of the reads
    before it have been handed over, the bytes that came with the error
    are appended to the buffer but not looked at, and later answers of
    the socket are not read. *)
Theorem read_stops_at_error
    (before after : list read_answer) (failing : read_answer) (err : error)
    (frames : list (list Byte.byte)) (rest : list Byte.byte)
    (fuel : nat) (l : Link) :
  Forall quiet before -> readErr failing = Some err ->
  Forall framed frames -> incomplete rest ->
  readBuffer (core l) = [] ->
  chunks before = List.concat frames ++ rest ->
  len (chunks before) < 2 ^ 32 ->
  (List.length frames < fuel)%nat ->
  status l = 0 -> closedChannel l = false ->
  exists t,
    read fuel (before ++ failing :: after) l =
    Some (Done (mkLink
                  (mkConnection (rest ++ readBytes failing) t
                                (onMessage (core l) ++ frames))
                  1 true (Some (readTime failing)) (socketAccepted l)
                  (socketWrites l) (connectionClosed l ++ [err]))).
Proof.
  intros Hq Herr Hf Hinc Hempty Heq Hlen Hfuel Hs Hc.
  destruct (read_from_empty before frames rest fuel l)
    as [c' [Hr [Hb Hm]]]; try assumption.
  rewrite read_app by assumption. rewrite Hr.
  cbn [read]. rewrite Herr. unfold close. simpl.
  rewrite Hs, Hc. simpl. exists (lastRead c').
  rewrite Hb, Hm. reflexivity.
Qed.

(** X5. A new connection writes the preamble once and does not
    look at the answer: what the socket has accepted after the first
    message is written is as much of "CB2" as the socket took in that
    one write, followed by the whole message. *)
Theorem preamble_then_message
    (sock : socket) (now : Z) (buffer : list Byte.byte) :
  makes_progress sock ->
  exists r l',
    write (S (List.length buffer)) sock buffer (newConnection sock now) =
      Some (r, l') /\
    (r = None ->
     socketAccepted l' =
     firstn (fst (sock 0%nat 3%nat)) preamble ++ buffer) /\
    ((3 <= fst (sock 0%nat 3%nat))%nat ->
     socketAccepted (newConnection sock now) = preamble).
Proof.
  intros Hp.
  destruct (writeLoop_ends sock buffer Hp (S (List.length buffer)) 0
                           (newConnection sock now))
    as [r [l' Hrun]]; [lia | lia |].
  simpl Z.of_nat in Hrun. rewrite Z.sub_0_r in Hrun.
  exists r, l'. split; [exact Hrun |].
  assert (Hnew : socketAccepted (newConnection sock now) =
                 firstn (fst (sock 0%nat 3%nat)) preamble).
  { unfold newConnection, socket_Write. simpl.
    destruct (sock 0%nat 3%nat) as [n e]. simpl.
    destruct n as [| [| [| n]]]; simpl; rewrite ?firstn_nil; reflexivity. }
  split.
  - intros E.
    pose proof (writeLoop_sends (S (List.length buffer)) sock buffer 0
                  (newConnection sock now) r l') as Hsent.
    simpl Z.of_nat in Hsent. rewrite Z.sub_0_r in Hsent.
    destruct (Hsent ltac:(lia) Hrun) as [k [Hk [Hacc Hr]]].
    simpl skipn in Hacc. rewrite Nat.sub_0_r in Hacc.
    rewrite Hacc, (Hr E), firstn_all, Hnew. reflexivity.
  - intros H3. rewrite Hnew.
    destruct (fst (sock 0%nat 3%nat)) as [| [| [| n]]]; try lia.
    simpl. rewrite firstn_nil. reflexivity.
Qed.

(** *** At concrete connections *)

Definition sample_answers : list read_answer :=
  [mkRead [Byte.x06; Byte.x00] None 1;
   mkRead [] None 2;
   mkRead [Byte.x00; Byte.x00; Byte.xaa; Byte.xbb; Byte.x05] None 3;
   mkRead [Byte.x00; Byte.x00; Byte.x00; Byte.xcc; Byte.x09; Byte.x00;
           Byte.x00] None 4].

Lemma sample_frames_framed : Forall framed sample_frames.
Proof.
  unfold sample_frames, framed.
  repeat apply Forall_cons; try apply Forall_nil;
    (split; [reflexivity | reflexivity]).
Qed.

Lemma sample_rest_incomplete : incomplete sample_rest.
Proof. left. vm_compute. discriminate. Qed.

Lemma three_at_a_time_makes_progress : makes_progress three_at_a_time.
Proof. intros k m _ _. simpl. lia. Qed.

Lemma close_is_idempotent_witness :
  close_all [(OtherError "EOF", 5); (OtherError "again", 6)] fresh_link =
  close (OtherError "EOF") 5 fresh_link.
Proof.
  apply (close_is_idempotent (OtherError "EOF") 5
           [(OtherError "again", 6)] fresh_link); reflexivity.
Defined.


Lemma preamble_then_message_witness :
  socketAccepted (newConnection three_at_a_time 0) = preamble.
Proof.
  destruct (preamble_then_message three_at_a_time 0 []
              three_at_a_time_makes_progress) as [r [l' [_ [_ H]]]].
  apply H. simpl. lia.
Defined.

Lemma read_reassembles_any_chunking_witness :
  exists c',
    read 3 sample_answers fresh_link = Some (Done (set_core c' fresh_link)) /\
    readBuffer c' = sample_rest /\ onMessage c' = sample_frames.
Proof.
  apply (read_reassembles_any_chunking sample_answers sample_frames
           sample_rest 3 fresh_link).
  - repeat constructor.
  - exact sample_frames_framed.
  - exact sample_rest_incomplete.
  - reflexivity.
  - reflexivity.
  - reflexivity.
  - simpl. lia.
Defined.

Lemma read_stops_at_error_witness :
  exists t,
    read 3 (sample_answers
            ++ mkRead [Byte.x07] (Some (OtherError "EOF")) 9
            :: [mkRead [Byte.x01] None 10]) fresh_link =
    Some (Done (mkLink
                  (mkConnection (sample_rest ++ [Byte.x07]) t sample_frames)
                  1 true (Some 9) [] 0 [OtherError "EOF"])).
Proof.
  apply (read_stops_at_error sample_answers [mkRead [Byte.x01] None 10]
           (mkRead [Byte.x07] (Some (OtherError "EOF")) 9)
           (OtherError "EOF") sample_frames sample_rest 3 fresh_link).
  - repeat constructor.
  - reflexivity.
  - exact sample_frames_framed.
  - exact sample_rest_incomplete.
  - reflexivity.
  - reflexivity.
  - reflexivity.
  - simpl. lia.
  - reflexivity.
  - reflexivity.
Defined.

End ConnectionIOFacts.

Module CPMoreFacts.
Import GoStrings GoStringsFacts CPNamesFacts.
Local Open Scope string_scope.

(** The two ways of splitting a string at its first '@' agree. *)
Lemma split_at_first_unique o : forall g o' g',
  o ++ "@" ++ g = o' ++ "@" ++ g' ->
  count_at o = 0%nat -> count_at o' = 0%nat -> o = o' /\ g = g'.
Proof.
  induction o as [| c o IH]; intros g o' g' Heq Ho Ho'.
  - destruct o' as [| c' o']; simpl in Heq.
    + inversion Heq. auto.
    + inversion Heq; subst c'. simpl in Ho'. discriminate.
  - destruct o' as [| c' o']; simpl in Heq.
    + inversion Heq; subst c. simpl in Ho. discriminate.
    + inversion Heq; subst c'. simpl in Ho, Ho'.
      destruct (Ascii.eqb c "@"); [discriminate |].
      destruct (IH g o' g' H1 Ho Ho') as [-> ->]. auto.
Qed.

(** X6. An object name never contains an '@': it is the name itself when
    the name has none, and otherwise the trimmed text before the first
    '@', which is not empty then, and neither is the trimmed text
    behind the first '@'.  The same holds for the exported manager. *)
Theorem object_name_has_no_at (name obj : string) :
  ProxyFactory.objectNameForProxy name = inl obj \/
  ProxyManager.objectNameForProxy name = ProxyManager.Returns obj ->
  count_at obj = 0%nat /\
  (count_at name = 0%nat -> obj = name) /\
  (count_at name <> 0%nat -> obj <> "") /\
  (forall o g,
      name = o ++ "@" ++ g -> count_at o = 0%nat ->
      obj = TrimSpace o /\ TrimSpace o <> "" /\ TrimSpace g <> "").
Proof.
  intros H.
  destruct (Nat.eq_dec (count_at name) 0) as [Hc | Hc].
  - destruct (no_at_names name Hc) as [H1 [_ [H3 _]]].
    rewrite H1, H3 in H.
    assert (obj = name) by (destruct H as [H | H]; inversion H; reflexivity).
    subst obj.
    split; [assumption | split; [reflexivity | split; [contradiction |]]].
    intros o g Hname _. rewrite Hname, !count_at_app in Hc.
    simpl in Hc. lia.
  - destruct (split_at_first name Hc) as [o [g [Hname [Ho _]]]].
    rewrite (factory_objectNameForProxy_split _ _ _ Hname Ho) in H.
    rewrite (manager_objectNameForProxy_split _ _ _ Hname Ho) in H.
    destruct (String.eqb_spec (TrimSpace g) "") as [Eg | Eg];
      [destruct H as [H | H]; discriminate |].
    destruct (String.eqb_spec (TrimSpace o) "") as [E | E];
      [destruct H as [H | H]; discriminate |].
    assert (obj = TrimSpace o)
      by (destruct H as [H | H]; inversion H; reflexivity).
    subst obj.
    split; [rewrite count_at_TrimSpace; assumption |].
    split; [intros Hn; contradiction |].
    split; [intros _; assumption |].
    intros o' g' Hname' Ho'. rewrite Hname in Hname'.
    destruct (split_at_first_unique _ _ _ _ Hname' Ho Ho') as [<- <-].
    auto.
Qed.

(** X7. A proxy name has at most one '@', and when it has one, the group
    behind it is neither the default group nor the metadata group,
    in any spelling of upper and lower case. *)
Theorem proxy_name_shape (proxyName r : string) :
  ProxyFactory.withoutDefaultGroupName proxyName = inl r \/
  ProxyManager.withoutDefaultGroupName proxyName = ProxyManager.Returns r ->
  (count_at r <= 1)%nat /\
  forall o g,
    r = o ++ "@" ++ g -> count_at o = 0%nat ->
    ToLower (TrimSpace g) <> "default" /\ ToLower (TrimSpace g) <> "metadata".
Proof.
  intros H.
  destruct (Nat.eq_dec (count_at (TrimSpace proxyName)) 0) as [Hc | Hc].
  - assert (Hn : count_at proxyName = 0%nat)
      by (rewrite <- count_at_TrimSpace; assumption).
    destruct (no_at_names proxyName Hn) as [_ [H2 [_ H4]]].
    rewrite H2, H4 in H.
    assert (r = TrimSpace proxyName)
      by (destruct H as [H | H]; inversion H; reflexivity).
    subst r. split; [lia |].
    intros o g Heq _. rewrite Heq, !count_at_app in Hc. simpl in Hc. lia.
  - destruct (split_at_first _ Hc) as [obj [grp [Hname [Hobj Hcount]]]].
    rewrite (factory_withoutDefaultGroupName_split _ _ _ Hname Hobj) in H.
    rewrite (manager_withoutDefaultGroupName_split _ _ _ Hname Hobj) in H.
    destruct (Nat.eqb_spec (count_at grp) 0) as [Hg | Hg]; simpl in H;
      [| destruct H as [H | H]; discriminate].
    destruct (String.eqb_spec (ToLower (TrimSpace grp)) "metadata")
      as [Em | Em]; [destruct H as [H | H]; discriminate |].
    destruct (String.eqb_spec (ToLower (TrimSpace grp)) "default")
      as [Ed | Ed].
    + assert (r = obj) by (destruct H as [H | H]; inversion H; reflexivity).
      subst r. split; [lia |].
      intros o g Heq _. rewrite Heq, !count_at_app in Hobj. simpl in Hobj. lia.
    + assert (r = obj ++ "@" ++ grp)
        by (destruct H as [H | H]; inversion H; reflexivity).
      subst r. split.
      * rewrite !count_at_app. simpl. lia.
      * intros o g Heq Ho.
        destruct (split_at_first_unique _ _ _ _ Heq Hobj Ho) as [_ <-].
        split; assumption.
Qed.

(** X8. Given the same argument, withoutDefaultGroupName of the
    internal factory and of the exported manager agree, and so do the
    two objectNameForProxy: where the one returns an error the other
    panics, and where the one returns a name the other returns the
    same name.  The two getOrCreateProxy do not give the same
    argument to objectNameForProxy: the factory gives it the name as
    it came, the manager the proxy name it has just computed.  So the
    two agree on the names of a proxy when the proxy name is the name
    itself, and they differ on " counter ", whose object name keeps
    its white space in the factory only, and on "@default", which the
    factory rejects and the manager accepts. *)
Theorem variants_agree (name : string) :
  match ProxyFactory.withoutDefaultGroupName name,
        ProxyManager.withoutDefaultGroupName name with
  | inl r, ProxyManager.Returns r' => r = r'
  | inr _, ProxyManager.Panics _ => True
  | _, _ => False
  end /\
  match ProxyFactory.objectNameForProxy name,
        ProxyManager.objectNameForProxy name with
  | inl r, ProxyManager.Returns r' => r = r'
  | inr _, ProxyManager.Panics _ => True
  | _, _ => False
  end /\
  (ProxyFactory.withoutDefaultGroupName name = inl name ->
   match CPNames.factory_names name,
         ProxyManager.proxy_and_object_name name with
   | inl names, ProxyManager.Returns names' => names = names'
   | inr _, ProxyManager.Panics _ => True
   | _, _ => False
   end) /\
  CPNames.factory_names " counter " = inl ("counter", " counter ") /\
  ProxyManager.proxy_and_object_name " counter " =
    ProxyManager.Returns ("counter", "counter") /\
  CPNames.factory_names "@default" =
    inr (IllegalArgumentError "object name cannot be empty string") /\
  ProxyManager.proxy_and_object_name "@default" =
    ProxyManager.Returns ("", "").
Proof.
  assert (Hw : match ProxyFactory.withoutDefaultGroupName name,
                     ProxyManager.withoutDefaultGroupName name with
               | inl r, ProxyManager.Returns r' => r = r'
               | inr _, ProxyManager.Panics _ => True
               | _, _ => False
               end).
  { destruct (Nat.eq_dec (count_at (TrimSpace name)) 0) as [Hc | Hc].
    + assert (Hn : count_at name = 0%nat)
        by (rewrite <- count_at_TrimSpace; assumption).
      destruct (no_at_names name Hn) as [_ [H2 [_ H4]]].
      rewrite H2, H4. reflexivity.
    + destruct (split_at_first _ Hc) as [obj [grp [Hname [Hobj _]]]].
      rewrite (factory_withoutDefaultGroupName_split _ _ _ Hname Hobj).
      rewrite (manager_withoutDefaultGroupName_split _ _ _ Hname Hobj).
      destruct (negb (count_at grp =? 0)%nat); [exact I |].
      destruct (String.eqb (ToLower (TrimSpace grp)) "metadata"); [exact I |].
      destruct (String.eqb (ToLower (TrimSpace grp)) "default"); reflexivity. }
  assert (Ho : match ProxyFactory.objectNameForProxy name,
                     ProxyManager.objectNameForProxy name with
               | inl r, ProxyManager.Returns r' => r = r'
               | inr _, ProxyManager.Panics _ => True
               | _, _ => False
               end).
  { destruct (Nat.eq_dec (count_at name) 0) as [Hc | Hc].
    + destruct (no_at_names name Hc) as [H1 [_ [H3 _]]].
      rewrite H1, H3. reflexivity.
    + destruct (split_at_first _ Hc) as [obj [grp [Hname [Hobj _]]]].
      rewrite (factory_objectNameForProxy_split _ _ _ Hname Hobj).
      rewrite (manager_objectNameForProxy_split _ _ _ Hname Hobj).
      destruct (String.eqb (TrimSpace grp) ""); [exact I |].
      destruct (String.eqb (TrimSpace obj) ""); [exact I | reflexivity]. }
  split; [exact Hw | split; [exact Ho |]].
  split; [| repeat split; reflexivity].
  intros Hsame.
  unfold CPNames.factory_names, ProxyManager.proxy_and_object_name.
  rewrite Hsame in Hw |- *.
  destruct (ProxyManager.withoutDefaultGroupName name) as [r' | msg];
    [| contradiction].
  subst r'.
  destruct (ProxyFactory.objectNameForProxy name) as [o | e],
    (ProxyManager.objectNameForProxy name) as [o' | msg];
    try contradiction; [congruence | exact I].
Qed.

(** X9. The factory makes a proxy only for the atomic long service, and
    only when both names parse and the cluster answers the group
    request; the proxy then carries the group id, the stripped proxy
    name and the object name.  For any other service the call fails
    with an invalid-argument error. *)
Theorem factory_getOrCreateProxy_result
    (createGroupID : string -> Z + error) (service name : string) :
  (forall p,
      ProxyFactory.getOrCreateProxy createGroupID service name = inl p ->
      service = ProxyFactory.atomicLongService /\
      ProxyFactory.withoutDefaultGroupName name =
        inl (ProxyFactory.proxyName p) /\
      ProxyFactory.objectNameForProxy name = inl (ProxyFactory.objectName p) /\
      createGroupID name = inl (ProxyFactory.groupID p) /\
      ProxyFactory.serviceName p = service) /\
  (service <> ProxyFactory.atomicLongService ->
   exists err, ProxyFactory.getOrCreateProxy createGroupID service name =
               inr err).
Proof.
  unfold ProxyFactory.getOrCreateProxy. split.
  - intros p H.
    destruct (ProxyFactory.withoutDefaultGroupName name) as [pxy | e];
      [| discriminate].
    destruct (ProxyFactory.objectNameForProxy name) as [obj | e];
      [| discriminate].
    destruct (createGroupID name) as [gid | e]; [| discriminate].
    destruct (String.eqb_spec service ProxyFactory.atomicLongService)
      as [E | E]; [| discriminate].
    inversion H; subst p. simpl. auto.
  - intros Hs.
    destruct (ProxyFactory.withoutDefaultGroupName name) as [pxy | e];
      [| eauto].
    destruct (ProxyFactory.objectNameForProxy name) as [obj | e];
      [| eauto].
    destruct (createGroupID name) as [gid | e]; [| eauto].
    destruct (String.eqb_spec service ProxyFactory.atomicLongService)
      as [E | E]; [contradiction | eauto].
Qed.

Lemma object_name_has_no_at_witness :
  count_at "counter" = 0%nat /\
  (count_at " counter @custom" = 0%nat -> "counter" = " counter @custom") /\
  (count_at " counter @custom" <> 0%nat -> "counter" <> "") /\
  (forall o g,
      " counter @custom" = o ++ "@" ++ g -> count_at o = 0%nat ->
      "counter" = TrimSpace o /\ TrimSpace o <> "" /\ TrimSpace g <> "").
Proof.
  apply (object_name_has_no_at " counter @custom" "counter").
  left. reflexivity.
Defined.

Lemma variants_agree_witness :
  match CPNames.factory_names "counter@custom",
        ProxyManager.proxy_and_object_name "counter@custom" with
  | inl names, ProxyManager.Returns names' => names = names'
  | inr _, ProxyManager.Panics _ => True
  | _, _ => False
  end.
Proof.
  destruct (variants_agree "counter@custom") as [_ [_ [H _]]].
  apply H. reflexivity.
Defined.

Lemma proxy_name_shape_witness : (count_at "counter@custom" <= 1)%nat.
Proof.
  apply (proxy_name_shape " counter@custom " "counter@custom").
  left. reflexivity.
Defined.

Lemma factory_getOrCreateProxy_result_witness :
  exists err,
    ProxyFactory.getOrCreateProxy (fun _ => inl 1) "hz:raft:lockService"
                                  "counter" = inr err.
Proof.
  destruct (factory_getOrCreateProxy_result (fun _ => inl 1)
              "hz:raft:lockService" "counter") as [_ H].
  apply H. discriminate.
Defined.

End CPMoreFacts.

Module ProxyCacheFacts.
Import GoStrings ProxyManager ProxyCache.
Local Open Scope string_scope.

Section Facts.

Context {GroupId Proxy Wrapper : Type}.

Implicit Types (m : manager Wrapper).

Lemma lookup_store (proxyName : string) (w : Wrapper)
    (l : list (string * Wrapper)) :
  lookup proxyName (store proxyName w l) = Some w.
Proof. unfold store. simpl. rewrite String.eqb_refl. reflexivity. Qed.

(** X11. Every call that does not panic asks the cluster for the group
    once ([createGroupId], with the stripped proxy name), whether the
    proxy is in the map or not; a proxy that is in the map is returned as it is; and a
    call that returns an error leaves the map as it was. *)
Theorem getOrCreateProxy_requests_and_errors
    (createGroupId : string -> GroupId + error)
    (newProxy : option GroupId -> string -> string -> string -> Proxy + error)
    (wrapProxyFn : Proxy -> Wrapper + error)
    (serviceName proxyName : string) m r m' :
  getOrCreateProxy createGroupId newProxy wrapProxyFn serviceName proxyName m
  = Returns (r, m') ->
  exists stripped,
    withoutDefaultGroupName proxyName = Returns stripped /\
    groupRequests m' = (groupRequests m ++ [stripped])%list /\
    (forall w, lookup stripped (proxies m) = Some w ->
               r = inl w /\ proxies m' = proxies m) /\
    (forall err, r = inr err -> proxies m' = proxies m).
Proof.
  unfold getOrCreateProxy. intros H.
  destruct (withoutDefaultGroupName proxyName) as [stripped | msg];
    [| discriminate].
  destruct (objectNameForProxy stripped) as [objectName | msg];
    [| discriminate].
  exists stripped. split; [reflexivity |]. cbn [proxies groupRequests] in H.
  destruct (lookup stripped (proxies m)) as [w0 |] eqn:Hl.
  - inversion H; subst r m'. simpl.
    split; [reflexivity |]. split; [| discriminate].
    intros w Hw. inversion Hw; subst. auto.
  - destruct (newProxy _ serviceName stripped objectName) as [p | e].
    + destruct (wrapProxyFn p) as [w | e]; inversion H; subst r m'; simpl.
      * split; [reflexivity |]. split; [discriminate | discriminate].
      * split; [reflexivity |]. split; [discriminate | reflexivity].
    + inversion H; subst r m'. simpl.
      split; [reflexivity |]. split; [discriminate | reflexivity].
Qed.

(** X10. Once a name has been given its proxy, every name with the same
    stripped proxy name gets that same proxy again, whatever the
    cluster, the proxy constructor and the wrapper would answer now
    and whatever service is asked for: nothing is created and the map
    stays as it is. *)
Theorem getOrCreateProxy_again
    (createGroupId createGroupId' : string -> GroupId + error)
    (newProxy newProxy' :
       option GroupId -> string -> string -> string -> Proxy + error)
    (wrapProxyFn wrapProxyFn' : Proxy -> Wrapper + error)
    (serviceName serviceName' proxyName proxyName' : string) m w m' :
  getOrCreateProxy createGroupId newProxy wrapProxyFn serviceName proxyName m
  = Returns (inl w, m') ->
  withoutDefaultGroupName proxyName' = withoutDefaultGroupName proxyName ->
  exists stripped,
    withoutDefaultGroupName proxyName = Returns stripped /\
    getOrCreateProxy createGroupId' newProxy' wrapProxyFn' serviceName'
                     proxyName' m'
    = Returns (inl w, mkManager (proxies m') (groupRequests m' ++ [stripped])%list).
Proof.
  unfold getOrCreateProxy. intros H Hsame. rewrite Hsame.
  destruct (withoutDefaultGroupName proxyName) as [stripped | msg];
    [| discriminate].
  destruct (objectNameForProxy stripped) as [objectName | msg];
    [| discriminate].
  exists stripped. split; [reflexivity |]. cbn [proxies groupRequests] in *.
  assert (Hl : lookup stripped (proxies m') = Some w).
  { destruct (lookup stripped (proxies m)) as [w0 |] eqn:Hl0.
    - inversion H; subst. simpl. assumption.
    - destruct (newProxy _ serviceName stripped objectName) as [p | e];
        [| discriminate].
      destruct (wrapProxyFn p) as [w1 | e]; [| discriminate].
      inversion H; subst. simpl. apply lookup_store. }
  rewrite Hl. reflexivity.
Qed.

End Facts.

Example same_proxy_for_equivalent_names :
  match sample_getOrCreateProxy AtomicLongService "counter@default"
          (mkManager [] []) with
  | Returns (_, m1) =>
      sample_getOrCreateProxy LockService " counter " m1
  | Panics msg => Panics msg
  end =
  Returns (inl (AtomicLongService, "counter", "counter"),
           mkManager [("counter", (AtomicLongService, "counter", "counter"))]
                     ["counter"; "counter"]).
Proof. reflexivity. Qed.

Lemma getOrCreateProxy_requests_and_errors_witness :
  exists stripped,
    withoutDefaultGroupName "counter@default" = Returns stripped /\
    stripped = "counter".
Proof.
  destruct (getOrCreateProxy_requests_and_errors
              (fun _ => inl 1)
              (fun _ service proxyName objectName =>
                 inl (service, proxyName, objectName))
              (fun p => inl p)
              AtomicLongService "counter@default" (mkManager [] [])
              (inl (AtomicLongService, "counter", "counter"))
              (mkManager
                 [("counter", (AtomicLongService, "counter", "counter"))]
                 ["counter"]) eq_refl)
    as [stripped [H _]].
  exists stripped. split; [exact H |].
  vm_compute in H. inversion H. reflexivity.
Defined.

Lemma getOrCreateProxy_again_witness :
  exists stripped,
    withoutDefaultGroupName "counter@default" = Returns stripped /\
    sample_getOrCreateProxy LockService " counter "
      (mkManager [("counter", (AtomicLongService, "counter", "counter"))]
                 ["counter"])
    = Returns (inl (AtomicLongService, "counter", "counter"),
               mkManager
                 [("counter", (AtomicLongService, "counter", "counter"))]
                 (["counter"] ++ [stripped])%list).
Proof.
  apply (getOrCreateProxy_again
           (fun _ => inl 1) (fun _ => inl 1)
           (fun _ service proxyName objectName =>
              inl (service, proxyName, objectName))
           (fun _ service proxyName objectName =>
              inl (service, proxyName, objectName))
           (fun p => inl p) (fun p => inl p)
           AtomicLongService LockService "counter@default" " counter "
           (mkManager [] [])
           (AtomicLongService, "counter", "counter")
           (mkManager [("counter", (AtomicLongService, "counter", "counter"))]
                      ["counter"])).
  - reflexivity.
  - reflexivity.
Defined.

End ProxyCacheFacts.

Module ClientAPIFacts.
Import Lifecycle ClientAPI.

Lemma lookup_after_delete {V : Type} (k : Z) (m : list (Z * V)) :
  lookup k (delete k m) = None.
Proof.
  unfold delete. induction m as [| [k' v] m IH]; simpl; [reflexivity |].
  destruct (Z.eqb_spec k' k); simpl; [assumption |].
  destruct (Z.eqb_spec k' k); [contradiction | assumption].
Qed.


Lemma lookup_after_store {V : Type} (k : Z) (v : V) (m : list (Z * V)) :
  lookup k (store k v m) = Some v.
Proof. unfold store. simpl. rewrite Z.eqb_refl. reflexivity. Qed.


Section Facts.

Context {PM LifecycleHandler MembershipHandler RefIDGen : Type}.
Variable NextID : RefIDGen -> Z * RefIDGen.

Abbreviation Handle :=
  (Handle PM LifecycleHandler MembershipHandler RefIDGen).
Abbreviation subscription :=
  (subscription LifecycleHandler MembershipHandler).

Implicit Types (c : Handle) (d : list subscription).






Local Arguments store : simpl never.
Local Arguments delete : simpl never.
Local Arguments Unsubscribe : simpl never.
Local Arguments SubscribeSync : simpl never.

(** X12. The four listener calls are refused with the not-ready error, and
    change nothing, exactly from the state stopping on; before that,
    in the states created, starting and ready, they are accepted.  So
    a client that has been shut down takes no listener any more, while
    a client whose start has failed still does. *)
Theorem listener_calls_guard
    (uuid : Z) (h : LifecycleHandler) (hm : MembershipHandler) c :
  (stopping <= state (client c) ->
   AddLifecycleListener NextID uuid h c = ((0, Some ErrClientNotReady), c) /\
   RemoveLifecycleListener uuid c = (Some ErrClientNotReady, c) /\
   AddMembershipListener NextID uuid hm c = ((0, Some ErrClientNotReady), c) /\
   RemoveMembershipListener uuid c = (Some ErrClientNotReady, c)) /\
  (state (client c) < stopping ->
   fst (AddLifecycleListener NextID uuid h c) = (uuid, None) /\
   fst (RemoveLifecycleListener uuid c) = None /\
   fst (AddMembershipListener NextID uuid hm c) = (uuid, None) /\
   fst (RemoveMembershipListener uuid c) = None) /\
  (state (client c) = ready ->
   fst (AddLifecycleListener NextID uuid h
          (with_client (fun k => snd (Shutdown k)) c))
   = (0, Some ErrClientNotReady)) /\
  (state (client c) = created ->
   forall err,
     fst (AddLifecycleListener NextID uuid h
            (with_client (fun k => snd (start (Some err) k)) c))
     = (uuid, None)).
Proof.
  unfold AddLifecycleListener, RemoveLifecycleListener,
    AddMembershipListener, RemoveMembershipListener, LoadInt32,
    nextSubscriptionID.
  split; [| split; [| split]].
  - intros H.
    destruct (Z.geb_spec (state (client c)) stopping); [auto | lia].
  - intros H.
    destruct (Z.geb_spec (state (client c)) stopping); [lia |].
    destruct (NextID (refIDGen c)) as [id gen].
    repeat split.
    + destruct (lookup uuid (lifecyleListenerMap c)); reflexivity.
    + destruct (lookup uuid (membershipListenerMap c)); reflexivity.
  - intros H. simpl.
    unfold Shutdown, CompareAndSwapInt32. rewrite H. reflexivity.
  - intros H err. simpl.
    unfold start, CompareAndSwapInt32. rewrite H. simpl.
    destruct (NextID (refIDGen c)) as [id gen]. reflexivity.
Qed.


(** X14. Removing a listener a second time, or removing one that was never
    added, changes nothing; while the client accepts listener calls, it
    is not an error either. *)
Theorem remove_listener_is_idempotent (uuid : Z) c :
  RemoveLifecycleListener uuid (snd (RemoveLifecycleListener uuid c)) =
    (fst (RemoveLifecycleListener uuid c),
     snd (RemoveLifecycleListener uuid c)) /\
  RemoveMembershipListener uuid (snd (RemoveMembershipListener uuid c)) =
    (fst (RemoveMembershipListener uuid c),
     snd (RemoveMembershipListener uuid c)) /\
  (state (client c) < stopping ->
   lookup uuid (lifecyleListenerMap c) = None ->
   RemoveLifecycleListener uuid c = (None, c)) /\
  (state (client c) < stopping ->
   lookup uuid (membershipListenerMap c) = None ->
   RemoveMembershipListener uuid c = (None, c)).
Proof.
  unfold RemoveLifecycleListener, RemoveMembershipListener, LoadInt32.
  destruct (Z.geb_spec (state (client c)) stopping) as [Hge | Hlt].
  - simpl. destruct (Z.geb_spec (state (client c)) stopping); [| lia].
    repeat split; intros; lia.
  - split; [| split; [| split]].
    + destruct (lookup uuid (lifecyleListenerMap c)) eqn:Hl; simpl;
        destruct (Z.geb_spec (state (client c)) stopping); try lia.
      * rewrite lookup_after_delete. reflexivity.
      * rewrite Hl. reflexivity.
    + destruct (lookup uuid (membershipListenerMap c)) eqn:Hl; simpl;
        destruct (Z.geb_spec (state (client c)) stopping); try lia.
      * rewrite lookup_after_delete. reflexivity.
      * rewrite Hl. reflexivity.
    + intros _ Hl. rewrite Hl. reflexivity.
    + intros _ Hl. rewrite Hl. reflexivity.
Qed.

(** *** Creating and starting a client *)

Lemma fold_left_keeps {A B : Type} (P : A -> Prop) (f : A -> B -> A)
    (l : list B) : forall a,
  (forall a x, P a -> P (f a x)) -> P a -> P (fold_left f l a).
Proof.
  induction l as [| x l IH]; intros a Hf Ha; [assumption |].
  simpl. apply IH; auto.
Qed.

Lemma addConfigEvents_keeps (config : Config LifecycleHandler MembershipHandler)
    c :
  name (addConfigEvents NextID config c) = name c /\
  client (addConfigEvents NextID config c) = client c.
Proof.
  unfold addConfigEvents.
  apply (fold_left_keeps (fun c' => name c' = name c /\ client c' = client c)).
  - intros a [uuid h] Ha. unfold nextSubscriptionID.
    destruct (NextID (refIDGen a)). exact Ha.
  - apply (fold_left_keeps
             (fun c' => name c' = name c /\ client c' = client c)).
    + intros a [uuid h] Ha. unfold nextSubscriptionID.
      destruct (NextID (refIDGen a)). exact Ha.
    + auto.
Qed.

End Facts.

Lemma client_name_inj (a b : Z) : client_name a = client_name b -> a = b.
Proof.
  unfold client_name. intros H. simpl in H. inversion H as [H1].
  apply DecimalZ.to_int_inj.
  assert (Hs : Some (Z.to_int a) = Some (Z.to_int b)).
  { rewrite <- (DecimalString.NilEmpty.isi (Z.to_int a)).
    rewrite <- (DecimalString.NilEmpty.isi (Z.to_int b)).
    rewrite H1. reflexivity. }
  inversion Hs. reflexivity.
Qed.

Lemma AddInt32_moves (v : Z) : AddInt32 (AddInt32 v 1) 1 <> AddInt32 v 1.
Proof.
  unfold AddInt32.
  pose proof (Z.mod_pos_bound (v + 1 + 2 ^ 31) (2 ^ 32) ltac:(lia)) as Hb.
  set (u := (v + 1 + 2 ^ 31) mod 2 ^ 32) in *.
  replace (u - 2 ^ 31 + 1 + 2 ^ 31) with (u + 1) by lia.
  destruct (Z.eq_dec u (2 ^ 32 - 1)) as [E | E].
  - rewrite E. replace (2 ^ 32 - 1 + 1) with (2 ^ 32) by lia.
    rewrite Z.mod_same by lia. lia.
  - rewrite Z.mod_small by lia. lia.
Qed.

Section MoreFacts.

Context {PM LifecycleHandler MembershipHandler RefIDGen : Type}.
Variable NextID : RefIDGen -> Z * RefIDGen.

Abbreviation Config := (Config LifecycleHandler MembershipHandler).

Lemma newClient_result (config : Config) (gen : RefIDGen) (pm : PM)
    (nextId : Z) c id' :
  newClient NextID config gen pm nextId = (inl c, id') ->
  id' = AddInt32 nextId 1 /\
  client c = mkClient created pm [] /\
  Name c = (if String.eqb (ClientName config) "" then client_name id'
            else ClientName config) /\
  Validate config = None /\ GetLogLevel config = None /\
  NewService config = None.
Proof.
  unfold newClient. intros H.
  destruct (Validate config); [discriminate |].
  destruct (GetLogLevel config); [discriminate |].
  destruct (NewService config); [discriminate |].
  inversion H; subst id'. clear H.
  destruct (addConfigEvents_keeps NextID config
              (mkHandle (mkClient created pm [])
                 (if String.eqb
                       (if negb (String.eqb (ClientName config) "")
                        then ClientName config else ""%string) ""
                  then client_name (AddInt32 nextId 1)
                  else if negb (String.eqb (ClientName config) "")
                       then ClientName config else ""%string)
                 [] [] gen [])) as [E1 E2].
  unfold Name. rewrite E1, E2. simpl.
  repeat split.
  destruct (String.eqb_spec (ClientName config) "") as [E | E]; simpl.
  - reflexivity.
  - destruct (String.eqb_spec (ClientName config) ""); [contradiction |].
    reflexivity.
Qed.

(** X15. A new client is in state created and bears the configured name,
    or, when none is configured, "hz.client_" followed by the new
    value of the package counter; a configuration that does not
    validate uses up no counter value; and two clients created one
    after the other without a configured name have different names. *)
Theorem new_clients_are_named
    (config config' : Config) (gen gen' : RefIDGen) (pm pm' : PM)
    (nextId : Z) :
  (forall c id',
      newClient NextID config gen pm nextId = (inl c, id') ->
      id' = AddInt32 nextId 1 /\
      state (client c) = created /\
      Name c = (if String.eqb (ClientName config) "" then client_name id'
                else ClientName config)) /\
  (forall err,
      Validate config = Some err ->
      newClient NextID config gen pm nextId = (inr err, nextId)) /\
  (forall c id' c' id'',
      ClientName config = ""%string -> ClientName config' = ""%string ->
      newClient NextID config gen pm nextId = (inl c, id') ->
      newClient NextID config' gen' pm' id' = (inl c', id'') ->
      Name c <> Name c').
Proof.
  split; [| split].
  - intros c id' H.
    destruct (newClient_result _ _ _ _ _ _ H) as [H1 [H2 [H3 _]]].
    rewrite H2. auto.
  - intros err H. unfold newClient. rewrite H. reflexivity.
  - intros c id' c' id'' Hn Hn' H H'.
    destruct (newClient_result _ _ _ _ _ _ H) as [H1 [_ [H3 _]]].
    destruct (newClient_result _ _ _ _ _ _ H') as [H1' [_ [H3' _]]].
    rewrite H3, H3', Hn, Hn'. simpl. intros E.
    apply client_name_inj in E. subst id' id''.
    symmetry in E. revert E. apply AddInt32_moves.
Qed.

(** X16. StartNewClientWithConfig hands out a client only when the
    configuration validates, the log level and the serialization
    service are accepted and the connection manager connects; that
    client is in state ready.  In every other case it returns no
    client and an error. *)
Theorem started_clients_are_ready
    (config : Config) (gen : RefIDGen) (pm : PM)
    (connStart : option error) (nextId : Z) :
  match StartNewClientWithConfig NextID config gen pm connStart nextId with
  | ((Some c, err), _) =>
      err = None /\ state (client c) = ready /\ Running (client c) = true /\
      Validate config = None /\ GetLogLevel config = None /\
      NewService config = None /\ connStart = None
  | ((None, err), _) =>
      err <> None /\
      (Validate config <> None \/ GetLogLevel config <> None \/
       NewService config <> None \/ connStart <> None)
  end.
Proof.
  unfold StartNewClientWithConfig.
  destruct (newClient NextID config gen pm nextId) as [[c | err] id'] eqn:Hn.
  - destruct (newClient_result _ _ _ _ _ _ Hn) as [_ [Hc [_ [Hv [Hl Hs]]]]].
    rewrite Hc. unfold start, CompareAndSwapInt32. simpl.
    destruct connStart as [e |]; simpl.
    + split; [discriminate |]. right. right. right. discriminate.
    + repeat split; assumption.
  - split; [discriminate |].
    unfold newClient in Hn.
    destruct (Validate config); [left; discriminate |].
    destruct (GetLogLevel config); [right; left; discriminate |].
    destruct (NewService config); [right; right; left; discriminate |].
    discriminate.
Qed.

End MoreFacts.

(** *** At a concrete client *)

Lemma listener_calls_guard_witness :
  fst (AddLifecycleListener counting 77 "on-change"%string sample_handle)
  = (77, None) /\
  fst (AddLifecycleListener counting 77 "on-change"%string
         (with_client (fun k => snd (Shutdown k)) sample_handle))
  = (0, Some ErrClientNotReady).
Proof.
  destruct (listener_calls_guard counting 77 "on-change"%string
              "on-member"%string sample_handle) as [_ [H2 [H3 _]]].
  split.
  - apply H2. reflexivity.
  - apply H3. reflexivity.
Defined.


Lemma remove_listener_is_idempotent_witness :
  RemoveLifecycleListener 5 sample_handle = (None, sample_handle).
Proof.
  destruct (remove_listener_is_idempotent 5 sample_handle)
    as [_ [_ [H _]]].
  apply H; reflexivity.
Defined.

Definition sample_config : Config string string :=
  mkConfig None ""%string None None [(7, "on-change"%string)] [].

Lemma new_clients_are_named_witness :
  exists c,
    newClient counting sample_config 1 tt 0 = (inl c, 1) /\
    Name c = "hz.client_1"%string.
Proof.
  destruct (new_clients_are_named counting sample_config sample_config
              1 1 tt tt 0) as [H _].
  eexists. split; [reflexivity |].
  destruct (H _ 1 eq_refl) as [_ [_ Hname]]. exact Hname.
Defined.

End ClientAPIFacts.

Module NearCacheReadsFacts.
Import NearCacheMap NearCacheReads.

Section Facts.

Context {W : Type}.
Variable env : collaborators W.
Variable rd : readers W.
Variable SerializeKeys : bool.

(** X17. A key that the near cache holds is answered from the near cache
    alone: Get returns the cached value (deserialized when it is kept
    as data) and ContainsKey tells whether it is non-nil, and the world
    after either call is the world that the lookup in the near cache
    left: no reservation, no remote call and no invalidation takes
    place. *)
Theorem hit_stays_local (key : string) (k : nckey) (v : value) (w w1 : W) :
  toNearCacheKey env SerializeKeys key = inl k ->
  ncGet rd k w = (inl (v, true), w1) ->
  Get env rd SerializeKeys key w = (hit_value rd v, w1) /\
  ContainsKey env rd SerializeKeys key w = (inl (negb (is_nil v)), w1).
Proof.
  intros Hk Hget. unfold Get, ContainsKey, getCachedValue.
  rewrite Hk, Hget. simpl.
  destruct v as [| data | o]; simpl; try (split; reflexivity).
  destruct (ToObject rd data); split; reflexivity.
Qed.

(** X18. A key that the near cache does not hold is fetched from the
    remote; when any step of the fetch fails (serializing the key,
    reserving, the remote call, publishing) Get returns the error and
    invalidates the key in the world the fetch left, and when the
    fetch succeeds Get returns the value without invalidating. *)
Theorem miss_fetches_and_invalidates_on_failure
    (key : string) (k : nckey) (v : value) (w w1 : W) :
  toNearCacheKey env SerializeKeys key = inl k ->
  ncGet rd k w = (inl (v, false), w1) ->
  Get env rd SerializeKeys key w =
  match getFromRemote rd k w1 with
  | (inr err, w2) => (inr err, Invalidate env k w2)
  | (inl fetched, w2) => (inl fetched, w2)
  end.
Proof.
  intros Hk Hget. unfold Get, getCachedValue. rewrite Hk, Hget. simpl.
  destruct (getFromRemote rd k w1) as [[fetched | err] w2]; reflexivity.
Qed.

(** X19. With the preloader enabled a near-cache map cannot be made:
    newNearCacheMap panics with "implement me!", unless registering
    the invalidation listener has failed before, in which case it
    returns that error wrapped by fmt.Errorf with the format
    "hazelcast.newNearCacheMap: preloading near cache: %w".  The
    listener is registered, after the debug line, only when the cache
    is invalidated on change; the world is what the registration
    left. *)
Theorem preloader_is_not_implemented
    (Errorf : string -> error -> error) (Debug : string -> W -> W)
    (InvalidateOnChange : bool) (name : string) (local : bool) (w : W) :
  newNearCacheMap env rd SerializeKeys Errorf Debug InvalidateOnChange true
                  name local w =
  if InvalidateOnChange then
    match listenerBinderAdd rd name local
            (Debug (registering_message name local) w) with
    | (Some err, w1) =>
        (Returns
           (inr (Errorf
                   "hazelcast.newNearCacheMap: preloading near cache: %w"%string
                   err)), w1)
    | (None, w1) => (Panics "implement me!"%string, w1)
    end
  else (Panics "implement me!"%string, w).
Proof.
  unfold newNearCacheMap.
  destruct InvalidateOnChange; [| reflexivity].
  destruct (listenerBinderAdd rd name local
              (Debug (registering_message name local) w))
    as [[err |] w1]; reflexivity.
Qed.

(** X20. When keys are not serialized every key has a near-cache key, so
    each mutating operation always makes its remote call and always
    invalidates the key afterwards. *)
Theorem raw_keys_always_invalidate (mu : mutation) (w : W) :
  perform env false mu w =
  (fst (remote env mu (RawKey (key_of mu)) w),
   Invalidate env (RawKey (key_of mu))
              (snd (remote env mu (RawKey (key_of mu)) w))).
Proof.
  destruct mu; simpl;
    unfold Put, PutWithMaxIdle, Set_, SetWithTTLAndMaxIdle, Remove,
      RemoveIfSame, TryPut, TryRemove, Delete, toNearCacheKey;
    apply NearCacheMapFacts.lift_defer.
Qed.

End Facts.

Example Get_hit :
  Get (model_env None) (model_readers None) false "a" sample_world =
  (inl (IsObject "v1"), sample_world).
Proof. reflexivity. Qed.

Example Get_miss_remote_fails :
  Get (model_env None) (model_readers (Some (OtherError "io"))) false "c"
      sample_world =
  (inr (OtherError "io"),
   mkWorld (records sample_world) (lastSeen sample_world) true []
           [EvRemote "get" (RawKey ""); EvInvalidate (RawKey "c")]).
Proof. reflexivity. Qed.

Lemma hit_stays_local_witness :
  Get (model_env None) (model_readers None) false "a" sample_world =
  (inl (IsObject "v1"), sample_world).
Proof.
  destruct (hit_stays_local (model_env None) (model_readers None) false
              "a" (RawKey "a") (IsData "v1") sample_world sample_world
              eq_refl eq_refl) as [H _].
  exact H.
Defined.

Lemma miss_fetches_and_invalidates_on_failure_witness :
  fst (Get (model_env None) (model_readers (Some (OtherError "io"))) false
           "c" sample_world) = inr (OtherError "io").
Proof.
  rewrite (miss_fetches_and_invalidates_on_failure (model_env None)
             (model_readers (Some (OtherError "io"))) false
             "c" (RawKey "c") Nil sample_world sample_world
             eq_refl eq_refl).
  reflexivity.
Defined.

End NearCacheReadsFacts.

Module SQLDriverFacts.
Import SQLDriver.

Lemma int32_small (n : Z) : - 2 ^ 31 <= n < 2 ^ 31 -> int32 n = n.
Proof.
  intros H. unfold int32. rewrite Z.mod_small; lia.
Qed.

Lemma update_middle {A : Type} (pre : list A) (d v : A) (t : list A) :
  update (List.length pre) v (pre ++ d :: t) = pre ++ v :: t.
Proof.
  induction pre as [| h pre IH]; simpl; [reflexivity |].
  rewrite IH. reflexivity.
Qed.

Section Facts.

Context {Value : Type}.
Variable fetch : nat -> Page Value + error.
Variable closeQuery : nat -> option error.
Variable Errorf : error -> error.

Lemma fill_from (cols : list (list Value)) (j : nat) :
  Forall (fun col => (j < List.length col)%nat) cols ->
  forall pre dest,
    List.length dest = List.length cols ->
    fill cols (List.length pre) (Z.of_nat j) (pre ++ dest) =
    Some (pre ++ row cols j).
Proof.
  induction 1 as [| col rest Hcol Hrest IH]; intros pre dest Hlen.
  - destruct dest; [| discriminate]. reflexivity.
  - destruct dest as [| d dest]; [discriminate |].
    simpl in Hlen. injection Hlen as Hlen.
    cbn [fill].
    replace (Z.of_nat j <? 0) with false by (symmetry; apply Z.ltb_ge; lia).
    replace (len col <=? Z.of_nat j) with false
      by (symmetry; apply Z.leb_gt; unfold len; lia).
    cbn [orb].
    replace (List.length (pre ++ d :: dest) <=? List.length pre)%nat
      with false
      by (symmetry; apply Nat.leb_gt; rewrite length_app; simpl; lia).
    rewrite Nat2Z.id.
    destruct (nth_error col j) as [v |] eqn:Hv;
      [| apply nth_error_None in Hv; lia].
    rewrite update_middle.
    specialize (IH (pre ++ [v])%list dest Hlen).
    rewrite length_app in IH. simpl in IH.
    replace (List.length pre + 1)%nat with (S (List.length pre)) in IH by lia.
    rewrite <- app_assoc in IH. simpl in IH. rewrite IH.
    unfold row. simpl. rewrite Hv. rewrite <- app_assoc. reflexivity.
Qed.

Lemma fill_row (cols : list (list Value)) (j : nat) (dest : list Value) :
  Forall (fun col => (j < List.length col)%nat) cols ->
  List.length dest = List.length cols ->
  fill cols 0 (Z.of_nat j) dest = Some (row cols j).
Proof.
  intros H Hlen. apply (fill_from cols j H [] dest Hlen).
Qed.

Lemma length_row (cols : list (list Value)) (j : nat) :
  Forall (fun col => (j < List.length col)%nat) cols ->
  List.length (row cols j) = List.length cols.
Proof.
  induction 1 as [| col rest Hcol Hrest IH]; [reflexivity |].
  unfold row in *. simpl.
  destruct (nth_error col j) eqn:Hv; [| apply nth_error_None in Hv; lia].
  simpl. rewrite IH. reflexivity.
Qed.

Lemma shaped_rows_in_range (c : nat) (p : Page Value) (j : nat) :
  shaped c p -> (j < rowCount p)%nat ->
  Forall (fun col => (j < List.length col)%nat) (Columns p).
Proof.
  intros (_ & Hall & _) Hj.
  eapply Forall_impl; [| exact Hall].
  intros col Hc. simpl in Hc. unfold rowCount in Hj. lia.
Qed.

(** One call of [Next] inside a page. *)
Lemma Next_in_page (c : nat) (r : QueryResult Value) (i : nat)
    (dest : list Value) :
  (0 < c)%nat -> shaped c (page r) -> List.length dest = c ->
  index r = Z.of_nat i -> (i < rowCount (page r))%nat ->
  Next fetch Errorf dest r =
  (NextRow (row (Columns (page r)) i), set_index (Z.of_nat (S i)) r).
Proof.
  intros Hc Hs Hd Hi Hlt.
  pose proof (shaped_rows_in_range c (page r) i Hs Hlt) as Hrng.
  destruct Hs as (Hcols & Hall & Hbound).
  unfold Next.
  replace (len (Columns (page r)) =? 0) with false
    by (symmetry; apply Z.eqb_neq; unfold len; lia).
  unfold rowCount in Hlt. unfold len in Hbound.
  rewrite int32_small by (unfold len; lia).
  replace (index r >=? len (hd [] (Columns (page r)))) with false
    by (symmetry; rewrite Z.geb_leb; apply Z.leb_gt; unfold len; lia).
  unfold copy_row. rewrite Hi.
  rewrite fill_row by (try assumption; congruence).
  rewrite int32_small by lia.
  do 2 f_equal. lia.
Qed.

(** One call of [Next] at the end of the last page. *)
Lemma Next_at_the_end (c : nat) (r : QueryResult Value)
    (dest : list Value) :
  (0 < c)%nat -> shaped c (page r) ->
  index r = Z.of_nat (rowCount (page r)) -> Last (page r) = true ->
  Next fetch Errorf dest r = (NextEOF, set_state closed r).
Proof.
  intros Hc (Hcols & Hall & Hbound) Hi Hlast.
  unfold Next.
  replace (len (Columns (page r)) =? 0) with false
    by (symmetry; apply Z.eqb_neq; unfold len; lia).
  unfold len in Hbound.
  rewrite int32_small by (unfold len; lia).
  replace (index r >=? len (hd [] (Columns (page r)))) with true
    by (symmetry; rewrite Z.geb_leb; apply Z.leb_le;
        unfold len, rowCount in *; lia).
  rewrite Hlast. reflexivity.
Qed.

(** One call of [Next] at the end of a page that is not the last:
    the next page is fetched and its first row is returned. *)
Lemma Next_at_a_page_end (c : nat) (r : QueryResult Value)
    (q : Page Value) (dest : list Value) :
  (0 < c)%nat -> shaped c (page r) -> shaped c q ->
  List.length dest = c ->
  index r = Z.of_nat (rowCount (page r)) -> Last (page r) = false ->
  fetch (fetches r) = inl q -> (0 < rowCount q)%nat ->
  Next fetch Errorf dest r =
  (NextRow (row (Columns q) 0),
   mkQueryResult None q (columnNames r) (cursorBufferSize r) 1 (state r)
                 (S (fetches r)) (closeQueries r)).
Proof.
  intros Hc (Hcols & Hall & Hbound) Hq Hd Hi Hlast Hf Hrows.
  pose proof (shaped_rows_in_range c q 0 Hq Hrows) as Hrng.
  destruct Hq as (Hqcols & _ & _).
  unfold Next.
  replace (len (Columns (page r)) =? 0) with false
    by (symmetry; apply Z.eqb_neq; unfold len; lia).
  unfold len in Hbound.
  rewrite int32_small by (unfold len; lia).
  replace (index r >=? len (hd [] (Columns (page r)))) with true
    by (symmetry; rewrite Z.geb_leb; apply Z.leb_le;
        unfold len, rowCount in *; lia).
  rewrite Hlast. unfold fetchNextPage. rewrite Hf.
  unfold copy_row. cbn [page index].
  change 0 with (Z.of_nat 0).
  rewrite fill_row by (try assumption; congruence).
  reflexivity.
Qed.

Lemma length_rows (p : Page Value) : List.length (rows p) = rowCount p.
Proof.
  unfold rows, rowCount. rewrite length_map, length_seq. reflexivity.
Qed.

Lemma drain_S (fuel : nat) (dest : list Value) (r : QueryResult Value) :
  drain fetch Errorf (S fuel) dest r =
  match Next fetch Errorf dest r with
  | (NextRow row, r) =>
      let '(rows, last, r) := drain fetch Errorf fuel row r in
      (row :: rows, last, r)
  | (other, r) => ([], Some other, r)
  end.
Proof. reflexivity. Qed.

(** [Next] called until it stops, from row [i] of a page [p] on, with
    the pages [ps] still to come. *)
Lemma drain_from (c : nat) (Hc : (0 < c)%nat) :
  forall ps p,
    last_only p ps = true ->
    Forall (shaped c) (p :: ps) ->
    Forall (fun q => (0 < rowCount q)%nat) ps ->
    forall m i r dest,
      page r = p -> index r = Z.of_nat i ->
      (i + m = rowCount p)%nat -> List.length dest = c ->
      (forall j q, nth_error ps j = Some q ->
                   fetch (fetches r + j) = inl q) ->
      exists r',
        drain fetch Errorf (S (m + List.length (flat_map rows ps))) dest r =
        ((map (row (Columns p)) (seq i m) ++ flat_map rows ps)%list,
         Some NextEOF, r') /\
        state r' = closed /\
        fetches r' = (fetches r + List.length ps)%nat /\
        closeQueries r' = closeQueries r.
Proof.
  induction ps as [| q qs IHps]; intros p Hlast Hshape Hrows;
    induction m as [| m IHm]; intros i r dest Hp Hi Him Hd Hf.
  - (* the end of the last page *)
    simpl in Hlast. subst p.
    exists (set_state closed r).
    rewrite drain_S. cbn [Nat.add flat_map List.length map seq app].
    rewrite (Next_at_the_end c); try assumption.
    + repeat split; simpl; lia.
    + inversion Hshape; assumption.
    + rewrite Hi. f_equal. lia.
  - (* a row of the last page *)
    subst p.
    assert (Hs : shaped c (page r)) by (inversion Hshape; assumption).
    rewrite drain_S. cbn [Nat.add].
    rewrite (Next_in_page c r i) by (try assumption; lia).
    destruct (IHm (S i) (set_index (Z.of_nat (S i)) r)
                  (row (Columns (page r)) i)) as (r' & Hr' & Hst & Hfe & Hcl);
      try reflexivity.
    + simpl. lia.
    + rewrite length_row by (apply (shaped_rows_in_range c); [assumption | lia]).
      destruct Hs as (Hcols & _). exact Hcols.
    + exact Hf.
    + exists r'. cbn [page set_index] in Hr'. rewrite Hr'.
      repeat split; assumption.
  - (* the end of a page that is not the last *)
    subst p. simpl in Hlast. apply andb_true_iff in Hlast.
    destruct Hlast as [Hnl Hlast]. apply negb_true_iff in Hnl.
    apply Forall_cons_iff in Hshape. destruct Hshape as [Hs Hshape'].
    apply Forall_cons_iff in Hrows. destruct Hrows as [Hq Hrows'].
    assert (Hsq : shaped c q) by (inversion Hshape'; assumption).
    assert (Hfq : fetch (fetches r) = inl q).
    { specialize (Hf 0%nat q eq_refl). rewrite Nat.add_0_r in Hf. exact Hf. }
    rewrite drain_S. cbn [Nat.add].
    rewrite (Next_at_a_page_end c r q) by (try assumption; rewrite Hi; f_equal; lia).
    cbn [flat_map]. rewrite length_app, length_rows.
    destruct (rowCount q) as [| n] eqn:Hn; [lia |].
    cbn [Nat.add].
    destruct (IHps q Hlast Hshape' Hrows' n 1%nat
                (mkQueryResult None q (columnNames r) (cursorBufferSize r) 1
                               (state r) (S (fetches r)) (closeQueries r))
                (row (Columns q) 0))
      as (r' & Hr' & Hst & Hfe & Hcl); try reflexivity.
    + lia.
    + rewrite length_row by (apply (shaped_rows_in_range c); [assumption | lia]).
      destruct Hsq as (Hcols & _). exact Hcols.
    + intros j q' Hj. cbn [fetches].
      replace (S (fetches r) + j)%nat with (fetches r + S j)%nat by lia.
      apply Hf. exact Hj.
    + exists r'. rewrite Hr'. cbn [fetches closeQueries] in Hfe, Hcl.
      repeat split; try assumption.
      * cbn [map seq app]. unfold rows at 2. fold (rowCount q). rewrite Hn.
        reflexivity.
      * simpl. lia.
  - (* a row of a page that is not the last *)
    subst p.
    assert (Hs : shaped c (page r)) by (inversion Hshape; assumption).
    rewrite drain_S. cbn [Nat.add].
    rewrite (Next_in_page c r i) by (try assumption; lia).
    destruct (IHm (S i) (set_index (Z.of_nat (S i)) r)
                  (row (Columns (page r)) i)) as (r' & Hr' & Hst & Hfe & Hcl);
      try reflexivity.
    + simpl. lia.
    + rewrite length_row by (apply (shaped_rows_in_range c); [assumption | lia]).
      destruct Hs as (Hcols & _). exact Hcols.
    + exact Hf.
    + exists r'. cbn [page set_index] in Hr'. rewrite Hr'.
      repeat split; assumption.
Qed.

(** [Next] at the end of a page that is not the last one asks for the
    next page, whatever comes back. *)
Lemma Next_at_a_boundary (c : nat) (r : QueryResult Value)
    (dest : list Value) :
  (0 < c)%nat -> shaped c (page r) ->
  index r = Z.of_nat (rowCount (page r)) -> Last (page r) = false ->
  Next fetch Errorf dest r =
  match fetchNextPage fetch Errorf r with
  | (Some e, r) => (NextError e, r)
  | (None, r) => copy_row (Columns (page r)) dest r
  end.
Proof.
  intros Hc (Hcols & Hall & Hbound) Hi Hlast.
  unfold Next.
  replace (len (Columns (page r)) =? 0) with false
    by (symmetry; apply Z.eqb_neq; unfold len; lia).
  unfold len in Hbound.
  rewrite int32_small by (unfold len; lia).
  replace (index r >=? len (hd [] (Columns (page r)))) with true
    by (symmetry; rewrite Z.geb_leb; apply Z.leb_le;
        unfold len, rowCount in *; lia).
  rewrite Hlast. reflexivity.
Qed.

Lemma closes_when_closed (n : nat) (r : QueryResult Value) :
  state r = closed -> closes closeQuery n r = (repeat None n, r).
Proof.
  intros Hst. induction n as [| n IH]; [reflexivity |].
  cbn [closes repeat]. unfold Close at 1. rewrite Hst. cbn [Z.eqb closed open].
  rewrite IH. reflexivity.
Qed.

(** X21. [Next], called until it returns something else than nil,
    returns every row of every page, in order, one per call, and then
    [io.EOF]: the first page is the one the result was made with, each
    further page is fetched when the rows of the one before are used
    up, and the page that says it is the last one ends the iteration.
    The result is closed then, so that [Close] returns nil without
    asking the member.  The pages have [c > 0] columns of equal length
    each, [dest] has [c] cells, and every fetched page has a row. *)
Theorem Next_returns_every_row (c : nat) (p0 : Page Value)
    (ps : list (Page Value)) (names : list string) (cbs : Z)
    (dest : list Value) :
  (0 < c)%nat ->
  List.length dest = c ->
  Forall (shaped c) (p0 :: ps) ->
  last_only p0 ps = true ->
  Forall (fun q => (0 < rowCount q)%nat) ps ->
  (forall j q, nth_error ps j = Some q -> fetch j = inl q) ->
  exists r',
    drain fetch Errorf (S (List.length (flat_map rows (p0 :: ps)))) dest
          (NewQueryResult names p0 cbs) =
    (flat_map rows (p0 :: ps), Some NextEOF, r') /\
    fetches r' = List.length ps /\
    Close closeQuery r' = (None, r').
Proof.
  intros Hc Hd Hshape Hlast Hrows Hf.
  destruct (drain_from c Hc ps p0 Hlast Hshape Hrows (rowCount p0) 0%nat
              (NewQueryResult names p0 cbs) dest)
    as (r' & Hr' & Hst & Hfe & Hcl); try reflexivity; try assumption.
  exists r'. cbn [flat_map]. rewrite length_app, length_rows.
  split; [exact Hr' | split; [exact Hfe |]].
  unfold Close. rewrite Hst. reflexivity.
Qed.

(** X22. However often [Close] is called on an open result, the member
    is asked once to close the query: the first call returns what the
    member answered, an error included, every later call returns nil
    without asking again. *)
Theorem Close_asks_the_member_once (n : nat) (r : QueryResult Value) :
  state r = open ->
  closes closeQuery (S n) r =
  (closeQuery (closeQueries r) :: repeat None n,
   mkQueryResult (err r) (page r) (columnNames r) (cursorBufferSize r)
                 (index r) closed (fetches r) (S (closeQueries r))).
Proof.
  intros Hst. cbn [closes]. unfold Close at 1. rewrite Hst.
  cbn [Z.eqb open].
  destruct (closeQuery (closeQueries r)); rewrite closes_when_closed;
    reflexivity.
Qed.

(** X23. When fetching the next page fails, [Next] returns the wrapped
    error and leaves the page, the index and the state as they were:
    the next call of [Next] fetches again, and returns the first row
    of the page when that succeeds. *)
Theorem Next_fetches_again_after_an_error (c : nat)
    (r : QueryResult Value) (e : error) (q : Page Value)
    (dest : list Value) :
  (0 < c)%nat -> shaped c (page r) -> List.length dest = c ->
  index r = Z.of_nat (rowCount (page r)) -> Last (page r) = false ->
  fetch (fetches r) = inr e ->
  fetch (S (fetches r)) = inl q -> shaped c q -> (0 < rowCount q)%nat ->
  exists r1,
    Next fetch Errorf dest r = (NextError (Errorf e), r1) /\
    page r1 = page r /\ index r1 = index r /\ state r1 = state r /\
    fst (Next fetch Errorf dest r1) = NextRow (row (Columns q) 0).
Proof.
  intros Hc Hs Hd Hi Hlast He Hq Hsq Hrows.
  eexists. split.
  - rewrite (Next_at_a_boundary c) by assumption.
    unfold fetchNextPage. rewrite He. reflexivity.
  - cbn [page index state]. repeat split.
    rewrite (Next_at_a_page_end c _ q); try assumption; reflexivity.
Qed.

(** X24. A fetched page is not checked for rows.  When the next page
    comes without rows, [Next] does not return [io.EOF]: with columns
    in the page it panics on [cols[i][r.index]], and with no column at
    all it returns nil with [dest] as it was and moves the index to 1. *)
Theorem Next_on_a_fetched_page_without_rows (c : nat)
    (r : QueryResult Value) (q : Page Value) (dest : list Value) :
  (0 < c)%nat -> shaped c (page r) ->
  index r = Z.of_nat (rowCount (page r)) -> Last (page r) = false ->
  fetch (fetches r) = inl q -> rowCount q = 0%nat ->
  fst (Next fetch Errorf dest r) =
  match Columns q with
  | [] => NextRow dest
  | _ :: _ => NextPanic
  end /\
  page (snd (Next fetch Errorf dest r)) = q /\
  index (snd (Next fetch Errorf dest r)) =
  match Columns q with
  | [] => 1
  | _ :: _ => 0
  end.
Proof.
  intros Hc Hs Hi Hlast Hq Hrows.
  rewrite (Next_at_a_boundary c) by assumption.
  unfold fetchNextPage. rewrite Hq. unfold copy_row. cbn [page index].
  unfold rowCount in Hrows.
  destruct (Columns q) as [| col rest]; [repeat split |].
  simpl in Hrows. apply length_zero_iff_nil in Hrows. subst col.
  repeat split.
Qed.

End Facts.

Lemma Next_returns_every_row_witness :
  exists r',
    drain sample_fetch sample_Errorf 4 [0; 0]
          (NewQueryResult ["a"; "b"]%string sample_page0 4096) =
    ([[1; 10]; [2; 20]; [3; 30]], Some NextEOF, r') /\
    fetches r' = 1%nat /\
    Close sample_closeQuery r' = (None, r').
Proof.
  apply (Next_returns_every_row sample_fetch sample_closeQuery sample_Errorf
           2 sample_page0 [sample_page1] ["a"; "b"]%string 4096 [0; 0]).
  - lia.
  - reflexivity.
  - repeat apply Forall_cons; try apply Forall_nil;
      (split; [reflexivity |
               split; [repeat apply Forall_cons; try apply Forall_nil;
                       reflexivity
                      | reflexivity]]).
  - reflexivity.
  - repeat apply Forall_cons; try apply Forall_nil. unfold rowCount; simpl; lia.
  - intros [| [| j]] q Hj; simpl in Hj; try discriminate.
    injection Hj as <-. reflexivity.
Defined.

Lemma Close_asks_the_member_once_witness :
  closes sample_closeQuery 3
         (NewQueryResult ["a"; "b"]%string sample_page0 4096) =
  ([Some (OtherError "member is gone"); None; None],
   mkQueryResult None sample_page0 ["a"; "b"]%string 4096 0 closed 0 1).
Proof.
  apply (Close_asks_the_member_once sample_closeQuery 2
           (NewQueryResult ["a"; "b"]%string sample_page0 4096)).
  reflexivity.
Defined.

Lemma sample_page0_shaped : shaped 2 sample_page0.
Proof.
  split; [reflexivity |
          split; [repeat apply Forall_cons; try apply Forall_nil; reflexivity
                 | reflexivity]].
Qed.

Lemma sample_page1_shaped : shaped 2 sample_page1.
Proof.
  split; [reflexivity |
          split; [repeat apply Forall_cons; try apply Forall_nil; reflexivity
                 | reflexivity]].
Qed.

Lemma Next_fetches_again_after_an_error_witness :
  exists r1,
    Next failing_fetch sample_Errorf [0; 0]
         (set_index 2 (NewQueryResult ["a"; "b"]%string sample_page0 4096)) =
    (NextError (OtherError "fetching the next page: connection lost"), r1) /\
    page r1 = sample_page0 /\ index r1 = 2 /\ state r1 = open /\
    fst (Next failing_fetch sample_Errorf [0; 0] r1) = NextRow [3; 30].
Proof.
  apply (Next_fetches_again_after_an_error failing_fetch sample_Errorf 2
           (set_index 2 (NewQueryResult ["a"; "b"]%string sample_page0 4096))
           (OtherError "connection lost") sample_page1 [0; 0]).
  - lia.
  - exact sample_page0_shaped.
  - reflexivity.
  - reflexivity.
  - reflexivity.
  - reflexivity.
  - reflexivity.
  - exact sample_page1_shaped.
  - unfold rowCount; simpl; lia.
Defined.

Lemma Next_on_a_fetched_page_without_rows_witness :
  let r := set_index 2 (NewQueryResult ["a"; "b"]%string sample_page0 4096) in
  fst (Next empty_fetch sample_Errorf [0; 0] r) = NextPanic /\
  page (snd (Next empty_fetch sample_Errorf [0; 0] r)) = sample_empty_page /\
  index (snd (Next empty_fetch sample_Errorf [0; 0] r)) = 0.
Proof.
  apply (Next_on_a_fetched_page_without_rows empty_fetch sample_Errorf 2
           (set_index 2 (NewQueryResult ["a"; "b"]%string sample_page0 4096))
           sample_empty_page [0; 0]).
  - lia.
  - exact sample_page0_shaped.
  - reflexivity.
  - reflexivity.
  - reflexivity.
  - reflexivity.
Defined.

End SQLDriverFacts.

Module CompatibilityFacts.
Import Compatibility.

Lemma byte_val_byte_of (v : Z) :
  Connection.byte_val (byte_of v) = v mod 2 ^ 8.
Proof.
  unfold Connection.byte_val, byte_of.
  assert (Hr : 0 <= v mod 256 < 256) by (apply Z.mod_pos_bound; lia).
  destruct (Byte.of_N (Z.to_N (v mod 256))) as [b |] eqn:Hb.
  - apply Byte.to_of_N in Hb. rewrite Hb. rewrite Z2N.id by lia.
    reflexivity.
  - apply Byte.of_N_None_iff in Hb. lia.
Qed.

Lemma testbit_byte (v k n : Z) :
  0 <= k -> 0 <= n ->
  Z.testbit (Z.shiftl (Connection.byte_val (byte_of (Z.shiftr v k))) k) n =
  (k <=? n) && (n <? k + 8) && Z.testbit v n.
Proof.
  intros Hk Hn. rewrite byte_val_byte_of, Z.shiftl_spec by lia.
  destruct (Z.leb_spec k n) as [Hkn | Hkn].
  - destruct (Z.ltb_spec n (k + 8)) as [Hlt | Hge]; cbn [andb].
    + rewrite Z.mod_pow2_bits_low by lia.
      rewrite Z.shiftr_spec by lia. f_equal. lia.
    + apply Z.mod_pow2_bits_high. lia.
  - cbn [andb]. apply Z.testbit_neg_r. lia.
Qed.

(** Four bytes written by [PutUint32] are read back by [Uint32]. *)
Lemma Uint32_PutUint32 (v : Z) (rest : list Byte.byte) :
  0 <= v < 2 ^ 32 -> Connection.Uint32 (PutUint32 v ++ rest) = v.
Proof.
  intros Hv. unfold PutUint32. cbn [app Connection.Uint32].
  apply Z.bits_inj'. intros n Hn.
  rewrite !Z.lor_spec.
  rewrite <- (Z.shiftl_0_r (Connection.byte_val (byte_of v))).
  rewrite <- (Z.shiftr_0_r v) at 1.
  rewrite !testbit_byte by lia.
  destruct (Z.ltb_spec n 32) as [Hlt | Hge].
  - destruct (Z.leb_spec 0 n), (Z.ltb_spec n (0 + 8)),
      (Z.leb_spec 8 n), (Z.ltb_spec n (8 + 8)),
      (Z.leb_spec 16 n), (Z.ltb_spec n (16 + 8)),
      (Z.leb_spec 24 n), (Z.ltb_spec n (24 + 8)); cbn [andb orb];
      try lia; rewrite ?orb_false_r; reflexivity.
  - replace (Z.testbit v n) with false.
    + rewrite !andb_false_r. reflexivity.
    + symmetry. rewrite <- (Z.mod_small v (2 ^ 32)) by lia.
      apply Z.mod_pow2_bits_high. lia.
Qed.

Lemma int32_uint32 (i : Z) :
  - 2 ^ 31 <= i < 2 ^ 31 -> int32 (Connection.uint32 i) = i.
Proof.
  intros Hi. unfold int32, Connection.uint32.
  destruct (Z.leb_spec 0 i) as [Hpos | Hneg].
  - rewrite Z.mod_small by lia.
    destruct (Z.ltb_spec i (2 ^ 31)); lia.
  - replace (i mod 2 ^ 32) with (i + 2 ^ 32).
    + destruct (Z.ltb_spec (i + 2 ^ 32) (2 ^ 31)); lia.
    + apply Z.mod_unique with (q := -1); lia.
Qed.

Lemma binary_Read_PutUint32 (v : Z) (rest : list Byte.byte) :
  0 <= v < 2 ^ 32 -> binary_Read (PutUint32 v ++ rest) = (inr v, rest).
Proof.
  intros Hv. unfold binary_Read.
  rewrite Uint32_PutUint32 by assumption. reflexivity.
Qed.

Section Facts.

Variable float32 : Type.
Variable Float32bits : float32 -> Z.
Variable Float32frombits : Z -> float32.

Lemma Read_two_fields (u v : Z) (rest : list Byte.byte) :
  0 <= u < 2 ^ 32 -> 0 <= v < 2 ^ 32 ->
  Read float32 Float32frombits (PutUint32 u ++ PutUint32 v ++ rest) =
  Value (mkCBA (int32 u) (Float32frombits v)).
Proof.
  intros Hu Hv. unfold Read. cbv zeta.
  rewrite !binary_Read_PutUint32 by assumption.
  reflexivity.
Qed.

Lemma Write_bytes (x : CustomByteArraySerializable float32) :
  Write float32 Float32bits (Pointer x) =
  Written (make 10 ++ PutUint32 (Connection.uint32 (i x)) ++
           PutUint32 (Float32bits (f x)))%list.
Proof.
  unfold Write, binary_Write. rewrite <- app_assoc.
  reflexivity.
Qed.

(** X25. What [Write] writes is not what [Read] reads.  [Write] puts the
    two fields behind the ten zero bytes the buffer is made with, and
    [Read] decodes the first eight bytes of the array: reading the
    array that was written gives the value with [i = 0] and the float
    of bits 0, whatever was written; the value written is read back
    from the array without its first ten bytes. *)
Theorem Write_then_Read (x : CustomByteArraySerializable float32) :
  - 2 ^ 31 <= i x < 2 ^ 31 ->
  0 <= Float32bits (f x) < 2 ^ 32 ->
  exists b,
    Write float32 Float32bits (Pointer x) = Written b /\
    List.length b = 18%nat /\
    Read float32 Float32frombits b = Value (mkCBA 0 (Float32frombits 0)) /\
    Read float32 Float32frombits (skipn 10 b) =
    Value (mkCBA (i x) (Float32frombits (Float32bits (f x)))).
Proof.
  intros Hi Hf. eexists. split; [apply Write_bytes |].
  split; [reflexivity |]. split.
  - change (make 10 ++ PutUint32 (Connection.uint32 (i x)) ++
            PutUint32 (Float32bits (f x)))%list
      with (PutUint32 0 ++ PutUint32 0 ++
            [Byte.x00; Byte.x00] ++ PutUint32 (Connection.uint32 (i x)) ++
            PutUint32 (Float32bits (f x)))%list.
    rewrite Read_two_fields by lia. reflexivity.
  - change (skipn 10 (make 10 ++ PutUint32 (Connection.uint32 (i x)) ++
                      PutUint32 (Float32bits (f x))))%list
      with (PutUint32 (Connection.uint32 (i x)) ++
            PutUint32 (Float32bits (f x)) ++ [])%list.
    rewrite Read_two_fields.
    + rewrite int32_uint32 by assumption. reflexivity.
    + unfold Connection.uint32. apply Z.mod_pos_bound. lia.
    + assumption.
Qed.

(** X26. [Read] returns nil exactly when the array has fewer than the
    eight bytes of the two fields; what follows them is ignored. *)
Theorem Read_needs_eight_bytes (input : list Byte.byte) :
  (Read float32 Float32frombits input = Nil <-> (List.length input < 8)%nat) /\
  Read float32 Float32frombits input =
  Read float32 Float32frombits (firstn 8 input).
Proof.
  destruct input as [| b0 [| b1 [| b2 [| b3 [| b4 [| b5 [| b6 [| b7 rest]]]]]]]];
    try (split; [split; [intros _; simpl; lia | reflexivity] | reflexivity]).
  split; [| reflexivity].
  split; [discriminate | simpl; lia].
Qed.

(** X27. [Write] takes a pointer only, and [Read] never returns one:
    whatever the array, [Write] panics on the object that [Read]
    returns for it. *)
Theorem Write_panics_on_what_Read_returns (input : list Byte.byte) :
  Write float32 Float32bits (Read float32 Float32frombits input) =
  PanicString "can serialize only CustomByteArraySerializable".
Proof.
  unfold Read.
  destruct (binary_Read input) as [[e | u] buf]; [reflexivity |].
  destruct (binary_Read buf) as [[e | v] buf']; reflexivity.
Qed.

End Facts.

Lemma Write_then_Read_witness :
  exists b,
    Write bits32 bits_of (Pointer (mkCBA (-2) 1065353216)) = Written b /\
    List.length b = 18%nat /\
    Read bits32 of_bits b = Value (mkCBA 0 (of_bits 0)) /\
    Read bits32 of_bits (skipn 10 b) =
    Value (mkCBA (-2) (of_bits (bits_of 1065353216))).
Proof.
  apply (Write_then_Read bits32 bits_of of_bits (mkCBA (-2) 1065353216)).
  - simpl. lia.
  - vm_compute. split; [discriminate | reflexivity].
Defined.

End CompatibilityFacts.
